(** * combus: idle versus moving fuel economics

    A shallow embedding of the calculation code of [streamlit_app.py]:
    the duration parser [parse_time_string], the block run by the
    "Calcular" button (time split, fuel split, costs, loss projections,
    savings, payback) and the sixty-month amortization loop that yields
    [roi_mes].

    Python numbers are modelled as they are: [int] is [Z], [float] is the
    kernel's binary64 [float] with IEEE 754 round-to-nearest-even, and the
    operations that can raise ([/] on a zero divisor, [int] on a run of
    more digits than the interpreter converts) return in an error
    monad.  The arithmetic block is written once over an interface of
    Python's numeric operations and read twice: over binary64, which is
    what the program runs on, and over the rationals, which is what its
    formulas mean when nothing is rounded. *)

From Stdlib Require Import ZArith QArith Floats List String Ascii Bool Lia.
From Stdlib Require Uint63.
Import ListNotations.

#[local] Set Warnings "-inexact-float".
#[local] Open Scope Z_scope.

(** ** Exceptions and the error monad *)

Inductive exn : Type :=
  | ZeroDivisionError
  | OverflowError
  | ValueError.

Inductive result (A : Type) : Type :=
  | Ok (a : A)
  | Raise (e : exn).

Arguments Ok {A} a.
Arguments Raise {A} e.

Definition bind {A B : Type} (c : result A) (k : A -> result B) : result B :=
  match c with
  | Ok a => k a
  | Raise e => Raise e
  end.

Declare Scope py_scope.
Delimit Scope py_scope with py.

Notation "x <- c ;; k" := (bind c (fun x => k))
  (at level 61, c at next level, right associativity) : py_scope.

(** ** Python's numeric operations as an interface

    [truediv] is [/] between two numbers of the carrier, [int_truediv] is
    [/] between two [int]s (whose result is a number of the carrier) and
    [of_int] is the coercion Python applies to the [int] operand of a
    mixed operation. *)

Class PyNum (T : Type) : Type := {
  add : T -> T -> T;
  sub : T -> T -> T;
  mul : T -> T -> T;
  truediv : T -> T -> result T;
  of_int : Z -> T;
  int_truediv : Z -> Z -> result T
}.

Notation "x + y" := (add x y) : py_scope.
Notation "x - y" := (sub x y) : py_scope.
Notation "x * y" := (mul x y) : py_scope.

(** ** binary64 *)

Module F64.

(** An [int] as an unrounded binary number: mantissa [|z|], exponent 0. *)
Definition Z2SF (z : Z) : spec_float :=
  match z with
  | Z0 => S754_zero false
  | Zpos p => S754_finite false p 0
  | Zneg p => S754_finite true p 0
  end.

(** [float(z)]: the nearest binary64 number, ties to even.  Every [int]
    the program converts is a widget value or a constant below [2^53],
    where the conversion is exact. *)
Definition of_int (z : Z) : float :=
  SF2Prim (binary_normalize prec emax z 0 false).

(** [a / b] on two [int]s: the quotient of the exact integers, rounded
    once. *)
Definition int_truediv (a b : Z) : result float :=
  if b =? 0 then Raise ZeroDivisionError
  else match SFdiv prec emax (Z2SF a) (Z2SF b) with
       | S754_infinity _ => Raise OverflowError
       | q => Ok (SF2Prim q)
       end.

(** [x / y] on two [float]s. *)
Definition truediv (x y : float) : result float :=
  if PrimFloat.eqb y 0%float then Raise ZeroDivisionError
  else Ok (PrimFloat.div x y).

(** [num / den] rounded to the nearest integer, ties to even;
    [0 <= num], [0 < den]. *)
Definition round_half_even (num den : Z) : Z :=
  let q := num / den in
  let r := num mod den in
  match 2 * r ?= den with
  | Lt => q
  | Gt => q + 1
  | Eq => if Z.even q then q else q + 1
  end.

(** [round(x, ndigits)] for [0 <= ndigits]: the exact binary value of
    [x] is rounded to [ndigits] decimals, ties to even, and the decimal
    obtained is converted back to the nearest binary64 number; the sign
    of [x] is kept, so a small negative number rounds to [-0.0]. *)
Definition round (x : float) (ndigits : Z) : float :=
  match Prim2SF x with
  | S754_finite s m e =>
      let p := 10 ^ ndigits in
      let n := match e with
               | Zneg k => round_half_even (Zpos m * p) (2 ^ Zpos k)
               | _ => Zpos m * 2 ^ e * p
               end in
      match n with
      | Zpos n' => SF2Prim (SFdiv prec emax (S754_finite s n' 0) (Z2SF p))
      | _ => SF2Prim (S754_zero s)
      end
  | _ => x
  end.

(** [float('inf')] *)
Definition inf : float := infinity.

(** [math.isfinite] *)
Definition is_finite (x : float) : bool :=
  match Prim2SF x with
  | S754_zero _ | S754_finite _ _ _ => true
  | _ => false
  end.

End F64.

#[export] Instance PyNum_float : PyNum float := {
  add := PrimFloat.add;
  sub := PrimFloat.sub;
  mul := PrimFloat.mul;
  truediv := F64.truediv;
  of_int := F64.of_int;
  int_truediv := F64.int_truediv
}.

(** ** The rationals: the same operations without rounding *)

Module Exact.

Definition truediv (x y : Q) : result Q :=
  if Qeq_bool y 0 then Raise ZeroDivisionError else Ok (Qdiv x y).

Definition int_truediv (a b : Z) : result Q :=
  if b =? 0 then Raise ZeroDivisionError
  else Ok (Qdiv (inject_Z a) (inject_Z b)).

End Exact.

#[export] Instance PyNum_Q : PyNum Q := {
  add := Qplus;
  sub := Qminus;
  mul := Qmult;
  truediv := Exact.truediv;
  of_int := inject_Z;
  int_truediv := Exact.int_truediv
}.

(** ** [parse_time_string]

    A Python [str] is modelled by a [string] whose characters are the code
    points U+0000 to U+00FF.  On that range [\d] is [0-9] and [\s] is the
    white space of [str.isspace]: TAB to CR, FS to US, SPACE, NEL and
    NBSP. *)

Definition is_digit (c : ascii) : bool :=
  let n := N_of_ascii c in ((48 <=? n) && (n <=? 57))%N.

Definition is_space (c : ascii) : bool :=
  let n := N_of_ascii c in
  (((9 <=? n) && (n <=? 13)) || ((28 <=? n) && (n <=? 32))
   || (n =? 133) || (n =? 160))%N.

(** The items of the pattern [\((\d+)D,\s*(\d+)H,\s*(\d+)M\)]. *)
Inductive item : Type :=
  | Lit (c : ascii)   (* one literal character *)
  | Digits            (* the group (\d+) *)
  | Spaces.           (* \s* *)

Definition pattern : list item :=
  [Lit "("; Digits; Lit "D"; Lit ","; Spaces;
            Digits; Lit "H"; Lit ","; Spaces;
            Digits; Lit "M"; Lit ")"]%char.

(** A greedy repetition of a character class, with backtracking: the
    longest run is tried first and given back one character at a time
    while the continuation [k] (run taken, text left) fails. *)
Fixpoint greedy {R : Type} (cls : ascii -> bool)
    (k : list ascii -> list ascii -> option R) (s : list ascii) : option R :=
  match s with
  | a :: s' =>
      if cls a then
        match greedy cls (fun t r => k (a :: t) r) s' with
        | Some v => Some v
        | None => k [] s
        end
      else k [] s
  | [] => k [] s
  end.

(** The pattern matched at the head of [s]; the result is the groups. *)
Fixpoint match_here (p : list item) (s : list ascii)
    : option (list (list ascii)) :=
  match p with
  | [] => Some []
  | Lit c :: p' =>
      match s with
      | a :: s' => if Ascii.eqb a c then match_here p' s' else None
      | [] => None
      end
  | Digits :: p' =>
      greedy is_digit
        (fun t r =>
           match t with
           | [] => None
           | _ :: _ => option_map (cons t) (match_here p' r)
           end) s
  | Spaces :: p' => greedy is_space (fun _ r => match_here p' r) s
  end.

(** [re.search]: the first position, from the left, where the pattern
    matches. *)
Fixpoint search (p : list item) (s : list ascii)
    : option (list (list ascii)) :=
  match match_here p s with
  | Some gs => Some gs
  | None =>
      match s with
      | _ :: s' => search p s'
      | [] => None
      end
  end.

(** What a list of items describes: the text [w] it matches, with the
    groups [gs] it captures. *)
Fixpoint denotes (p : list item) (w : list ascii) (gs : list (list ascii))
    : Prop :=
  match p with
  | [] => w = [] /\ gs = []
  | Lit c :: p' => exists w', w = c :: w' /\ denotes p' w' gs
  | Digits :: p' =>
      exists t w' gs',
        w = t ++ w' /\ t <> [] /\ forallb is_digit t = true /\
        gs = t :: gs' /\ denotes p' w' gs'
  | Spaces :: p' =>
      exists t w', w = t ++ w' /\ forallb is_space t = true /\ denotes p' w' gs
  end.

(** The number that a run of decimal digits writes in base ten. *)
Definition digit_value (c : ascii) : Z := Z.of_N (N_of_ascii c) - 48.

Definition decimal_value (t : list ascii) : Z :=
  fold_left (fun acc c => 10 * acc + digit_value c) t 0.

(** [sys.int_info.default_max_str_digits]: the most digits that [int]
    converts (CPython 3.11; the program does not change the limit). *)
Definition int_max_str_digits : Z := 4300.

(** [int] on a run of decimal digits: the number they write, or
    [ValueError] when the run, leading zeros included, has more digits
    than the limit. *)
Definition int (t : list ascii) : result Z :=
  if int_max_str_digits <? Z.of_nat (List.length t) then Raise ValueError
  else Ok (decimal_value t).

(** The run has no more digits than [int] converts. *)
Definition within_limit (t : list ascii) : bool :=
  Z.of_nat (List.length t) <=? int_max_str_digits.

(** The total of minutes, [None] when the pattern matches nowhere, or
    the [ValueError] of one of the three conversions. *)
Definition parse_time_string (time_str : string) : result (option Z) :=
  match search pattern (list_ascii_of_string time_str) with
  | Some [days; hours; minutes] =>
      (days <- int days ;;
       hours <- int hours ;;
       minutes <- int minutes ;;
       Ok (Some (days * 24 * 60 + hours * 60 + minutes)%Z))%py
  | _ => Ok None
  end.

(** What the pattern describes: the text of a duration, for three runs of
    digits and two runs of white space. *)
Definition digits (t : list ascii) : Prop :=
  t <> [] /\ forallb is_digit t = true.

Definition spaces (t : list ascii) : Prop := forallb is_space t = true.

Definition duration_text (d w1 h w2 m : list ascii) : list ascii :=
  ("(" :: d ++ "D" :: "," :: w1 ++ h ++ "H" :: "," :: w2 ++
          m ++ "M" :: ")" :: [])%char.

Definition well_formed (d w1 h w2 m : list ascii) : Prop :=
  digits d /\ spaces w1 /\ digits h /\ spaces w2 /\ digits m.

(** The string holds a duration somewhere. *)
Definition has_duration (time_str : string) : Prop :=
  exists pre d w1 h w2 m post,
    well_formed d w1 h w2 m /\
    list_ascii_of_string time_str = pre ++ duration_text d w1 h w2 m ++ post.

(** ** The calculation block of the "Calcular" button

    The arithmetic is written over [PyNum]; the names are the program's. *)

Section Calculos.

Context {T : Type} `{PyNum T}.
#[local] Open Scope py_scope.

(** Time and fuel split, costs, loss projections for the fleet and for
    one unit, savings and monthly net benefit. *)
Record Mermas : Type := {
  idle_percentage : T;
  moving_percentage : T;
  combustible_ralenti : T;
  combustible_movimiento : T;
  costo_ralenti : T;
  costo_movimiento : T;
  costo_total : T;
  merma_total : T;
  merma_diaria : T;
  merma_semanal : T;
  merma_mensual : T;
  merma_anual : T;
  merma_total_unit : T;
  merma_diaria_unit : T;
  merma_semanal_unit : T;
  merma_mensual_unit : T;
  merma_anual_unit : T;
  ahorro_anual : T;
  costo_total_barras : T;
  ahorro_mensual : T;
  neto_mensual : T
}.

Definition calcular_mermas
    (idle_minutes moving_minutes total_minutes : Z)
    (combustible_total precio_litro : T) (num_unidades : Z)
    (costo_por_pieza renta_mensual : T)
    (porcentaje_reduccion porcentaje_ralenti_real duration_days : Z)
    : result Mermas :=
  q_idle <- int_truediv idle_minutes total_minutes ;;
  let idle_percentage := q_idle * of_int 100 in
  q_moving <- int_truediv moving_minutes total_minutes ;;
  let moving_percentage := q_moving * of_int 100 in
  f_idle <- truediv idle_percentage (of_int 100) ;;
  let combustible_ralenti := f_idle * combustible_total in
  f_moving <- truediv moving_percentage (of_int 100) ;;
  let combustible_movimiento := f_moving * combustible_total in
  let costo_ralenti := combustible_ralenti * precio_litro in
  let costo_movimiento := combustible_movimiento * precio_litro in
  let costo_total := combustible_total * precio_litro in
  let merma_total := costo_ralenti * of_int num_unidades in
  merma_diaria <- truediv merma_total (of_int duration_days) ;;
  let merma_semanal := merma_diaria * of_int 7 in
  let merma_mensual := merma_diaria * of_int 30 in
  let merma_anual := merma_diaria * of_int 365 in
  let merma_total_unit := costo_ralenti in
  merma_diaria_unit <- truediv merma_total_unit (of_int duration_days) ;;
  let merma_semanal_unit := merma_diaria_unit * of_int 7 in
  let merma_mensual_unit := merma_diaria_unit * of_int 30 in
  let merma_anual_unit := merma_diaria_unit * of_int 365 in
  r_reduccion <- int_truediv porcentaje_reduccion 100 ;;
  r_real <- int_truediv porcentaje_ralenti_real 100 ;;
  let ahorro_anual := merma_anual * r_reduccion * r_real in
  let costo_total_barras := costo_por_pieza * of_int num_unidades in
  ahorro_mensual <- truediv ahorro_anual (of_int 12) ;;
  let neto_mensual :=
    ahorro_mensual - renta_mensual * of_int num_unidades in
  Ok {| idle_percentage := idle_percentage;
        moving_percentage := moving_percentage;
        combustible_ralenti := combustible_ralenti;
        combustible_movimiento := combustible_movimiento;
        costo_ralenti := costo_ralenti;
        costo_movimiento := costo_movimiento;
        costo_total := costo_total;
        merma_total := merma_total;
        merma_diaria := merma_diaria;
        merma_semanal := merma_semanal;
        merma_mensual := merma_mensual;
        merma_anual := merma_anual;
        merma_total_unit := merma_total_unit;
        merma_diaria_unit := merma_diaria_unit;
        merma_semanal_unit := merma_semanal_unit;
        merma_mensual_unit := merma_mensual_unit;
        merma_anual_unit := merma_anual_unit;
        ahorro_anual := ahorro_anual;
        costo_total_barras := costo_total_barras;
        ahorro_mensual := ahorro_mensual;
        neto_mensual := neto_mensual |}.

(** Annual net benefit and the figures of the real idle share, for one
    unit and for the fleet. *)
Record RalentiReal : Type := {
  neto_anual : T;
  costo_ralenti_real_unit : T;
  merma_diaria_real_unit : T;
  merma_semanal_real_unit : T;
  merma_mensual_real_unit : T;
  merma_anual_real_unit : T;
  costo_ralenti_real_fleet : T;
  merma_diaria_real_fleet : T;
  merma_semanal_real_fleet : T;
  merma_mensual_real_fleet : T;
  merma_anual_real_fleet : T
}.

Definition calcular_ralenti_real
    (ahorro_anual costo_ralenti renta_mensual : T) (num_unidades : Z)
    (real_idle_percentage duration_days : Z) : result RalentiReal :=
  let neto_anual :=
    ahorro_anual - renta_mensual * of_int 12 * of_int num_unidades in
  r_real <- int_truediv real_idle_percentage 100 ;;
  let costo_ralenti_real_unit := costo_ralenti * r_real in
  let merma_total_real_unit := costo_ralenti_real_unit in
  merma_diaria_real_unit <-
    truediv merma_total_real_unit (of_int duration_days) ;;
  let merma_semanal_real_unit := merma_diaria_real_unit * of_int 7 in
  let merma_mensual_real_unit := merma_diaria_real_unit * of_int 30 in
  let merma_anual_real_unit := merma_diaria_real_unit * of_int 365 in
  let costo_ralenti_real_fleet :=
    costo_ralenti_real_unit * of_int num_unidades in
  let merma_total_real_fleet := costo_ralenti_real_fleet in
  merma_diaria_real_fleet <-
    truediv merma_total_real_fleet (of_int duration_days) ;;
  let merma_semanal_real_fleet := merma_diaria_real_fleet * of_int 7 in
  let merma_mensual_real_fleet := merma_diaria_real_fleet * of_int 30 in
  let merma_anual_real_fleet := merma_diaria_real_fleet * of_int 365 in
  Ok {| neto_anual := neto_anual;
        costo_ralenti_real_unit := costo_ralenti_real_unit;
        merma_diaria_real_unit := merma_diaria_real_unit;
        merma_semanal_real_unit := merma_semanal_real_unit;
        merma_mensual_real_unit := merma_mensual_real_unit;
        merma_anual_real_unit := merma_anual_real_unit;
        costo_ralenti_real_fleet := costo_ralenti_real_fleet;
        merma_diaria_real_fleet := merma_diaria_real_fleet;
        merma_semanal_real_fleet := merma_semanal_real_fleet;
        merma_mensual_real_fleet := merma_mensual_real_fleet;
        merma_anual_real_fleet := merma_anual_real_fleet |}.

End Calculos.

Arguments Mermas T : clear implicits.
Arguments RalentiReal T : clear implicits.

(** ** Payback (binary64 only: the program writes [float('inf')]) *)

Record Retorno : Type := {
  meses_para_recuperar : float;
  roi_days : float
}.

Definition calcular_retorno (costo_total_barras neto_mensual : float)
    : result Retorno :=
  (meses_para_recuperar <-
     (if PrimFloat.ltb 0 neto_mensual
      then truediv costo_total_barras neto_mensual
      else Ok F64.inf) ;;
   roi_days <-
     (if PrimFloat.ltb 0 neto_mensual
      then (ahorro_neto_diario <- truediv neto_mensual (of_int 30) ;;
            truediv costo_total_barras ahorro_neto_diario)
      else Ok F64.inf) ;;
   Ok {| meses_para_recuperar := meses_para_recuperar;
         roi_days := roi_days |})%py.

(** ** The button handler *)

(** The values of the widgets when the button is pressed;
    [duration_days] is [(end_date - start_date).days + 1]. *)
Record Entradas : Type := {
  idle_time : string;
  moving_time : string;
  combustible_total : float;
  precio_litro : float;
  num_unidades : Z;
  costo_por_pieza : float;
  renta_mensual : float;
  porcentaje_reduccion : Z;
  porcentaje_ralenti_real : Z;
  duration_days : Z
}.

(** What a completed calculation stores in [st.session_state]. *)
Record SessionState : Type := {
  idle_minutes : Z;
  moving_minutes : Z;
  total_minutes : Z;
  mermas : Mermas float;
  retorno : Retorno;
  real_idle_percentage : Z;
  ralenti_real : RalentiReal float
}.

(** What lines 254 to 392 of the handler end in: one of the five
    [st.error] messages, a stored calculation, or an exception raised in
    those lines.  The tabs that the same run draws afterwards are not
    part of this outcome. *)
Inductive Salida : Type :=
  | ErrorFormatoRalenti
  | ErrorFormatoMovimiento
  | ErrorCombustible
  | ErrorPrecio
  | ErrorTiempoCero
  | Calculado (ss : SessionState)
  | Excepcion (e : exn).

Definition calculos (inp : Entradas) (idle_minutes moving_minutes : Z)
    : result SessionState :=
  (let total_minutes := (idle_minutes + moving_minutes)%Z in
   m <- calcular_mermas idle_minutes moving_minutes total_minutes
          (combustible_total inp) (precio_litro inp) (num_unidades inp)
          (costo_por_pieza inp) (renta_mensual inp)
          (porcentaje_reduccion inp) (porcentaje_ralenti_real inp)
          (duration_days inp) ;;
   r <- calcular_retorno (costo_total_barras m) (neto_mensual m) ;;
   let real_idle_percentage := porcentaje_ralenti_real inp in
   rr <- calcular_ralenti_real (ahorro_anual m) (costo_ralenti m)
           (renta_mensual inp) (num_unidades inp)
           real_idle_percentage (duration_days inp) ;;
   Ok {| idle_minutes := idle_minutes;
         moving_minutes := moving_minutes;
         total_minutes := total_minutes;
         mermas := m;
         retorno := r;
         real_idle_percentage := real_idle_percentage;
         ralenti_real := rr |})%py.

(** Both durations are parsed before any check, so an exception of
    either call escapes before an error can be reported. *)
Definition calcular (inp : Entradas) : Salida :=
  match parse_time_string (idle_time inp) with
  | Raise e => Excepcion e
  | Ok idle_minutes =>
  match parse_time_string (moving_time inp) with
  | Raise e => Excepcion e
  | Ok moving_minutes =>
  match idle_minutes, moving_minutes with
  | None, _ => ErrorFormatoRalenti
  | Some _, None => ErrorFormatoMovimiento
  | Some idle_minutes, Some moving_minutes =>
      if PrimFloat.leb (combustible_total inp) 0 then ErrorCombustible
      else if PrimFloat.leb (precio_litro inp) 0 then ErrorPrecio
      else
        let total_minutes := idle_minutes + moving_minutes in
        if total_minutes =? 0 then ErrorTiempoCero
        else
          match calculos inp idle_minutes moving_minutes with
          | Ok ss => Calculado ss
          | Raise e => Excepcion e
          end
  end
  end
  end.

(** ** The amortization loop *)

Record Fila : Type := {
  Mes : Z;
  Ahorro_Acumulado : float;
  Costo_Acumulado : float;
  Ganancia_Acumulada : float
}.

(** [range(a, b)] *)
Definition range (a b : Z) : list Z :=
  map (fun i => a + Z.of_nat i) (seq 0 (Z.to_nat (b - a))).

Section Evolucion.

Variables costo_inicial costo_mensual ahorro_mensual : float.
#[local] Open Scope py_scope.

(** The body of [for mes in ...], with [ahorro_acumulado] threaded
    through; each row holds the three amounts rounded to two
    decimals. *)
Fixpoint bucle (rango : list Z) (ahorro_acumulado : float) : list Fila :=
  match rango with
  | [] => []
  | mes :: resto =>
      let ahorro_acumulado := ahorro_acumulado + ahorro_mensual in
      let costo_acumulado := costo_inicial + costo_mensual * of_int mes in
      let ganancia_acumulada := ahorro_acumulado - costo_acumulado in
      {| Mes := mes;
         Ahorro_Acumulado := F64.round ahorro_acumulado 2;
         Costo_Acumulado := F64.round costo_acumulado 2;
         Ganancia_Acumulada := F64.round ganancia_acumulada 2 |}
      :: bucle resto ahorro_acumulado
  end.

Definition meses : Z := 60.

Definition df_evolucion : list Fila := bucle (range 1 (meses + 1)) 0%float.

(** [Series.min()]: absent on an empty selection. *)
Definition series_min (l : list Z) : option Z :=
  match l with
  | [] => None
  | x :: l' => Some (fold_left Z.min l' x)
  end.

(** [df[df['Ganancia Acumulada ($)'] >= 0]['Mes'].min()] *)
Definition roi_mes : option Z :=
  series_min (map Mes
         (filter (fun f => PrimFloat.leb 0 (Ganancia_Acumulada f))
                 df_evolucion)).

(** The loop's own variables in month [mes], before rounding. *)
Fixpoint ahorro_acumulado_en (n : nat) : float :=
  match n with
  | O => 0%float
  | S n' => ahorro_acumulado_en n' + ahorro_mensual
  end.

Definition costo_acumulado_en (mes : Z) : float :=
  costo_inicial + costo_mensual * of_int mes.

Definition ganancia_acumulada_en (mes : Z) : float :=
  ahorro_acumulado_en (Z.to_nat mes) - costo_acumulado_en mes.

(** The row of month [mes]: the three amounts rounded to two
    decimals. *)
Definition fila_en (mes : Z) : Fila :=
  {| Mes := mes;
     Ahorro_Acumulado := F64.round (ahorro_acumulado_en (Z.to_nat mes)) 2;
     Costo_Acumulado := F64.round (costo_acumulado_en mes) 2;
     Ganancia_Acumulada := F64.round (ganancia_acumulada_en mes) 2 |}.

(** The test of the selection on the row of month [mes]. *)
Definition ganancia_no_negativa (mes : Z) : bool :=
  PrimFloat.leb 0 (F64.round (ganancia_acumulada_en mes) 2).

End Evolucion.

(** The first character after a run, when there is one, is outside the
    class. *)
Definition stops (cls : ascii -> bool) (r : list ascii) : Prop :=
  match r with
  | [] => True
  | b :: _ => cls b = false
  end.

(** ** Sample inputs *)

(** A duration whose day count has one digit more than [int] converts:
    [(11...1D,0H,0M)] with 4301 ones. *)
Definition dias_largos : list ascii := repeat "1"%char 4301.

Definition duracion_larga : string :=
  string_of_list_ascii
    (duration_text dias_largos [] ["0"%char] [] ["0"%char]).

(** A malformed idle time, no fuel, and the long duration as moving
    time. *)
Definition entradas_largas : Entradas :=
  {| idle_time := "1D 22H 8M";
     moving_time := duracion_larga;
     combustible_total := 0;
     precio_litro := 25;
     num_unidades := 30;
     costo_por_pieza := 5000;
     renta_mensual := 999;
     porcentaje_reduccion := 20;
     porcentaje_ralenti_real := 100;
     duration_days := 1 |}.

(** Two zero durations, no fuel and no price. *)
Definition entradas_en_cero : Entradas :=
  {| idle_time := "(0D,0H,0M)";
     moving_time := "(0D, 0H, 0M)";
     combustible_total := 0;
     precio_litro := 0;
     num_unidades := 30;
     costo_por_pieza := 0;
     renta_mensual := 999;
     porcentaje_reduccion := 20;
     porcentaje_ralenti_real := 100;
     duration_days := 1 |}.


(** The two durations of the input placeholders with the default fuel,
    price, fleet size, rent and percentages, a purchase cost of 5000 per
    unit and a period of one day. *)
Definition entradas_ejemplo : Entradas :=
  {| idle_time := "(1D,22H,8M)";
     moving_time := "(1D,15H,32M)";
     combustible_total := 1419;
     precio_litro := 25;
     num_unidades := 30;
     costo_por_pieza := 5000;
     renta_mensual := 999;
     porcentaje_reduccion := 20;
     porcentaje_ralenti_real := 100;
     duration_days := 1 |}.

(** One minute idle and two minutes moving over a period of three days. *)
Definition entradas_tercios : Entradas :=
  {| idle_time := "(0D,0H,1M)";
     moving_time := "(0D,0H,2M)";
     combustible_total := 1419;
     precio_litro := 25;
     num_unidades := 30;
     costo_por_pieza := 5000;
     renta_mensual := 999;
     porcentaje_reduccion := 20;
     porcentaje_ralenti_real := 100;
     duration_days := 3 |}.

(** ** Vocabulary for binary64 rounding

    The layer below fixes the words used to reason about
    [binary_round_aux], the rounding routine behind the specification of
    every binary64 operation. *)

(** [a] rounded to a multiple of [h], ties to even. *)
Definition round_to_multiple (a h : Z) : Z := F64.round_half_even a h * h.

(** The number of binary digits of a mantissa. *)
Definition bit_length (p : positive) : Z := Zpos (digits2_pos p).

(** The position of a remainder [rem] in [0, den) with respect to
    [den / 2]. *)
Definition location_of (rem den : Z) : location :=
  if rem =? 0 then loc_Exact else loc_Inexact (2 * rem ?= den).

(** [mrs] is what is left of [m] after [k] right shifts: the quotient, and
    the round and sticky bits that locate the remainder. *)
Definition shifted (m k : Z) (mrs : shr_record) : Prop :=
  shr_m mrs = m / 2 ^ k
  /\ orb (shr_r mrs) (shr_s mrs) = negb (m mod 2 ^ k =? 0)
  /\ loc_of_shr_record mrs = location_of (m mod 2 ^ k) (2 ^ k).

(** The value [binary_round_aux] rounds [m * 2^e] to, in units of
    [2^c0]. *)
Definition rounded (prec emax : Z) (m : positive) (e c0 : Z) : Z :=
  let E := Z.max e (fexp prec emax (bit_length m + e)) in
  F64.round_half_even (Zpos m) (2 ^ (E - e)) * 2 ^ (E - c0).

(** The sign of a number, a NaN counting as non-negative. *)
Definition nonnegSF (x : spec_float) : bool :=
  match x with
  | S754_zero s | S754_infinity s | S754_finite s _ _ => negb s
  | S754_nan => true
  end.

Definition nonneg (x : float) : bool := nonnegSF (Prim2SF x).

(** The inputs with another value on the reduction slider. *)
Definition con_reduccion (inp : Entradas) (p : Z) : Entradas :=
  {| idle_time := idle_time inp;
     moving_time := moving_time inp;
     combustible_total := combustible_total inp;
     precio_litro := precio_litro inp;
     num_unidades := num_unidades inp;
     costo_por_pieza := costo_por_pieza inp;
     renta_mensual := renta_mensual inp;
     porcentaje_reduccion := p;
     porcentaje_ralenti_real := porcentaje_ralenti_real inp;
     duration_days := duration_days inp |}.

(** The quotients [p1 / 100] and [p2 / 100] are both defined and, when
    [p1 <= p2], in that order. *)
Definition cocientes_en_orden (p1 p2 : Z) : bool :=
  match F64.int_truediv p1 100, F64.int_truediv p2 100 with
  | Ok a, Ok b => implb (p1 <=? p2) (PrimFloat.leb a b)
  | _, _ => false
  end.

(** A fuel volume of the least positive binary64 number: the monthly net
    benefit is positive, and its thirtieth underflows to zero. *)
Definition entradas_minimas : Entradas :=
  {| idle_time := "(0D,0H,1M)";
     moving_time := "(0D,0H,0M)";
     combustible_total := 0x1p-1074;
     precio_litro := 1;
     num_unidades := 1;
     costo_por_pieza := 5000;
     renta_mensual := 0;
     porcentaje_reduccion := 10;
     porcentaje_ralenti_real := 100;
     duration_days := 1 |}.

(** ** Further vocabulary for the parser *)

(** The literal characters of the pattern: every duration holds each of
    them. *)
Definition pattern_literals : list ascii := ["("; "D"; ","; "H"; "M"; ")"]%char.

(** A duration starts at the head of the text. *)
Definition starts_with_duration (s : list ascii) : Prop :=
  exists d w1 h w2 m post,
    well_formed d w1 h w2 m /\ s = duration_text d w1 h w2 m ++ post.

(** No duration starts at a character of [pre], when [rest] follows
    it. *)
Definition none_starts_in (pre rest : list ascii) : Prop :=
  forall p1 p2,
    pre = p1 ++ p2 -> p2 <> [] -> ~ starts_with_duration (p2 ++ rest).

(** The non-empty ends of a text, the longest first. *)
Fixpoint tails (l : list ascii) : list (list ascii) :=
  match l with
  | [] => []
  | a :: l' => (a :: l') :: tails l'
  end.

(** ** Further vocabulary for binary64 rounding *)

(** The outcome of rounding a positive number of [mag] binary digits or
    more: a positive number of as many digits, with a mantissa of at most
    [2^prec], or infinity. *)
Definition at_least (prec mag : Z) (x : spec_float) : Prop :=
  match x with
  | S754_finite false m e => mag <= bit_length m + e /\ Zpos m <= 2 ^ prec
  | S754_infinity false => True
  | _ => False
  end.

(** ** The period of the data

    A [datetime.date] is modelled by its ordinal ([date.toordinal()]), so
    that [(end_date - start_date).days] is the difference of the two
    ordinals.  The result is [duration_days], or [None] when the script
    stops at the date check ([st.error] followed by [st.stop()]). *)
Definition duration_days_of (start_date end_date : Z) : option Z :=
  if start_date >? end_date then None
  else Some (end_date - start_date + 1).

(** ** The figures of a stored calculation *)

(** The shares, volumes, amounts and payback times a calculation stores:
    every figure but the two net benefits, which the rent can make
    negative. *)
Definition cifras (ss : SessionState) : list float :=
  let m := mermas ss in
  let r := retorno ss in
  let rr := ralenti_real ss in
  [idle_percentage m; moving_percentage m;
   combustible_ralenti m; combustible_movimiento m;
   costo_ralenti m; costo_movimiento m; costo_total m;
   merma_total m; merma_diaria m; merma_semanal m; merma_mensual m;
   merma_anual m;
   merma_total_unit m; merma_diaria_unit m; merma_semanal_unit m;
   merma_mensual_unit m; merma_anual_unit m;
   ahorro_anual m; costo_total_barras m; ahorro_mensual m;
   meses_para_recuperar r; roi_days r;
   costo_ralenti_real_unit rr; merma_diaria_real_unit rr;
   merma_semanal_real_unit rr; merma_mensual_real_unit rr;
   merma_anual_real_unit rr;
   costo_ralenti_real_fleet rr; merma_diaria_real_fleet rr;
   merma_semanal_real_fleet rr; merma_mensual_real_fleet rr;
   merma_anual_real_fleet rr].

(** ** Further sample inputs *)

(** The sample inputs for a fleet of one unit. *)
Definition entradas_una_unidad : Entradas :=
  {| idle_time := "(1D,22H,8M)";
     moving_time := "(1D,15H,32M)";
     combustible_total := 1419;
     precio_litro := 25;
     num_unidades := 1;
     costo_por_pieza := 5000;
     renta_mensual := 999;
     porcentaje_reduccion := 20;
     porcentaje_ralenti_real := 100;
     duration_days := 1 |}.

(** A zero of either sign, or a NaN. *)
Definition zero_or_nan (x : float) : bool :=
  match Prim2SF x with
  | S754_zero _ | S754_nan => true
  | _ => false
  end.

(** The figures that follow the idle share: the idle fuel and cost, the
    losses, the savings and the real idle figures. *)
Definition cifras_de_ralenti (ss : SessionState) : list float :=
  let m := mermas ss in
  let rr := ralenti_real ss in
  [idle_percentage m; combustible_ralenti m; costo_ralenti m;
   merma_total m; merma_diaria m; merma_semanal m; merma_mensual m;
   merma_anual m;
   merma_total_unit m; merma_diaria_unit m; merma_semanal_unit m;
   merma_mensual_unit m; merma_anual_unit m;
   ahorro_anual m; ahorro_mensual m;
   costo_ralenti_real_unit rr; merma_diaria_real_unit rr;
   merma_semanal_real_unit rr; merma_mensual_real_unit rr;
   merma_anual_real_unit rr;
   costo_ralenti_real_fleet rr; merma_diaria_real_fleet rr;
   merma_semanal_real_fleet rr; merma_mensual_real_fleet rr;
   merma_anual_real_fleet rr].

(** ** The payback as the tabs show it *)

(** Tab 5 computes the payback again from the session state: the stored
    times rounded to two decimals when the stored monthly net benefit is
    positive, [float('inf')] otherwise. *)
Definition retorno_tab5 (ss : SessionState) : Retorno :=
  if PrimFloat.ltb 0 (neto_mensual (mermas ss))
  then {| meses_para_recuperar :=
            F64.round (meses_para_recuperar (retorno ss)) 2;
          roi_days := F64.round (roi_days (retorno ss)) 2 |}
  else {| meses_para_recuperar := F64.inf; roi_days := F64.inf |}.

(** A payback cell of the comparison table: the number that
    [f"{x} meses"] formats, or the text "No es recuperable". *)
Inductive CeldaRetorno : Type :=
  | Tiempo (x : float)
  | NoEsRecuperable.

(** [f"{x} meses" if x != float('inf') else "No es recuperable"] *)
Definition celda_retorno (x : float) : CeldaRetorno :=
  if negb (PrimFloat.eqb x F64.inf) then Tiempo x else NoEsRecuperable.

(** The payback sentence of the benefits list of tab 1: the two stored
    times rounded to two decimals, or "No es recuperable con el ahorro
    actual." *)
Inductive Beneficio : Type :=
  | RecuperaEn (meses dias : float)
  | NoRecuperableConElAhorroActual.

Definition beneficio_retorno (r : Retorno) : Beneficio :=
  if negb (PrimFloat.eqb (meses_para_recuperar r) F64.inf)
  then RecuperaEn (F64.round (meses_para_recuperar r) 2)
                  (F64.round (roi_days r) 2)
  else NoRecuperableConElAhorroActual.

(** ** Table styles

    A row of a table ([pd.Series]) is modelled by the list of its cells,
    each under the label of its column; the labels of a row are
    distinct.  A cell holds a text or a number. *)

Inductive Celda : Type :=
  | Texto (s : string)
  | Numero (x : float).

(** [row[label]]; [None] is [KeyError]. *)
Fixpoint celda_de (label : string) (row : list (string * Celda))
    : option Celda :=
  match row with
  | [] => None
  | (l, c) :: row' => if String.eqb l label then Some c else celda_de label row'
  end.

(** ['Ralentí Real'], the [í] being the code point U+00ED. *)
Definition etiqueta_ralenti_real : string :=
  String.append "Ralent" (String (ascii_of_nat 237) " Real").

(** [cell == text] *)
Definition es_texto (c : Celda) (text : string) : bool :=
  match c with
  | Texto s => String.eqb s text
  | Numero _ => false
  end.

(** [[style] * len(row)] *)
Definition color_merma (row : list (string * Celda)) : option (list string) :=
  match celda_de "Concepto" row with
  | None => None
  | Some c =>
      if es_texto c etiqueta_ralenti_real
      then Some (repeat "background-color: #FFCCCC"%string (List.length row))
      else Some (repeat EmptyString (List.length row))
  end.

(** ** Further vocabulary for binary64 division *)

(** A quotient with the two bits its location stands for written below
    it: the number whose last two right shifts leave the quotient and
    that location. *)
Definition sticky (q : Z) (l : location) : Z :=
  4 * q + match l with
          | loc_Exact => 0
          | loc_Inexact Lt => 1
          | loc_Inexact Eq => 2
          | loc_Inexact Gt => 3
          end.
(** * Properties *)

(** ** The parser *)

Section Greedy.

Context {R : Type} (cls : ascii -> bool).

(** Whatever [greedy] returns comes from the continuation, on a run of
    the class. *)
Lemma greedy_sound (s : list ascii) :
  forall (k : list ascii -> list ascii -> option R) (v : R),
    greedy cls k s = Some v ->
    exists t r, s = t ++ r /\ forallb cls t = true /\ k t r = Some v.
Proof.
  induction s as [|a s IH]; intros k v Hg; simpl in Hg.
  - exists [], []. auto.
  - destruct (cls a) eqn:Ha.
    + destruct (greedy cls (fun t r => k (a :: t) r) s) as [v'|] eqn:Hin.
      * injection Hg as <-.
        apply IH in Hin as (t & r & -> & Ht & Hk).
        exists (a :: t), r. simpl. rewrite Ha, Ht. auto.
      * exists [], (a :: s). auto.
    + exists [], (a :: s). auto.
Qed.

(** Backtracking loses nothing: if the continuation accepts some run,
    [greedy] returns a result. *)
Lemma greedy_complete (t : list ascii) :
  forall (k : list ascii -> list ascii -> option R) (r : list ascii) (v : R),
    forallb cls t = true -> k t r = Some v ->
    exists v', greedy cls k (t ++ r) = Some v'.
Proof.
  induction t as [|a t IH]; intros k r v Ht Hk; simpl in *.
  - destruct r as [|b r]; simpl.
    + eauto.
    + destruct (cls b); [|eauto].
      destruct (greedy cls (fun t0 r0 => k (b :: t0) r0) r); eauto.
  - apply andb_true_iff in Ht as [Ha Ht]. rewrite Ha.
    destruct (IH (fun t0 r0 => k (a :: t0) r0) r v Ht Hk) as [v' ->].
    eauto.
Qed.

(** On a run that cannot be extended the longest attempt is the run
    itself, so its result is returned when the continuation accepts. *)
Lemma greedy_run (t : list ascii) :
  forall (k : list ascii -> list ascii -> option R) (r : list ascii) (v : R),
    forallb cls t = true ->
    match r with [] => True | b :: _ => cls b = false end ->
    k t r = Some v ->
    greedy cls k (t ++ r) = Some v.
Proof.
  induction t as [|a t IH]; intros k r v Ht Hr Hk; simpl in *.
  - destruct r as [|b r]; simpl; [assumption|]. now rewrite Hr.
  - apply andb_true_iff in Ht as [Ha Ht]. rewrite Ha.
    now rewrite (IH (fun t0 r0 => k (a :: t0) r0) r v Ht Hr Hk).
Qed.

End Greedy.

Lemma match_here_sound (p : list item) :
  forall s gs, match_here p s = Some gs ->
    exists w r, s = w ++ r /\ denotes p w gs.
Proof.
  induction p as [|[c| |] p IH]; intros s gs Hm; simpl in Hm.
  - injection Hm as <-. exists [], s. simpl. auto.
  - destruct s as [|a s]; [discriminate|].
    destruct (Ascii.eqb a c) eqn:Hac; [|discriminate].
    apply Ascii.eqb_eq in Hac as ->.
    apply IH in Hm as (w & r & -> & Hd).
    exists (c :: w), r. simpl. eauto.
  - apply greedy_sound in Hm as (t & r & -> & Ht & Hk).
    destruct t as [|a t]; [discriminate|].
    destruct (match_here p r) as [gs'|] eqn:Hr; [|discriminate].
    injection Hk as <-.
    apply IH in Hr as (w & r' & -> & Hd).
    exists ((a :: t) ++ w), r'. split; [now rewrite app_assoc|].
    simpl. exists (a :: t), w, gs'. repeat split; auto. discriminate.
  - apply greedy_sound in Hm as (t & r & -> & Ht & Hk).
    apply IH in Hk as (w & r' & -> & Hd).
    exists (t ++ w), r'. split; [now rewrite app_assoc|].
    simpl. eauto.
Qed.

Lemma match_here_complete (p : list item) :
  forall w gs r, denotes p w gs -> exists gs', match_here p (w ++ r) = Some gs'.
Proof.
  induction p as [|[c| |] p IH]; intros w gs r Hd; simpl in Hd.
  - simpl. eauto.
  - destruct Hd as (w' & -> & Hd). simpl. rewrite Ascii.eqb_refl. eauto.
  - destruct Hd as (t & w' & gs' & -> & Hne & Ht & -> & Hd).
    destruct (IH _ _ r Hd) as [gs'' Hm].
    simpl. rewrite <- app_assoc.
    eapply greedy_complete; [exact Ht|].
    destruct t; [contradiction|]. rewrite Hm. reflexivity.
  - destruct Hd as (t & w' & -> & Ht & Hd).
    destruct (IH _ _ r Hd) as [gs'' Hm].
    simpl. rewrite <- app_assoc.
    eapply greedy_complete; [exact Ht|exact Hm].
Qed.

Lemma search_sound (p : list item) (s : list ascii) :
  forall gs, search p s = Some gs ->
    exists pre w post, s = pre ++ w ++ post /\ denotes p w gs.
Proof.
  induction s as [|a s IH]; intros gs Hs; simpl in Hs.
  - destruct (match_here p []) as [gs'|] eqn:Hm; [|discriminate].
    injection Hs as <-.
    apply match_here_sound in Hm as (w & r & E & Hd).
    exists [], w, r. auto.
  - destruct (match_here p (a :: s)) as [gs'|] eqn:Hm.
    + injection Hs as <-.
      apply match_here_sound in Hm as (w & r & E & Hd).
      exists [], w, r. auto.
    + apply IH in Hs as (pre & w & post & -> & Hd).
      exists (a :: pre), w, post. auto.
Qed.

Lemma search_complete (p : list item) (pre : list ascii) :
  forall w gs post, denotes p w gs ->
    exists gs', search p (pre ++ w ++ post) = Some gs'.
Proof.
  induction pre as [|a pre IH]; intros w gs post Hd.
  - destruct (match_here_complete p w gs post Hd) as [gs' Hm].
    simpl. destruct (w ++ post); simpl; simpl in Hm; rewrite Hm; eauto.
  - simpl. destruct (match_here p (a :: pre ++ w ++ post)); eauto.
Qed.

Lemma digit_not_space (c : ascii) : is_digit c = true -> is_space c = false.
Proof.
  unfold is_digit, is_space. intros Hd.
  apply andb_true_iff in Hd as [H1 H2].
  apply N.leb_le in H1. apply N.leb_le in H2.
  repeat (apply orb_false_iff; split);
    try (apply andb_false_iff);
    try (right; apply N.leb_gt; lia);
    try (apply N.eqb_neq; lia).
Qed.

Lemma match_digits (p : list item) (t r : list ascii) gs :
  digits t -> stops is_digit r -> match_here p r = Some gs ->
  match_here (Digits :: p) (t ++ r) = Some (t :: gs).
Proof.
  intros [Hne Ht] Hr Hm. simpl.
  apply greedy_run; [assumption|assumption|].
  destruct t; [contradiction|]. now rewrite Hm.
Qed.

Lemma match_spaces (p : list item) (t r : list ascii) gs :
  spaces t -> stops is_space r -> match_here p r = Some gs ->
  match_here (Spaces :: p) (t ++ r) = Some gs.
Proof.
  intros Ht Hr Hm. simpl. now apply greedy_run.
Qed.

Lemma digits_stop_spaces (t r : list ascii) :
  digits t -> stops is_space (t ++ r).
Proof.
  intros [Hne Ht]. destruct t as [|a t]; [contradiction|].
  simpl in *. apply andb_true_iff in Ht as [Ha _].
  now apply digit_not_space.
Qed.

Lemma match_lit (p : list item) (c : ascii) (r : list ascii) gs :
  match_here p r = Some gs -> match_here (Lit c :: p) (c :: r) = Some gs.
Proof. intros Hm. simpl. now rewrite Ascii.eqb_refl. Qed.

Lemma match_here_duration (d w1 h w2 m post : list ascii) :
  well_formed d w1 h w2 m ->
  match_here pattern (duration_text d w1 h w2 m ++ post) = Some [d; h; m].
Proof.
  intros (Hd & Hw1 & Hh & Hw2 & Hm).
  unfold pattern, duration_text.
  cbn [app]. apply match_lit.
  rewrite <- app_assoc. apply match_digits; [assumption|reflexivity|].
  cbn [app]. do 2 apply match_lit.
  rewrite <- app_assoc. apply match_spaces; [assumption| |].
  { rewrite <- app_assoc. now apply digits_stop_spaces. }
  rewrite <- app_assoc. apply match_digits; [assumption|reflexivity|].
  cbn [app]. do 2 apply match_lit.
  rewrite <- app_assoc. apply match_spaces; [assumption| |].
  { rewrite <- app_assoc. now apply digits_stop_spaces. }
  rewrite <- app_assoc. apply match_digits; [assumption|reflexivity|].
  cbn [app]. do 2 apply match_lit. reflexivity.
Qed.

Lemma denotes_pattern (w : list ascii) (gs : list (list ascii)) :
  denotes pattern w gs <->
  exists d w1 h w2 m,
    well_formed d w1 h w2 m /\ w = duration_text d w1 h w2 m /\ gs = [d; h; m].
Proof.
  unfold pattern, duration_text, well_formed, digits, spaces. simpl. split.
  - intros (x1 & -> & d & x2 & g1 & -> & Hd & Hd' & -> &
            x3 & -> & x4 & -> & w1 & x5 & -> & Hw1 &
            h & x6 & g2 & -> & Hh & Hh' & -> &
            x7 & -> & x8 & -> & w2 & x9 & -> & Hw2 &
            m & x10 & g3 & -> & Hm & Hm' & -> &
            x11 & -> & x12 & -> & -> & ->).
    exists d, w1, h, w2, m. repeat split; auto.
  - intros (d & w1 & h & w2 & m & ((Hd & Hd') & Hw1 & (Hh & Hh') & Hw2 & Hm & Hm')
            & -> & ->).
    eexists; split; [reflexivity|].
    exists d; do 2 eexists; repeat (split; [eauto; fail|]).
    eexists; split; [reflexivity|]. eexists; split; [reflexivity|].
    exists w1; eexists; repeat (split; [eauto; fail|]).
    exists h; do 2 eexists.
    split; [reflexivity|].
    repeat (split; [eauto; fail|]).
    eexists; split; [reflexivity|]. eexists; split; [reflexivity|].
    exists w2; eexists; repeat (split; [eauto; fail|]).
    exists m; do 2 eexists.
    split; [reflexivity|].
    repeat (split; [eauto; fail|]).
    eexists; split; [reflexivity|]. eexists; split; [reflexivity|]. auto.
Qed.

Lemma search_pattern_groups (s : list ascii) gs :
  search pattern s = Some gs -> exists d h m, gs = [d; h; m].
Proof.
  intros Hs. apply search_sound in Hs as (pre & w & post & _ & Hd).
  apply denotes_pattern in Hd as (d & _ & h & _ & m & _ & _ & ->). eauto.
Qed.

(** [int] converts a run within the limit and refuses any other. *)
Lemma int_within (t : list ascii) :
  int t = if within_limit t then Ok (decimal_value t) else Raise ValueError.
Proof.
  unfold int, within_limit. rewrite Z.ltb_antisym.
  destruct (Z.of_nat (List.length t) <=? int_max_str_digits); reflexivity.
Qed.

(** What the parser makes of the three groups of the match. *)
Lemma parse_time_string_groups (time_str : string) (d h m : list ascii) :
  search pattern (list_ascii_of_string time_str) = Some [d; h; m] ->
  parse_time_string time_str
  = if within_limit d && within_limit h && within_limit m
    then Ok (Some (decimal_value d * 24 * 60 + decimal_value h * 60
                   + decimal_value m))
    else Raise ValueError.
Proof.
  intros Hs. unfold parse_time_string. rewrite Hs, !int_within.
  destruct (within_limit d), (within_limit h), (within_limit m); reflexivity.
Qed.

(** A match is a duration of the string, and its groups are the three
    components. *)
Lemma search_pattern_duration (time_str : string) (gs : list (list ascii)) :
  search pattern (list_ascii_of_string time_str) = Some gs ->
  exists pre d w1 h w2 m post,
    well_formed d w1 h w2 m
    /\ list_ascii_of_string time_str = pre ++ duration_text d w1 h w2 m ++ post
    /\ gs = [d; h; m].
Proof.
  intros Hs. apply search_sound in Hs as (pre & w & post & E & Hd).
  apply denotes_pattern in Hd as (d & w1 & h & w2 & m & Hwf & -> & ->).
  exists pre, d, w1, h, w2, m, post. auto.
Qed.

(** The parser answers [None] exactly on the strings that hold no
    duration. *)
Lemma parse_time_string_None_iff (time_str : string) :
  parse_time_string time_str = Ok None <-> ~ has_duration time_str.
Proof.
  split.
  - intros Hp (pre & d & w1 & h & w2 & m & post & Hwf & E).
    destruct (search_complete pattern pre (duration_text d w1 h w2 m)
                [d; h; m] post) as [gs Hs].
    { apply denotes_pattern. exists d, w1, h, w2, m. auto. }
    rewrite <- E in Hs.
    destruct (search_pattern_groups _ _ Hs) as (d' & h' & m' & ->).
    rewrite (parse_time_string_groups _ _ _ _ Hs) in Hp.
    destruct (within_limit d' && within_limit h' && within_limit m');
      discriminate.
  - intros Hn. unfold parse_time_string.
    destruct (search pattern (list_ascii_of_string time_str)) as [gs|] eqn:Hs;
      [|reflexivity].
    exfalso. apply Hn.
    apply search_pattern_duration in Hs
      as (pre & d & w1 & h & w2 & m & post & Hwf & E & _).
    exists pre, d, w1, h, w2, m, post. auto.
Qed.



Lemma search_duration (d w1 h w2 m post : list ascii) :
  well_formed d w1 h w2 m ->
  search pattern (duration_text d w1 h w2 m ++ post) = Some [d; h; m].
Proof.
  intros Hwf. pose proof (match_here_duration d w1 h w2 m post Hwf) as Hm.
  destruct (duration_text d w1 h w2 m ++ post); cbn [search]; now rewrite Hm.
Qed.




(** ** The validation chain *)

(** The order as the specification words it, the idle format first
    whatever else fails: with a malformed idle time, no fuel and a moving
    duration of 4301 digits, no error is reported; the second call of the
    parser raises [ValueError] before the first check. *)
Lemma calcular_error_order_as_stated_fails :
  parse_time_string (idle_time entradas_largas) = Ok None
  /\ PrimFloat.leb (combustible_total entradas_largas) 0 = true
  /\ calcular entradas_largas = Excepcion ValueError
  /\ calcular entradas_largas <> ErrorFormatoRalenti.
Proof.
  assert (E : calcular entradas_largas = Excepcion ValueError)
    by (vm_compute; reflexivity).
  split; [vm_compute; reflexivity|].
  split; [vm_compute; reflexivity|].
  split; [exact E|]. rewrite E. discriminate.
Qed.

(** C9, as the code has it.  Both durations are parsed before any check.
    When both calls return, the handler reports one error, chosen in a
    fixed order: the format of the idle time, then the format of the
    moving time, then a non-positive fuel volume, then a non-positive
    price, and the zero total time last; so when both times parse to a
    total of zero minutes and the fuel is non-positive, the fuel error is
    the one reported.  When one of the two calls raises, its exception
    escapes and no error is reported. *)
Theorem calcular_error_order (inp : Entradas) :
  (forall moving,
      parse_time_string (idle_time inp) = Ok None ->
      parse_time_string (moving_time inp) = Ok moving ->
      calcular inp = ErrorFormatoRalenti)
  /\
  (forall idle,
      parse_time_string (idle_time inp) = Ok (Some idle) ->
      parse_time_string (moving_time inp) = Ok None ->
      calcular inp = ErrorFormatoMovimiento)
  /\
  (forall idle moving,
      parse_time_string (idle_time inp) = Ok (Some idle) ->
      parse_time_string (moving_time inp) = Ok (Some moving) ->
      PrimFloat.leb (combustible_total inp) 0 = true ->
      calcular inp = ErrorCombustible)
  /\
  (forall idle moving,
      parse_time_string (idle_time inp) = Ok (Some idle) ->
      parse_time_string (moving_time inp) = Ok (Some moving) ->
      PrimFloat.leb (combustible_total inp) 0 = false ->
      PrimFloat.leb (precio_litro inp) 0 = true ->
      calcular inp = ErrorPrecio)
  /\
  (forall idle moving,
      parse_time_string (idle_time inp) = Ok (Some idle) ->
      parse_time_string (moving_time inp) = Ok (Some moving) ->
      PrimFloat.leb (combustible_total inp) 0 = false ->
      PrimFloat.leb (precio_litro inp) 0 = false ->
      idle + moving = 0 ->
      calcular inp = ErrorTiempoCero)
  /\
  (forall idle moving,
      parse_time_string (idle_time inp) = Ok (Some idle) ->
      parse_time_string (moving_time inp) = Ok (Some moving) ->
      idle + moving = 0 ->
      PrimFloat.leb (combustible_total inp) 0 = true ->
      calcular inp = ErrorCombustible /\ calcular inp <> ErrorTiempoCero)
  /\
  (forall e,
      parse_time_string (idle_time inp) = Raise e ->
      calcular inp = Excepcion e)
  /\
  (forall idle e,
      parse_time_string (idle_time inp) = Ok idle ->
      parse_time_string (moving_time inp) = Raise e ->
      calcular inp = Excepcion e).
Proof.
  unfold calcular.
  destruct (parse_time_string (idle_time inp)) as [[i|]|ei];
    destruct (parse_time_string (moving_time inp)) as [[m|]|em];
    repeat split; try congruence; intros;
    repeat match goal with
           | H : Ok _ = Ok _ |- _ => injection H as H; subst
           | H : Some _ = Some _ |- _ => injection H as <-
           | H : Raise _ = Raise _ |- _ => injection H as <-
           | H : PrimFloat.leb _ _ = _ |- _ => rewrite H
           | H : (_ + _)%Z = 0 |- _ => rewrite H
           end;
    try reflexivity; try discriminate.
Qed.

(** Two zero durations with no fuel: the fuel error is the one reported. *)
Lemma calcular_error_order_witness :
  calcular entradas_en_cero = ErrorCombustible
  /\ calcular entradas_en_cero <> ErrorTiempoCero.
Proof.
  apply (proj1 (proj2 (proj2 (proj2 (proj2 (proj2
           (calcular_error_order entradas_en_cero)))))) 0 0);
    reflexivity.
Defined.

(** ** The error monad and binary64 comparisons *)

Lemma bind_Ok {A B : Type} (c : result A) (k : A -> result B) (v : B) :
  bind c k = Ok v -> exists a, c = Ok a /\ k a = Ok v.
Proof. destruct c as [a|e]; simpl; [eauto|discriminate]. Qed.

(** Peel the successful steps of a chain of binds in [H]. *)
Ltac inv_bind H :=
  repeat (cbv beta zeta in H;
          let a := fresh "v" in
          let E := fresh "E" in
          apply bind_Ok in H as (a & E & H)).

Lemma F64_truediv_Ok (x y q : float) :
  F64.truediv x y = Ok q ->
  PrimFloat.eqb y 0 = false /\ q = PrimFloat.div x y.
Proof.
  unfold F64.truediv. destruct (PrimFloat.eqb y 0); [discriminate|].
  intros [= <-]. auto.
Qed.

Lemma leb_0_ltb (x : float) :
  PrimFloat.leb x 0 = true -> PrimFloat.ltb 0 x = false.
Proof.
  rewrite leb_spec, ltb_spec.
  change (Prim2SF 0) with (S754_zero false).
  destruct (Prim2SF x) as [[|]|[|]| |[|] m e]; cbv; congruence.
Qed.

Lemma calcular_Calculado (inp : Entradas) (ss : SessionState) :
  calcular inp = Calculado ss ->
  exists idle moving,
    parse_time_string (idle_time inp) = Ok (Some idle) /\
    parse_time_string (moving_time inp) = Ok (Some moving) /\
    PrimFloat.leb (combustible_total inp) 0 = false /\
    PrimFloat.leb (precio_litro inp) 0 = false /\
    idle + moving <> 0 /\
    calculos inp idle moving = Ok ss.
Proof.
  unfold calcular.
  destruct (parse_time_string (idle_time inp)) as [[i|]|ei];
    [| |discriminate].
  2: destruct (parse_time_string (moving_time inp)) as [[m|]|em];
    discriminate.
  destruct (parse_time_string (moving_time inp)) as [[m|]|em];
    [|discriminate|discriminate].
  destruct (PrimFloat.leb (combustible_total inp) 0); [discriminate|].
  destruct (PrimFloat.leb (precio_litro inp) 0); [discriminate|].
  destruct (i + m =? 0) eqn:Ht; [discriminate|].
  destruct (calculos inp i m) as [ss'|e] eqn:Hc; [|discriminate].
  intros [= <-]. exists i, m. apply Z.eqb_neq in Ht.
  repeat (split; [solve [auto]|]). assumption.
Qed.

Lemma calculos_Ok (inp : Entradas) (idle moving : Z) (ss : SessionState) :
  calculos inp idle moving = Ok ss ->
  calcular_mermas idle moving (idle + moving)
    (combustible_total inp) (precio_litro inp) (num_unidades inp)
    (costo_por_pieza inp) (renta_mensual inp)
    (porcentaje_reduccion inp) (porcentaje_ralenti_real inp)
    (duration_days inp) = Ok (mermas ss)
  /\ calcular_retorno (costo_total_barras (mermas ss))
       (neto_mensual (mermas ss)) = Ok (retorno ss)
  /\ calcular_ralenti_real (ahorro_anual (mermas ss))
       (costo_ralenti (mermas ss)) (renta_mensual inp) (num_unidades inp)
       (porcentaje_ralenti_real inp) (duration_days inp)
     = Ok (ralenti_real ss)
  /\ idle_minutes ss = idle /\ moving_minutes ss = moving
  /\ total_minutes ss = idle + moving.
Proof.
  unfold calculos. intros Hc. inv_bind Hc.
  injection Hc as <-. simpl.
  repeat (split; [solve [auto]|]). reflexivity.
Qed.

(** ** The calculation block, step by step

    What a successful run of each block says about its result, over any
    carrier: one equation per assignment of the program. *)

Section Pasos.

Context {T : Type} `{PyNum T}.
#[local] Open Scope py_scope.

Lemma calcular_mermas_Ok
    (idle_minutes moving_minutes total_minutes : Z)
    (combustible_total precio_litro : T) (num_unidades : Z)
    (costo_por_pieza renta_mensual : T)
    (porcentaje_reduccion porcentaje_ralenti_real duration_days : Z)
    (m : Mermas T) :
  calcular_mermas idle_minutes moving_minutes total_minutes
    combustible_total precio_litro num_unidades costo_por_pieza
    renta_mensual porcentaje_reduccion porcentaje_ralenti_real
    duration_days = Ok m ->
  exists q_idle q_moving f_idle f_moving r_reduccion r_real,
    int_truediv idle_minutes total_minutes = Ok q_idle
    /\ idle_percentage m = q_idle * of_int 100
    /\ int_truediv moving_minutes total_minutes = Ok q_moving
    /\ moving_percentage m = q_moving * of_int 100
    /\ truediv (idle_percentage m) (of_int 100) = Ok f_idle
    /\ combustible_ralenti m = f_idle * combustible_total
    /\ truediv (moving_percentage m) (of_int 100) = Ok f_moving
    /\ combustible_movimiento m = f_moving * combustible_total
    /\ costo_ralenti m = combustible_ralenti m * precio_litro
    /\ costo_movimiento m = combustible_movimiento m * precio_litro
    /\ costo_total m = combustible_total * precio_litro
    /\ merma_total m = costo_ralenti m * of_int num_unidades
    /\ truediv (merma_total m) (of_int duration_days) = Ok (merma_diaria m)
    /\ merma_semanal m = merma_diaria m * of_int 7
    /\ merma_mensual m = merma_diaria m * of_int 30
    /\ merma_anual m = merma_diaria m * of_int 365
    /\ merma_total_unit m = costo_ralenti m
    /\ truediv (merma_total_unit m) (of_int duration_days)
       = Ok (merma_diaria_unit m)
    /\ merma_semanal_unit m = merma_diaria_unit m * of_int 7
    /\ merma_mensual_unit m = merma_diaria_unit m * of_int 30
    /\ merma_anual_unit m = merma_diaria_unit m * of_int 365
    /\ int_truediv porcentaje_reduccion 100 = Ok r_reduccion
    /\ int_truediv porcentaje_ralenti_real 100 = Ok r_real
    /\ ahorro_anual m = merma_anual m * r_reduccion * r_real
    /\ costo_total_barras m = costo_por_pieza * of_int num_unidades
    /\ truediv (ahorro_anual m) (of_int 12) = Ok (ahorro_mensual m)
    /\ neto_mensual m
       = ahorro_mensual m - renta_mensual * of_int num_unidades.
Proof.
  unfold calcular_mermas. intros Hc. inv_bind Hc.
  injection Hc as <-. cbn.
  do 6 eexists. repeat (split; [eassumption || reflexivity|]).
  reflexivity.
Qed.

Lemma calcular_ralenti_real_Ok
    (ahorro_anual costo_ralenti renta_mensual : T) (num_unidades : Z)
    (real_idle_percentage duration_days : Z) (rr : RalentiReal T) :
  calcular_ralenti_real ahorro_anual costo_ralenti renta_mensual
    num_unidades real_idle_percentage duration_days = Ok rr ->
  exists r_real,
    neto_anual rr
    = ahorro_anual - renta_mensual * of_int 12 * of_int num_unidades
    /\ int_truediv real_idle_percentage 100 = Ok r_real
    /\ costo_ralenti_real_unit rr = costo_ralenti * r_real
    /\ truediv (costo_ralenti_real_unit rr) (of_int duration_days)
       = Ok (merma_diaria_real_unit rr)
    /\ merma_semanal_real_unit rr = merma_diaria_real_unit rr * of_int 7
    /\ merma_mensual_real_unit rr = merma_diaria_real_unit rr * of_int 30
    /\ merma_anual_real_unit rr = merma_diaria_real_unit rr * of_int 365
    /\ costo_ralenti_real_fleet rr
       = costo_ralenti_real_unit rr * of_int num_unidades
    /\ truediv (costo_ralenti_real_fleet rr) (of_int duration_days)
       = Ok (merma_diaria_real_fleet rr)
    /\ merma_semanal_real_fleet rr = merma_diaria_real_fleet rr * of_int 7
    /\ merma_mensual_real_fleet rr = merma_diaria_real_fleet rr * of_int 30
    /\ merma_anual_real_fleet rr = merma_diaria_real_fleet rr * of_int 365.
Proof.
  unfold calcular_ralenti_real. intros Hc. inv_bind Hc.
  injection Hc as <-. cbn.
  eexists. repeat (split; [eassumption || reflexivity|]).
  reflexivity.
Qed.

End Pasos.

(** ** Payback *)

(** C5. In every stored calculation: when the monthly net benefit is
    positive, [meses_para_recuperar] is the purchase cost divided by it and
    [roi_days] is the purchase cost divided by a thirtieth of it; when it
    is zero or negative both are [float('inf')], which is not a finite
    number.  And the payback step does store that: whatever the purchase
    cost, a monthly net benefit that is not positive makes the step
    return [float('inf')] twice, and raise nothing. *)
Theorem payback_spec :
  (forall (inp : Entradas) (ss : SessionState),
      calcular inp = Calculado ss ->
      let costo := costo_total_barras (mermas ss) in
      let neto := neto_mensual (mermas ss) in
      (PrimFloat.ltb 0 neto = true ->
       meses_para_recuperar (retorno ss) = PrimFloat.div costo neto /\
       roi_days (retorno ss) = PrimFloat.div costo (PrimFloat.div neto 30))
      /\
      (PrimFloat.leb neto 0 = true ->
       meses_para_recuperar (retorno ss) = F64.inf /\
       roi_days (retorno ss) = F64.inf /\
       F64.is_finite (meses_para_recuperar (retorno ss)) = false /\
       F64.is_finite (roi_days (retorno ss)) = false))
  /\
  (forall costo neto : float,
      PrimFloat.ltb 0 neto = false ->
      calcular_retorno costo neto
      = Ok {| meses_para_recuperar := F64.inf; roi_days := F64.inf |}).
Proof.
  split.
  - intros inp ss Hc costo neto.
    apply calcular_Calculado in Hc as (i & m & _ & _ & _ & _ & _ & Hc).
    apply calculos_Ok in Hc as (_ & Hr & _).
    fold costo neto in Hr. unfold calcular_retorno in Hr.
    split.
    + intros Hpos. rewrite Hpos in Hr.
      change (@truediv float PyNum_float) with F64.truediv in Hr.
      inv_bind Hr. injection Hr as <-. simpl.
      repeat match goal with
             | H : bind _ _ = Ok _ |- _ => inv_bind H
             | H : F64.truediv _ _ = Ok _ |- _ =>
                 apply F64_truediv_Ok in H as [_ ->]
             end.
      split; reflexivity.
    + intros Hneg. rewrite (leb_0_ltb _ Hneg) in Hr. simpl in Hr.
      injection Hr as <-. simpl. repeat split; reflexivity.
  - intros costo neto Hneg. unfold calcular_retorno. rewrite Hneg.
    reflexivity.
Qed.

(** The sample inputs give a positive monthly net benefit; with the
    reduction slider at zero they give a negative one, and the
    calculation is stored with [float('inf')] as payback. *)
Lemma payback_spec_witness :
  (exists ss,
      calcular entradas_ejemplo = Calculado ss /\
      PrimFloat.ltb 0 (neto_mensual (mermas ss)) = true /\
      meses_para_recuperar (retorno ss)
      = PrimFloat.div (costo_total_barras (mermas ss))
                      (neto_mensual (mermas ss)))
  /\
  (exists ss,
      calcular (con_reduccion entradas_ejemplo 0) = Calculado ss /\
      PrimFloat.leb (neto_mensual (mermas ss)) 0 = true /\
      meses_para_recuperar (retorno ss) = F64.inf /\
      roi_days (retorno ss) = F64.inf)
  /\
  calcular_retorno 150000 (-29970)
  = Ok {| meses_para_recuperar := F64.inf; roi_days := F64.inf |}.
Proof.
  split; [|split].
  - eexists. split; [vm_compute; reflexivity|].
    split; [vm_compute; reflexivity|].
    refine (proj1 (proj1 (proj1 payback_spec entradas_ejemplo _ _) _));
      vm_compute; reflexivity.
  - eexists. split; [vm_compute; reflexivity|].
    split; [vm_compute; reflexivity|].
    refine ((fun H => conj (proj1 H) (proj1 (proj2 H)))
              (proj2 (proj1 payback_spec (con_reduccion entradas_ejemplo 0)
                        _ _) _));
      vm_compute; reflexivity.
  - apply (proj2 payback_spec 150000%float (-29970)%float).
    vm_compute. reflexivity.
Defined.

(** Not every run stores a result: [neto_mensual / 30] can underflow to
    zero while [neto_mensual] is positive, and the division by it then
    raises. *)
Example payback_underflow :
  calcular entradas_minimas = Excepcion ZeroDivisionError.
Proof. vm_compute. reflexivity. Qed.

(** ** The sample scenario *)

(** The scenario as the specification words it: the moving time is not
    2252 minutes, the total is not 5020, and none of the three rounded
    figures is the one given. *)
Lemma scenario_as_stated_fails :
  parse_time_string "(1D,15H,32M)" <> Ok (Some 2252)
  /\ exists ss,
       calcular entradas_ejemplo = Calculado ss
       /\ total_minutes ss <> 5020
       /\ F64.round (idle_percentage (mermas ss)) 2 <> 55.14%float
       /\ F64.round (combustible_ralenti (mermas ss)) 2 <> 782.45%float
       /\ F64.round (costo_ralenti (mermas ss)) 2 <> 19561.27%float.
Proof.
  split; [vm_compute; discriminate|].
  eexists. split; [vm_compute; reflexivity|].
  repeat split; vm_compute; intros E;
    try discriminate;
    apply (f_equal Prim2SF) in E; vm_compute in E; discriminate.
Qed.

(** C3, as the code has it.  With the idle time [(1D,22H,8M)], the moving
    time [(1D,15H,32M)], 1419 L of fuel and a price of 25, whatever the
    other inputs: the parser returns 2768 and 2372 minutes, the total is
    5140 minutes, and, rounded to two decimals as the tables show them,
    the idle share is 53.85 %, the idle fuel 764.16 L and the idle cost
    19104.05. *)
Theorem scenario_spec (inp : Entradas) (ss : SessionState) :
  idle_time inp = "(1D,22H,8M)"%string ->
  moving_time inp = "(1D,15H,32M)"%string ->
  combustible_total inp = 1419%float ->
  precio_litro inp = 25%float ->
  calcular inp = Calculado ss ->
  parse_time_string (idle_time inp) = Ok (Some 2768)
  /\ parse_time_string (moving_time inp) = Ok (Some 2372)
  /\ total_minutes ss = 5140
  /\ F64.round (idle_percentage (mermas ss)) 2 = 53.85%float
  /\ F64.round (combustible_ralenti (mermas ss)) 2 = 764.16%float
  /\ F64.round (costo_ralenti (mermas ss)) 2 = 19104.05%float.
Proof.
  intros Hi Hm Hf Hp Hc.
  apply calcular_Calculado in Hc as (i & m & Pi & Pm & _ & _ & _ & Hc).
  rewrite Hi in *. rewrite Hm in *.
  vm_compute in Pi. vm_compute in Pm.
  injection Pi as <-. injection Pm as <-.
  apply calculos_Ok in Hc as (Hc & _ & _ & _ & _ & Ht).
  rewrite Hf, Hp in Hc.
  unfold calcular_mermas in Hc. inv_bind Hc.
  vm_compute in E. injection E as <-.
  vm_compute in E0. injection E0 as <-.
  vm_compute in E1. injection E1 as <-.
  vm_compute in E2. injection E2 as <-.
  injection Hc as Hc. rewrite <- Hc, Ht.
  cbn [idle_percentage combustible_ralenti costo_ralenti].
  repeat split; vm_compute; reflexivity.
Qed.

(** The sample inputs are an instance of the scenario. *)
Lemma scenario_spec_witness :
  exists ss,
    calcular entradas_ejemplo = Calculado ss
    /\ total_minutes ss = 5140
    /\ F64.round (costo_ralenti (mermas ss)) 2 = 19104.05%float.
Proof.
  eexists. split; [vm_compute; reflexivity|].
  refine ((fun H => conj (proj1 (proj2 (proj2 H)))
                         (proj2 (proj2 (proj2 (proj2 (proj2 H))))))
            (scenario_spec entradas_ejemplo _ _ _ _ _ _));
    vm_compute; reflexivity.
Defined.

(** ** The amortization loop *)

Lemma range_cons (a : Z) (n : nat) (k : nat) :
  map (fun i => a + Z.of_nat i) (seq k (S n))
  = (a + Z.of_nat k) :: map (fun i => a + Z.of_nat i) (seq (S k) n).
Proof. reflexivity. Qed.

Lemma in_range (a b m : Z) : In m (range a b) <-> a <= m < b.
Proof.
  unfold range. rewrite in_map_iff. split.
  - intros (i & <- & Hi). apply in_seq in Hi. lia.
  - intros Hm. exists (Z.to_nat (m - a)). split; [lia|].
    apply in_seq. lia.
Qed.

(** The first element of a range that passes a test. *)
Lemma find_seq_Some (p : Z -> bool) (a m : Z) (n : nat) :
  forall k,
    find p (map (fun i => a + Z.of_nat i) (seq k n)) = Some m <->
    (a + Z.of_nat k <= m < a + Z.of_nat k + Z.of_nat n /\ p m = true /\
     forall m', a + Z.of_nat k <= m' < m -> p m' = false).
Proof.
  induction n as [|n IH]; intros k.
  - simpl. split; [discriminate|lia].
  - rewrite range_cons. cbn [find].
    destruct (p (a + Z.of_nat k)) eqn:Hp.
    + split.
      * intros [= <-]. repeat split; try lia. assumption.
      * intros (Hm & Hpm & Hlt).
        destruct (Z.eq_dec m (a + Z.of_nat k)) as [->|Hne]; [reflexivity|].
        rewrite (Hlt (a + Z.of_nat k)) in Hp by lia. discriminate.
    + rewrite IH. split.
      * intros (Hm & Hpm & Hlt). repeat split; try lia; [assumption|].
        intros m' Hm'.
        destruct (Z.eq_dec m' (a + Z.of_nat k)) as [->|Hne];
          [assumption|apply Hlt; lia].
      * intros (Hm & Hpm & Hlt).
        assert (m <> a + Z.of_nat k) by congruence.
        repeat split; try lia; [assumption|].
        intros m' Hm'. apply Hlt. lia.
Qed.

Lemma find_range_Some (p : Z -> bool) (a b m : Z) :
  a <= b ->
  find p (range a b) = Some m <->
  a <= m < b /\ p m = true /\ forall m', a <= m' < m -> p m' = false.
Proof.
  intros Hab. unfold range. rewrite find_seq_Some.
  rewrite Z2Nat.id by lia. simpl Z.of_nat.
  replace (a + 0) with a by lia. replace (a + (b - a)) with b by lia.
  reflexivity.
Qed.

Lemma find_range_None (p : Z -> bool) (a b : Z) :
  find p (range a b) = None <-> forall m, a <= m < b -> p m = false.
Proof.
  split.
  - intros Hf m Hm. apply (find_none _ _ Hf). now apply in_range.
  - intros Hall. destruct (find p (range a b)) as [m|] eqn:Hf; [|reflexivity].
    apply find_some in Hf as [Hin Hp]. apply in_range in Hin.
    rewrite (Hall m Hin) in Hp. discriminate.
Qed.

(** On an increasing list, the least selected element is the first one
    selected. *)
Lemma fold_min_head (l : list Z) (x : Z) :
  Forall (fun y => x <= y) l -> fold_left Z.min l x = x.
Proof.
  induction l as [|y l IH]; intros Hall; [reflexivity|].
  inversion Hall as [|? ? Hy Hl]; subst. simpl.
  rewrite Z.min_l by assumption. now apply IH.
Qed.

Lemma series_min_filter_seq (p : Z -> bool) (a : Z) (n : nat) :
  forall k,
    series_min (filter p (map (fun i => a + Z.of_nat i) (seq k n)))
    = find p (map (fun i => a + Z.of_nat i) (seq k n)).
Proof.
  induction n as [|n IH]; intros k; [reflexivity|].
  rewrite range_cons. cbn [filter find].
  destruct (p (a + Z.of_nat k)); [|apply IH].
  unfold series_min. f_equal. apply fold_min_head.
  apply Forall_forall. intros y Hy.
  apply filter_In in Hy as [Hy _].
  apply in_map_iff in Hy as (i & <- & Hi). apply in_seq in Hi. lia.
Qed.

Section EvolucionProps.

Variables costo_inicial costo_mensual ahorro_mensual : float.

(** The loop invariant: entering month [k + 1], the accumulator holds
    the running sum of [k] monthly savings, and the rows produced from
    there on are the rows of the months. *)
Lemma bucle_rows (n : nat) :
  forall k,
    bucle costo_inicial costo_mensual ahorro_mensual
      (map (fun i => 1 + Z.of_nat i) (seq k n))
      (ahorro_acumulado_en ahorro_mensual k)
    = map (fila_en costo_inicial costo_mensual ahorro_mensual)
        (map (fun i => 1 + Z.of_nat i) (seq k n)).
Proof.
  induction n as [|n IH]; intros k; [reflexivity|].
  rewrite range_cons. cbn [bucle map].
  assert (Hk : Z.to_nat (1 + Z.of_nat k) = S k) by lia.
  f_equal.
  - unfold fila_en, ganancia_acumulada_en, costo_acumulado_en.
    rewrite Hk. reflexivity.
  - apply (IH (S k)).
Qed.

Lemma df_evolucion_rows :
  df_evolucion costo_inicial costo_mensual ahorro_mensual
  = map (fila_en costo_inicial costo_mensual ahorro_mensual)
      (range 1 (meses + 1)).
Proof. unfold df_evolucion, range. apply (bucle_rows _ 0%nat). Qed.

Lemma roi_mes_find :
  roi_mes costo_inicial costo_mensual ahorro_mensual
  = find (ganancia_no_negativa costo_inicial costo_mensual ahorro_mensual)
         (range 1 (meses + 1)).
Proof.
  unfold roi_mes. rewrite df_evolucion_rows.
  unfold range. rewrite <- series_min_filter_seq. f_equal.
  generalize (seq 0 (Z.to_nat (meses + 1 - 1))) as l.
  induction l as [|i l IH]; [reflexivity|].
  cbn [map filter].
  change (Ganancia_Acumulada
            (fila_en costo_inicial costo_mensual ahorro_mensual
               (1 + Z.of_nat i)))
    with (F64.round (ganancia_acumulada_en costo_inicial costo_mensual
                       ahorro_mensual (1 + Z.of_nat i)) 2).
  unfold ganancia_no_negativa at 1.
  destruct (PrimFloat.leb 0 _); cbn [map]; now rewrite IH.
Qed.

Lemma roi_mes_Some (m : Z) :
  roi_mes costo_inicial costo_mensual ahorro_mensual = Some m <->
  1 <= m <= 60 /\
  ganancia_no_negativa costo_inicial costo_mensual ahorro_mensual m = true /\
  forall m', 1 <= m' < m ->
    ganancia_no_negativa costo_inicial costo_mensual ahorro_mensual m'
    = false.
Proof.
  rewrite roi_mes_find, find_range_Some by (unfold meses; lia).
  unfold meses. intuition lia.
Qed.

Lemma roi_mes_None :
  roi_mes costo_inicial costo_mensual ahorro_mensual = None <->
  forall m, 1 <= m <= 60 ->
    ganancia_no_negativa costo_inicial costo_mensual ahorro_mensual m
    = false.
Proof.
  rewrite roi_mes_find, find_range_None. unfold meses.
  split; intros Hall m Hm; apply Hall; lia.
Qed.

End EvolucionProps.

(** C10. [roi_mes] is read off the rounded column: it is the least month
    of 1..60 whose net gain rounded to two decimals is [>= 0].  So a month
    whose net gain is negative but above half a cent below zero is
    reported: with an initial cost of 1000, no monthly cost and monthly
    savings of 333.332, the net gain of month 3 is about -0.004, it is
    stored as -0.0, and [roi_mes] is 3. *)
Theorem roi_mes_rounded :
  (forall costo_inicial costo_mensual ahorro_mensual m,
      roi_mes costo_inicial costo_mensual ahorro_mensual = Some m <->
      1 <= m <= 60 /\
      PrimFloat.leb 0
        (F64.round
           (ganancia_acumulada_en costo_inicial costo_mensual ahorro_mensual m)
           2) = true /\
      forall m', 1 <= m' < m ->
        PrimFloat.leb 0
          (F64.round
             (ganancia_acumulada_en costo_inicial costo_mensual ahorro_mensual
                m') 2) = false)
  /\
  (exists costo_inicial costo_mensual ahorro_mensual m,
      roi_mes costo_inicial costo_mensual ahorro_mensual = Some m /\
      PrimFloat.ltb
        (ganancia_acumulada_en costo_inicial costo_mensual ahorro_mensual m)
        0 = true /\
      PrimFloat.leb (-0.005)
        (ganancia_acumulada_en costo_inicial costo_mensual ahorro_mensual m)
      = true).
Proof.
  split.
  - intros ci cm am m. apply roi_mes_Some.
  - exists 1000%float, 0%float, 333.332%float, 3.
    repeat split; vm_compute; reflexivity.
Qed.

(** Savings 1000, monthly cost 200, initial cost 2400: month 3. *)
Lemma roi_mes_rounded_witness : roi_mes 2400 200 1000 = Some 3.
Proof.
  apply (proj1 roi_mes_rounded 2400%float 200%float 1000%float 3).
  split; [lia|split; [vm_compute; reflexivity|]].
  intros m' Hm'.
  assert (Hc : m' = 1 \/ m' = 2) by lia.
  destruct Hc as [-> | ->]; vm_compute; reflexivity.
Defined.

(** With the unrounded net gain as the test, the month reported is not the
    least one, and a stored row does not satisfy the recurrence of the
    loop. *)
Lemma simulacion_as_stated_fails :
  (* the month reported is not the least month whose net gain is >= 0 *)
  (roi_mes 1000 0 333.332 = Some 3
   /\ PrimFloat.leb 0 (ganancia_acumulada_en 1000 0 333.332 3) = false
   /\ forallb (fun m => PrimFloat.ltb (ganancia_acumulada_en 1000 0 333.332 m) 0)
        [1; 2; 3] = true
   /\ PrimFloat.leb 0 (ganancia_acumulada_en 1000 0 333.332 4) = true)
  /\
  (* a stored net gain is not the difference of the stored amounts *)
  (exists fila,
      nth_error (df_evolucion 0.008 0 0.004) 0 = Some fila /\
      PrimFloat.eqb (Ganancia_Acumulada fila)
        (PrimFloat.sub (Ahorro_Acumulado fila) (Costo_Acumulado fila))
      = false).
Proof.
  split.
  - repeat split; vm_compute; reflexivity.
  - eexists. split; vm_compute; reflexivity.
Qed.

(** C6, as the code has it.  For every initial cost, monthly cost and
    monthly savings the table has the 60 rows of months 1..60; in month
    [m] the loop's savings are the running sum of the monthly savings, its
    cost is [costo_inicial + costo_mensual * m] and its net gain is their
    difference, and the row stores each of the three rounded to two
    decimals; [roi_mes] is the least month whose stored net gain is
    [>= 0], and is absent when there is none.  With savings 1000, monthly
    cost 200 and initial cost 2400 the net gains are -1600, -800, 0 and
    [roi_mes] is 3; with savings 0, monthly cost 500 and initial cost
    10000 the net gain decreases strictly every month and [roi_mes] is
    absent. *)
Theorem simulacion_spec :
  (forall costo_inicial costo_mensual ahorro_mensual,
      let ahorro := ahorro_acumulado_en ahorro_mensual in
      let costo := costo_acumulado_en costo_inicial costo_mensual in
      let ganancia :=
        ganancia_acumulada_en costo_inicial costo_mensual ahorro_mensual in
      let df := df_evolucion costo_inicial costo_mensual ahorro_mensual in
      let roi := roi_mes costo_inicial costo_mensual ahorro_mensual in
      List.length df = 60%nat
      /\ (forall m, 1 <= m <= 60 ->
            ahorro (Z.to_nat m)
            = PrimFloat.add (ahorro (Z.to_nat (m - 1))) ahorro_mensual
            /\ costo m
               = PrimFloat.add costo_inicial
                   (PrimFloat.mul costo_mensual (F64.of_int m))
            /\ ganancia m = PrimFloat.sub (ahorro (Z.to_nat m)) (costo m)
            /\ nth_error df (Z.to_nat (m - 1))
               = Some {| Mes := m;
                         Ahorro_Acumulado := F64.round (ahorro (Z.to_nat m)) 2;
                         Costo_Acumulado := F64.round (costo m) 2;
                         Ganancia_Acumulada := F64.round (ganancia m) 2 |})
      /\ (forall m,
            roi = Some m <->
            1 <= m <= 60 /\
            PrimFloat.leb 0 (F64.round (ganancia m) 2) = true /\
            forall m', 1 <= m' < m ->
              PrimFloat.leb 0 (F64.round (ganancia m') 2) = false)
      /\ (roi = None <->
          forall m, 1 <= m <= 60 ->
            PrimFloat.leb 0 (F64.round (ganancia m) 2) = false))
  /\
  (roi_mes 2400 200 1000 = Some 3
   /\ map (ganancia_acumulada_en 2400 200 1000) [1; 2; 3]
      = [(-1600)%float; (-800)%float; 0%float])
  /\
  (roi_mes 10000 500 0 = None
   /\ forallb
        (fun m => PrimFloat.ltb (ganancia_acumulada_en 10000 500 0 (m + 1))
                    (ganancia_acumulada_en 10000 500 0 m))
        (range 1 60) = true).
Proof.
  split; [|split; split; vm_compute; reflexivity].
  intros ci cm am ahorro costo ganancia df roi.
  split; [|split; [|split]].
  - unfold df. rewrite df_evolucion_rows, length_map.
    unfold range. rewrite length_map, length_seq. reflexivity.
  - intros m Hm. split; [|split; [|split]]; try reflexivity.
    + replace (Z.to_nat m) with (S (Z.to_nat (m - 1))) at 1 by lia.
      reflexivity.
    + unfold df. rewrite df_evolucion_rows.
      rewrite nth_error_map. unfold range. rewrite nth_error_map.
      rewrite nth_error_seq.
      destruct (Nat.ltb_spec (Z.to_nat (m - 1)) (Z.to_nat (meses + 1 - 1)))
        as [_|Hge]; [|unfold meses in Hge; lia].
      cbn [option_map]. f_equal.
      replace (1 + Z.of_nat (0 + Z.to_nat (m - 1))) with m by lia.
      reflexivity.
  - intros m. apply roi_mes_Some.
  - apply roi_mes_None.
Qed.

(** The third row of the first scenario. *)
Lemma simulacion_spec_witness :
  nth_error (df_evolucion 2400 200 1000) 2
  = Some {| Mes := 3; Ahorro_Acumulado := 3000; Costo_Acumulado := 3000;
            Ganancia_Acumulada := 0 |}.
Proof.
  refine (eq_trans
            (proj2 (proj2 (proj2
               (proj1 (proj2 (proj1 simulacion_spec 2400%float 200%float
                                1000%float)) 3 _)))) _);
    [lia | vm_compute; reflexivity].
Defined.

(** ** The calculation block over the rationals *)

Lemma Qeq_bool_inject_Z (z : Z) : z <> 0 -> Qeq_bool (inject_Z z) 0 = false.
Proof.
  intros Hz. unfold Qeq_bool, inject_Z. simpl.
  apply Z.eqb_neq. lia.
Qed.

Lemma inject_Z_nonzero (z : Z) : z <> 0 -> ~ (inject_Z z == 0)%Q.
Proof.
  intros Hz E. unfold Qeq, inject_Z in E. simpl in E. lia.
Qed.

Lemma Exact_int_truediv_Ok (a b : Z) :
  b <> 0 -> Exact.int_truediv a b = Ok (inject_Z a / inject_Z b)%Q.
Proof.
  intros Hb. unfold Exact.int_truediv.
  now rewrite (proj2 (Z.eqb_neq b 0) Hb).
Qed.

Lemma Exact_truediv_Ok (x : Q) (z : Z) :
  z <> 0 -> Exact.truediv x (inject_Z z) = Ok (x / inject_Z z)%Q.
Proof.
  intros Hz. unfold Exact.truediv. now rewrite Qeq_bool_inject_Z.
Qed.

(** Run the block over the rationals: every division has a non-zero
    divisor, so every step succeeds. *)
Ltac run_exact :=
  cbn [int_truediv truediv of_int add sub mul PyNum_Q];
  repeat (first [ rewrite Exact_int_truediv_Ok by (assumption || discriminate)
                | rewrite Exact_truediv_Ok by (assumption || discriminate) ];
          cbn [bind]).

(** ** Time split *)

Lemma porcentajes_as_stated_fail :
  exists ss,
    calcular entradas_tercios = Calculado ss
    /\ 0 < total_minutes ss
    /\ PrimFloat.eqb
         (PrimFloat.add (idle_percentage (mermas ss))
                        (moving_percentage (mermas ss))) 100 = false
    /\ PrimFloat.eqb (moving_percentage (mermas ss))
         (PrimFloat.sub 100 (idle_percentage (mermas ss))) = false.
Proof.
  eexists. split; [vm_compute; reflexivity|].
  repeat split; vm_compute; reflexivity.
Qed.

(** C1, as the code has it.  Both percentages are computed from the
    minutes, [idle_minutes / total_minutes * 100] and
    [moving_minutes / total_minutes * 100]; read over the rationals they
    sum to exactly 100 whenever the total is positive. *)
Theorem porcentajes_spec :
  (forall inp ss,
      calcular inp = Calculado ss ->
      exists q_idle q_moving,
        F64.int_truediv (idle_minutes ss) (total_minutes ss) = Ok q_idle
        /\ F64.int_truediv (moving_minutes ss) (total_minutes ss) = Ok q_moving
        /\ idle_percentage (mermas ss) = PrimFloat.mul q_idle 100
        /\ moving_percentage (mermas ss) = PrimFloat.mul q_moving 100)
  /\
  (forall (idle moving : Z) (combustible_total precio_litro : Q)
          (num_unidades : Z) (costo_por_pieza renta_mensual : Q)
          (porcentaje_reduccion porcentaje_ralenti_real duration_days : Z),
      0 < idle + moving -> 1 <= duration_days ->
      exists m : Mermas Q,
        calcular_mermas idle moving (idle + moving)
          combustible_total precio_litro num_unidades costo_por_pieza
          renta_mensual porcentaje_reduccion porcentaje_ralenti_real
          duration_days = Ok m
        /\ (idle_percentage m + moving_percentage m == 100)%Q).
Proof.
  split.
  - intros inp ss Hc.
    apply calcular_Calculado in Hc as (i & m & _ & _ & _ & _ & _ & Hc).
    apply calculos_Ok in Hc as (Hc & _ & _ & -> & -> & ->).
    apply calcular_mermas_Ok in Hc
      as (q_idle & q_moving & ? & ? & ? & ? & E1 & E2 & E3 & E4 & _).
    exists q_idle, q_moving. auto.
  - intros idle moving fuel price n c r pr prr d Ht Hd.
    assert (Ht' : idle + moving <> 0) by lia.
    assert (Hd' : d <> 0) by lia.
    unfold calcular_mermas. run_exact.
    eexists. split; [reflexivity|].
    cbn [idle_percentage moving_percentage].
    pose proof (inject_Z_nonzero _ Ht') as Hq.
    rewrite inject_Z_plus in *. field. exact Hq.
Qed.

(** One minute idle and two minutes moving, over the rationals. *)
Lemma porcentajes_spec_witness :
  exists m : Mermas Q,
    calcular_mermas 1 2 (1 + 2) 1419%Q 25%Q 30 5000%Q 999%Q 20 100 3 = Ok m
    /\ (idle_percentage m + moving_percentage m == 100)%Q.
Proof.
  apply (proj2 porcentajes_spec 1 2 1419%Q 25%Q 30 5000%Q 999%Q 20 100 3);
    lia.
Defined.

(** ** Fuel split *)

Lemma combustible_as_stated_fails :
  exists ss,
    calcular entradas_tercios = Calculado ss
    /\ PrimFloat.eqb
         (PrimFloat.add (combustible_ralenti (mermas ss))
                        (combustible_movimiento (mermas ss)))
         (combustible_total entradas_tercios) = false
    /\ PrimFloat.eqb (combustible_movimiento (mermas ss))
         (PrimFloat.sub (combustible_total entradas_tercios)
                        (combustible_ralenti (mermas ss))) = false.
Proof.
  eexists. split; [vm_compute; reflexivity|].
  repeat split; vm_compute; reflexivity.
Qed.

(** C2, as the code has it.  Each fuel figure is its own percentage over
    100 times the total fuel; read over the rationals the idle and the
    moving fuel sum to exactly the total fuel. *)
Theorem combustible_spec :
  (forall inp ss,
      calcular inp = Calculado ss ->
      combustible_ralenti (mermas ss)
      = PrimFloat.mul (PrimFloat.div (idle_percentage (mermas ss)) 100)
          (combustible_total inp)
      /\ combustible_movimiento (mermas ss)
         = PrimFloat.mul (PrimFloat.div (moving_percentage (mermas ss)) 100)
             (combustible_total inp))
  /\
  (forall (idle moving : Z) (combustible_total precio_litro : Q)
          (num_unidades : Z) (costo_por_pieza renta_mensual : Q)
          (porcentaje_reduccion porcentaje_ralenti_real duration_days : Z),
      0 < idle + moving -> 1 <= duration_days ->
      exists m : Mermas Q,
        calcular_mermas idle moving (idle + moving)
          combustible_total precio_litro num_unidades costo_por_pieza
          renta_mensual porcentaje_reduccion porcentaje_ralenti_real
          duration_days = Ok m
        /\ (combustible_ralenti m + combustible_movimiento m
            == combustible_total)%Q).
Proof.
  split.
  - intros inp ss Hc.
    apply calcular_Calculado in Hc as (i & m & _ & _ & _ & _ & _ & Hc).
    apply calculos_Ok in Hc as (Hc & _).
    apply calcular_mermas_Ok in Hc
      as (? & ? & f_idle & f_moving & ? & ? & _ & _ & _ & _
          & E1 & E2 & E3 & E4 & _).
    apply F64_truediv_Ok in E1 as [_ ->].
    apply F64_truediv_Ok in E3 as [_ ->].
    split; assumption.
  - intros idle moving fuel price n c r pr prr d Ht Hd.
    assert (Ht' : idle + moving <> 0) by lia.
    assert (Hd' : d <> 0) by lia.
    unfold calcular_mermas. run_exact.
    eexists. split; [reflexivity|].
    cbn [combustible_ralenti combustible_movimiento].
    pose proof (inject_Z_nonzero _ Ht') as Hq.
    rewrite inject_Z_plus in *. field. exact Hq.
Qed.

(** One minute idle and two minutes moving, over the rationals. *)
Lemma combustible_spec_witness :
  exists m : Mermas Q,
    calcular_mermas 1 2 (1 + 2) 1419%Q 25%Q 30 5000%Q 999%Q 20 100 3 = Ok m
    /\ (combustible_ralenti m + combustible_movimiento m == 1419)%Q.
Proof.
  apply (proj2 combustible_spec 1 2 1419%Q 25%Q 30 5000%Q 999%Q 20 100 3);
    lia.
Defined.

(** ** Fleet and unit losses *)

Lemma mermas_flota_as_stated_fail :
  exists ss,
    calcular entradas_tercios = Calculado ss
    /\ let m := mermas ss in
       let rr := ralenti_real ss in
       let n := F64.of_int (num_unidades entradas_tercios) in
       forallb (fun p => negb (PrimFloat.eqb (fst p) (PrimFloat.mul (snd p) n)))
         [ (merma_diaria m, merma_diaria_unit m);
           (merma_semanal m, merma_semanal_unit m);
           (merma_mensual m, merma_mensual_unit m);
           (merma_anual m, merma_anual_unit m);
           (merma_diaria_real_fleet rr, merma_diaria_real_unit rr);
           (merma_semanal_real_fleet rr, merma_semanal_real_unit rr);
           (merma_mensual_real_fleet rr, merma_mensual_real_unit rr);
           (merma_anual_real_fleet rr, merma_anual_real_unit rr) ] = true.
Proof.
  eexists. split; vm_compute; reflexivity.
Qed.

(** C7, as the code has it.  The fleet totals are the unit totals times
    the number of units, and the daily fleet figures divide those fleet
    totals by the period; read over the rationals, every daily, weekly,
    monthly and annual fleet figure, plain and real-idle, equals the unit
    figure times the number of units. *)
Theorem mermas_flota_spec :
  (forall inp ss,
      calcular inp = Calculado ss ->
      let m := mermas ss in
      let rr := ralenti_real ss in
      let n := F64.of_int (num_unidades inp) in
      let d := F64.of_int (duration_days inp) in
      merma_total m = PrimFloat.mul (merma_total_unit m) n
      /\ merma_diaria m = PrimFloat.div (merma_total m) d
      /\ merma_diaria_unit m = PrimFloat.div (merma_total_unit m) d
      /\ costo_ralenti_real_fleet rr
         = PrimFloat.mul (costo_ralenti_real_unit rr) n
      /\ merma_diaria_real_fleet rr
         = PrimFloat.div (costo_ralenti_real_fleet rr) d
      /\ merma_diaria_real_unit rr
         = PrimFloat.div (costo_ralenti_real_unit rr) d)
  /\
  (forall (idle moving : Z) (combustible_total precio_litro : Q)
          (num_unidades : Z) (costo_por_pieza renta_mensual : Q)
          (porcentaje_reduccion porcentaje_ralenti_real duration_days : Z),
      0 < idle + moving -> 1 <= duration_days ->
      exists (m : Mermas Q) (rr : RalentiReal Q),
        calcular_mermas idle moving (idle + moving)
          combustible_total precio_litro num_unidades costo_por_pieza
          renta_mensual porcentaje_reduccion porcentaje_ralenti_real
          duration_days = Ok m
        /\ calcular_ralenti_real (ahorro_anual m) (costo_ralenti m)
             renta_mensual num_unidades porcentaje_ralenti_real
             duration_days = Ok rr
        /\ (let n := inject_Z num_unidades in
            merma_diaria m == merma_diaria_unit m * n
            /\ merma_semanal m == merma_semanal_unit m * n
            /\ merma_mensual m == merma_mensual_unit m * n
            /\ merma_anual m == merma_anual_unit m * n
            /\ merma_diaria_real_fleet rr == merma_diaria_real_unit rr * n
            /\ merma_semanal_real_fleet rr == merma_semanal_real_unit rr * n
            /\ merma_mensual_real_fleet rr == merma_mensual_real_unit rr * n
            /\ merma_anual_real_fleet rr == merma_anual_real_unit rr * n)%Q).
Proof.
  split.
  - intros inp ss Hc m rr n d.
    apply calcular_Calculado in Hc as (i & mv & _ & _ & _ & _ & _ & Hc).
    apply calculos_Ok in Hc as (Hm & _ & Hr & _).
    apply calcular_mermas_Ok in Hm
      as (? & ? & ? & ? & ? & ? & _ & _ & _ & _ & _ & _ & _ & _ & _ & _ & _
          & E1 & E2 & _ & _ & _ & E3 & E4 & _).
    apply calcular_ralenti_real_Ok in Hr
      as (? & _ & _ & _ & E5 & _ & _ & _ & E6 & E7 & _).
    apply F64_truediv_Ok in E2 as [_ E2].
    apply F64_truediv_Ok in E4 as [_ E4].
    apply F64_truediv_Ok in E5 as [_ E5].
    apply F64_truediv_Ok in E7 as [_ E7].
    fold m in E1, E2, E3, E4. fold rr in E5, E6, E7.
    rewrite <- E3 in E1. repeat split; assumption.
  - intros idle moving fuel price n c r pr prr d Ht Hd.
    assert (Ht' : idle + moving <> 0) by lia.
    assert (Hd' : d <> 0) by lia.
    unfold calcular_mermas, calcular_ralenti_real. run_exact.
    do 2 eexists. split; [reflexivity|].
    cbn [ahorro_anual costo_ralenti]. run_exact.
    split; [reflexivity|].
    cbn -[Qmult Qdiv Qplus Qminus inject_Z Qeq].
    pose proof (inject_Z_nonzero _ Ht') as Hq.
    pose proof (inject_Z_nonzero _ Hd') as Hq'.
    rewrite inject_Z_plus in *.
    repeat split; field; auto.
Qed.

(** One minute idle and two minutes moving, over the rationals. *)
Lemma mermas_flota_spec_witness :
  exists (m : Mermas Q) (rr : RalentiReal Q),
    calcular_mermas 1 2 (1 + 2) 1419%Q 25%Q 30 5000%Q 999%Q 20 100 3 = Ok m
    /\ calcular_ralenti_real (ahorro_anual m) (costo_ralenti m) 999%Q 30 100 3
       = Ok rr
    /\ (merma_anual m == merma_anual_unit m * 30)%Q
    /\ (merma_anual_real_fleet rr == merma_anual_real_unit rr * 30)%Q.
Proof.
  destruct (proj2 mermas_flota_spec 1 2 1419%Q 25%Q 30 5000%Q 999%Q 20 100 3)
    as (m & rr & Hm & Hr & H); [lia|lia|].
  exists m, rr. cbv zeta in H. intuition.
Defined.

(** ** Rounding to nearest keeps the order

    The rest of the file leads to the monotonicity of the annual savings
    in binary64.  It rests on one fact about [binary_round_aux], the
    routine that specifies the rounding of every binary64 operation: on
    exact inputs it keeps the order of the values. *)

Lemma round_half_even_bounds (a d : Z) :
  a / d <= F64.round_half_even a d <= a / d + 1.
Proof.
  unfold F64.round_half_even.
  destruct (2 * (a mod d) ?= d); [destruct (Z.even (a / d))| |]; lia.
Qed.

(** Rounding a quotient to the nearest integer keeps the order of the
    numerators. *)
Lemma round_half_even_mono (a b d : Z) :
  0 < d -> a <= b -> F64.round_half_even a d <= F64.round_half_even b d.
Proof.
  intros Hd Hab.
  pose proof (Z.div_le_mono a b d Hd Hab) as Hq.
  destruct (Z.eq_dec (a / d) (b / d)) as [E|N].
  - pose proof (Z.div_mod a d ltac:(lia)) as Ha.
    pose proof (Z.div_mod b d ltac:(lia)) as Hb.
    assert (Hr : a mod d <= b mod d) by (rewrite E in Ha; nia).
    unfold F64.round_half_even. rewrite E.
    destruct (Z.compare_spec (2 * (a mod d)) d);
      destruct (Z.compare_spec (2 * (b mod d)) d);
      destruct (Z.even (b / d)); lia.
  - pose proof (round_half_even_bounds a d).
    pose proof (round_half_even_bounds b d). lia.
Qed.

(** An exact quotient is left alone. *)
Lemma round_half_even_mult (k d : Z) :
  0 < d -> F64.round_half_even (k * d) d = k.
Proof.
  intros Hd. unfold F64.round_half_even.
  rewrite Z.mod_mul, Z.div_mul by lia.
  assert (E : (2 * 0 ?= d) = Lt) by (apply Z.compare_lt_iff; lia).
  now rewrite E.
Qed.

(** The result depends on the quotient only. *)
Lemma round_half_even_scale (a d k : Z) :
  0 < d -> 0 < k ->
  F64.round_half_even (a * k) (d * k) = F64.round_half_even a d.
Proof.
  intros Hd Hk. unfold F64.round_half_even.
  rewrite Z.div_mul_cancel_r by lia.
  rewrite Z.mul_mod_distr_r by lia.
  replace (2 * (a mod d * k)) with (2 * (a mod d) * k) by ring.
  destruct (Z.compare_spec (2 * (a mod d) * k) (d * k));
    destruct (Z.compare_spec (2 * (a mod d)) d); try reflexivity; nia.
Qed.

Lemma pow2_pos (k : Z) : 0 <= k -> 0 < 2 ^ k.
Proof. intros. apply Z.pow_pos_nonneg; lia. Qed.

Lemma pow2_add (a b : Z) : 0 <= a -> 0 <= b -> 2 ^ (a + b) = 2 ^ a * 2 ^ b.
Proof. intros. apply Z.pow_add_r; lia. Qed.

Lemma pow2_le (a b : Z) : 0 <= a <= b -> 2 ^ a <= 2 ^ b.
Proof. intros. apply Z.pow_le_mono_r; lia. Qed.

Lemma pow2_lt_inv (a b : Z) : 0 <= a -> 0 <= b -> 2 ^ a < 2 ^ b -> a < b.
Proof. intros Ha Hb H. apply (Z.pow_lt_mono_r_iff 2); lia. Qed.

Lemma round_to_multiple_mono (a b h : Z) :
  0 < h -> a <= b -> round_to_multiple a h <= round_to_multiple b h.
Proof.
  intros. unfold round_to_multiple.
  pose proof (round_half_even_mono a b h); nia.
Qed.

Lemma round_to_multiple_mult (k h : Z) :
  0 < h -> round_to_multiple (k * h) h = k * h.
Proof. intros. unfold round_to_multiple. now rewrite round_half_even_mult. Qed.

(** Two positive values [m1 * 2^e1 <= m2 * 2^e2], with [d1] and [d2]
    binary digits, each rounded to a multiple of the unit of its own
    magnitude, stay in order.  Everything is counted in units of [2^c0],
    with [c0] below all the exponents. *)
Lemma round_value_mono (prec emin m1 d1 e1 m2 d2 e2 c0 : Z) :
  0 < prec ->
  1 <= d1 -> 1 <= d2 ->
  2 ^ (d1 - 1) <= m1 < 2 ^ d1 ->
  2 ^ (d2 - 1) <= m2 < 2 ^ d2 ->
  c0 <= e1 -> c0 <= e2 -> c0 <= emin ->
  m1 * 2 ^ (e1 - c0) <= m2 * 2 ^ (e2 - c0) ->
  round_to_multiple (m1 * 2 ^ (e1 - c0))
    (2 ^ (Z.max (d1 + e1 - prec) emin - c0))
  <= round_to_multiple (m2 * 2 ^ (e2 - c0))
       (2 ^ (Z.max (d2 + e2 - prec) emin - c0)).
Proof.
  intros prec_pos Hd1 Hd2 Hm1 Hm2 Hc1 Hc2 Hc Hle.
  set (A1 := m1 * 2 ^ (e1 - c0)) in *.
  set (A2 := m2 * 2 ^ (e2 - c0)) in *.
  set (F1 := Z.max (d1 + e1 - prec) emin).
  set (F2 := Z.max (d2 + e2 - prec) emin).
  assert (HF1 : c0 <= F1) by (unfold F1; lia).
  assert (HF2 : c0 <= F2) by (unfold F2; lia).
  (* bounds on the scaled values *)
  assert (HA1 : 2 ^ (d1 - 1 + e1 - c0) <= A1 < 2 ^ (d1 + e1 - c0)).
  { unfold A1.
    replace (d1 - 1 + e1 - c0) with ((d1 - 1) + (e1 - c0)) by ring.
    replace (d1 + e1 - c0) with (d1 + (e1 - c0)) by ring.
    rewrite !pow2_add by lia.
    pose proof (pow2_pos (e1 - c0) ltac:(lia)). nia. }
  assert (HA2 : 2 ^ (d2 - 1 + e2 - c0) <= A2 < 2 ^ (d2 + e2 - c0)).
  { unfold A2.
    replace (d2 - 1 + e2 - c0) with ((d2 - 1) + (e2 - c0)) by ring.
    replace (d2 + e2 - c0) with (d2 + (e2 - c0)) by ring.
    rewrite !pow2_add by lia.
    pose proof (pow2_pos (e2 - c0) ltac:(lia)). nia. }
  assert (Hmu : d1 + e1 <= d2 + e2).
  { assert (2 ^ (d1 - 1 + e1 - c0) < 2 ^ (d2 + e2 - c0)) by lia.
    apply pow2_lt_inv in H; lia. }
  assert (HF : F1 <= F2) by (unfold F1, F2; lia).
  destruct (Z.eq_dec F1 F2) as [E|N].
  - rewrite <- E.
    apply round_to_multiple_mono; [apply pow2_pos; lia|assumption].
  - assert (HltF : F1 < F2) by lia.
    assert (Hmu' : d1 + e1 < d2 + e2) by (unfold F1, F2 in HltF; lia).
    assert (HF2' : F2 = d2 + e2 - prec) by (unfold F1, F2 in *; lia).
    set (B := 2 ^ (d2 - 1 + e2 - c0)).
    assert (HB1 : A1 <= B).
    { unfold B. pose proof (pow2_le (d1 + e1 - c0) (d2 - 1 + e2 - c0)). lia. }
    assert (HBm1 : B = 2 ^ (d2 - 1 + e2 - F1) * 2 ^ (F1 - c0)).
    { unfold B. rewrite <- pow2_add by lia. f_equal. ring. }
    assert (HBm2 : B = 2 ^ (d2 - 1 + e2 - F2) * 2 ^ (F2 - c0)).
    { unfold B. rewrite <- pow2_add by lia. f_equal. ring. }
    apply Z.le_trans with B.
    + rewrite HBm1.
      rewrite <- (round_to_multiple_mult (2 ^ (d2 - 1 + e2 - F1))
                    (2 ^ (F1 - c0)))
        by (apply pow2_pos; lia).
      apply round_to_multiple_mono; [apply pow2_pos; lia|now rewrite <- HBm1].
    + rewrite HBm2.
      rewrite <- (round_to_multiple_mult (2 ^ (d2 - 1 + e2 - F2))
                    (2 ^ (F2 - c0)))
        by (apply pow2_pos; lia).
      apply round_to_multiple_mono; [apply pow2_pos; lia|rewrite <- HBm2; lia].
Qed.


(** A mantissa of [d] digits lies in [[2^(d-1), 2^d)]. *)
Lemma bit_length_bounds (p : positive) :
  1 <= bit_length p /\ 2 ^ (bit_length p - 1) <= Zpos p < 2 ^ bit_length p.
Proof.
  unfold bit_length. induction p as [p IH|p IH|]; cbn [digits2_pos].
  - rewrite Pos2Z.inj_succ. destruct IH as [H1 H2]. split; [lia|].
    replace (Z.succ (Zpos (digits2_pos p)) - 1)
      with (Z.succ (Zpos (digits2_pos p) - 1)) by lia.
    rewrite !Z.pow_succ_r by lia. lia.
  - rewrite Pos2Z.inj_succ. destruct IH as [H1 H2]. split; [lia|].
    replace (Z.succ (Zpos (digits2_pos p)) - 1)
      with (Z.succ (Zpos (digits2_pos p) - 1)) by lia.
    rewrite !Z.pow_succ_r by lia. lia.
  - simpl. lia.
Qed.



Lemma shifted_0 (m : Z) :
  shifted m 0 {| shr_m := m; shr_r := false; shr_s := false |}.
Proof.
  unfold shifted, location_of. simpl. rewrite Z.div_1_r, Z.mod_1_r. auto.
Qed.

Lemma shr_1_m (mrs : shr_record) :
  0 <= shr_m mrs ->
  shr_m (shr_1 mrs) = shr_m mrs / 2
  /\ shr_r (shr_1 mrs) = Z.odd (shr_m mrs)
  /\ shr_s (shr_1 mrs) = orb (shr_r mrs) (shr_s mrs).
Proof.
  destruct mrs as [m r s]. simpl. intros Hm.
  destruct m as [|[p|p|]|p]; try lia; simpl; repeat split.
  - rewrite Pos2Z.inj_xI. apply Z.div_unique with 1; lia.
  - rewrite Pos2Z.inj_xO. apply Z.div_unique with 0; lia.
Qed.

Ltac eqb_false :=
  match goal with
  | |- context [?a =? ?b] =>
      replace (a =? b) with false by (symmetry; apply Z.eqb_neq; lia)
  end.

Ltac eqb_true :=
  match goal with
  | |- context [?a =? ?b] =>
      replace (a =? b) with true by (symmetry; apply Z.eqb_eq; lia)
  end.

(** One more right shift. *)
Lemma shr_1_shifted (m k : Z) (mrs : shr_record) :
  0 <= m -> 0 <= k -> shifted m k mrs -> shifted m (k + 1) (shr_1 mrs).
Proof.
  intros Hm Hk (Jm & Jrs & Jl).
  pose proof (pow2_pos k Hk) as Hp.
  assert (Hq : 0 <= m / 2 ^ k) by (apply Z.div_pos; lia).
  destruct (shr_1_m mrs ltac:(lia)) as (Sm & Sr & Ss).
  assert (Hpow : 2 ^ (k + 1) = 2 ^ k * 2)
    by (rewrite pow2_add by lia; reflexivity).
  assert (Hrem : m mod 2 ^ (k + 1) = m mod 2 ^ k + 2 ^ k * ((m / 2 ^ k) mod 2)).
  { rewrite Hpow. apply Z.rem_mul_r; lia. }
  pose proof (Z.mod_pos_bound m (2 ^ k) Hp) as Hb.
  assert (Hodd : (m / 2 ^ k) mod 2 = if Z.odd (m / 2 ^ k) then 1 else 0).
  { rewrite Zmod_odd. reflexivity. }
  unfold shifted. rewrite Sm, Sr, Ss, Jm, Jrs. split; [|split].
  - rewrite Hpow. now rewrite Z.div_div by lia.
  - rewrite Hrem, Hodd.
    destruct (Z.odd (m / 2 ^ k));
      destruct (Z.eqb_spec (m mod 2 ^ k) 0) as [e|n];
      cbn [negb orb].
    + eqb_false. reflexivity.
    + eqb_false. reflexivity.
    + eqb_true. reflexivity.
    + eqb_false. reflexivity.
  - destruct (shr_1 mrs) as [m' r' s']. simpl in Sr, Ss. subst r' s'.
    rewrite Jm, Jrs. unfold location_of. rewrite Hrem, Hodd, Hpow.
    destruct (Z.odd (m / 2 ^ k));
      destruct (Z.eqb_spec (m mod 2 ^ k) 0) as [e|n];
      cbn [negb loc_of_shr_record].
    + eqb_false. f_equal. symmetry. apply Z.compare_eq_iff. lia.
    + eqb_false. f_equal. symmetry. apply Z.compare_gt_iff. lia.
    + eqb_true. reflexivity.
    + eqb_false. f_equal. symmetry. apply Z.compare_lt_iff. lia.
Qed.

(** [p] more right shifts. *)
Lemma iter_pos_shifted (m : Z) (p : positive) :
  0 <= m ->
  forall k mrs,
    0 <= k -> shifted m k mrs ->
    shifted m (k + Zpos p) (iter_pos shr_1 p mrs).
Proof.
  intros Hm. induction p as [p IH|p IH|]; intros k mrs Hk HJ; cbn [iter_pos].
  - replace (k + Zpos p~1) with (((k + 1) + Zpos p) + Zpos p) by lia.
    apply IH; [lia|]. apply IH; [lia|]. now apply shr_1_shifted.
  - replace (k + Zpos p~0) with ((k + Zpos p) + Zpos p) by lia.
    apply IH; [lia|]. now apply IH.
  - now apply shr_1_shifted.
Qed.

(** Rounding the shifted record to nearest even is rounding the quotient
    [m / 2^k] to nearest even. *)
Lemma round_of_shifted (m k : Z) (mrs : shr_record) :
  0 <= k ->
  shifted m k mrs ->
  round_nearest_even (shr_m mrs) (loc_of_shr_record mrs)
  = F64.round_half_even m (2 ^ k).
Proof.
  intros Hk (Jm & _ & Jl). rewrite Jl, Jm.
  unfold location_of, F64.round_half_even, round_nearest_even.
  pose proof (pow2_pos k Hk) as Hp.
  destruct (Z.eqb_spec (m mod 2 ^ k) 0) as [e|n].
  - rewrite e.
    assert (E : (2 * 0 ?= 2 ^ k) = Lt) by (apply Z.compare_lt_iff; lia).
    now rewrite E.
  - destruct (2 * (m mod 2 ^ k) ?= 2 ^ k); reflexivity.
Qed.
Section Rounding.

Variables prec emax : Z.
Hypothesis Hprec : 2 <= prec.
Hypothesis Hemax : 2 <= emax.




Lemma fexp_eq (e : Z) : fexp prec emax e = Z.max (e - prec) (3 - emax - prec).
Proof. reflexivity. Qed.

(** [shr_fexp] on an exact mantissa shifts it down to the exponent of its
    magnitude, when that is above its own. *)
Lemma shr_fexp_exact (m : positive) (e : Z) :
  exists mrs,
    shr_fexp prec emax (Zpos m) e loc_Exact
    = (mrs, Z.max e (fexp prec emax (bit_length m + e)))
    /\ shifted (Zpos m) (Z.max e (fexp prec emax (bit_length m + e)) - e) mrs.
Proof.
  unfold shr_fexp, shr, shr_record_of_loc. cbn [Zdigits2]. fold (bit_length m).
  destruct (fexp prec emax (bit_length m + e) - e) as [|p|p] eqn:En.
  - eexists. split.
    + f_equal. lia.
    + replace (Z.max e (fexp prec emax (bit_length m + e)) - e) with 0
        by lia.
      apply shifted_0.
  - eexists. split.
    + f_equal. lia.
    + replace (Z.max e (fexp prec emax (bit_length m + e)) - e)
        with (0 + Zpos p) by lia.
      apply iter_pos_shifted; [lia|lia|apply shifted_0].
  - eexists. split.
    + f_equal. lia.
    + replace (Z.max e (fexp prec emax (bit_length m + e)) - e) with 0
        by lia.
      apply shifted_0.
Qed.

(** What [binary_round_aux] returns on an exact positive input. *)
Lemma binary_round_aux_cases (m : positive) (e : Z) :
  let E := Z.max e (fexp prec emax (bit_length m + e)) in
  let mR := F64.round_half_even (Zpos m) (2 ^ (E - e)) in
  let out := binary_round_aux prec emax false (Zpos m) e loc_Exact in
  (out = S754_zero false /\ mR = 0)
  \/ (exists mC eC,
        out = S754_finite false mC eC /\ E <= eC /\
        Zpos mC * 2 ^ (eC - E) = mR)
  \/ (out = S754_infinity false /\
      exists mC eC,
        E <= eC /\ Zpos mC * 2 ^ (eC - E) = mR /\ emax - prec < eC /\
        (2 ^ (prec - 1) <= Zpos mC \/ (eC = e /\ bit_length m <= prec))).
Proof.
  intros E mR out.
  destruct (shr_fexp_exact m e) as (mrs & Hs & HJ). fold E in Hs, HJ.
  assert (HE : e <= E) by (unfold E; lia).
  assert (HEmin : 3 - emax - prec <= E) by (unfold E; rewrite fexp_eq; lia).
  assert (HmR : round_nearest_even (shr_m mrs) (loc_of_shr_record mrs) = mR).
  { apply round_of_shifted; [lia|assumption]. }
  pose proof (bit_length_bounds m) as [Hd1 Hd2].
  pose proof (round_half_even_bounds (Zpos m) (2 ^ (E - e))) as Hb.
  fold mR in Hb.
  pose proof (pow2_pos (E - e) ltac:(lia)) as Hp.
  assert (Hq0 : 0 <= Zpos m / 2 ^ (E - e)) by (apply Z.div_pos; lia).
  assert (Hpw : 2 ^ prec = 2 ^ (prec - 1) * 2).
  { replace prec with ((prec - 1) + 1) at 1 by lia.
    rewrite pow2_add by lia. reflexivity. }
  (* the rounded prec emax mantissa has at most [prec] digits, or is [2^prec] *)
  assert (Hup : bit_length m <= prec /\ E = e /\ mR = Zpos m
                \/ e < E /\ mR <= 2 ^ prec).
  { destruct (Z.eq_dec E e) as [Ee|Ne].
    - left. split; [|split; [assumption|]].
      + unfold E in Ee. rewrite fexp_eq in Ee. lia.
      + unfold mR. rewrite Ee, Z.sub_diag. change (2 ^ 0) with 1.
        rewrite <- (Z.mul_1_r (Zpos m)) at 1.
        now rewrite round_half_even_mult by lia.
    - right. split; [lia|].
      assert (HEd : bit_length m + e - prec <= E)
        by (unfold E; rewrite fexp_eq; lia).
      assert (Zpos m / 2 ^ (E - e) < 2 ^ prec).
      { apply Z.div_lt_upper_bound; [lia|].
        rewrite <- pow2_add by lia.
        pose proof (pow2_le (bit_length m) (E - e + prec) ltac:(lia)). lia. }
      lia. }
  unfold out, binary_round_aux. rewrite Hs. rewrite HmR.
  destruct mR as [|p|p] eqn:EmR.
  - (* rounded to zero *)
    left. split; [|reflexivity].
    unfold shr_fexp, shr. cbn [Zdigits2 shr_record_of_loc].
    rewrite fexp_eq.
    destruct (Z.max (0 + E - prec) (3 - emax - prec) - E) eqn:En; try lia;
      reflexivity.
  - (* a positive mantissa *)
    right.
    destruct (shr_fexp_exact p E) as (mrs2 & Hs2 & HJ2).
    rewrite Hs2.
    pose proof (bit_length_bounds p) as [Hp1 Hp2].
    set (E2 := Z.max E (fexp prec emax (bit_length p + E))) in *.
    destruct HJ2 as (J2m & _ & _).
    assert (Hpd : bit_length p <= prec + 1).
    { destruct Hup as [(Hdm & _ & Hm)|(_ & Hle)].
      - injection Hm as ->. lia.
      - assert (2 ^ (bit_length p - 1) < 2 ^ (prec + 1)).
        { pose proof (pow2_le prec (prec + 1) ltac:(lia)).
          rewrite (pow2_add prec 1) in * by lia.
          change (2 ^ 1) with 2 in *. lia. }
        apply pow2_lt_inv in H; lia. }
    assert (HE2 : E2 = E \/ (E2 = E + 1 /\ Zpos p = 2 ^ prec)).
    { unfold E2. rewrite fexp_eq.
      destruct (Z.eq_dec (bit_length p) (prec + 1)) as [Ed|Nd].
      - right. split; [lia|].
        destruct Hup as [(Hdm & _ & Hm)|(_ & Hle)].
        + injection Hm as ->. lia.
        + rewrite Ed in Hp2.
          replace (prec + 1 - 1) with prec in Hp2 by lia. lia.
      - left. lia. }
    assert (Hval : shr_m mrs2 * 2 ^ (E2 - E) = Zpos p /\ 0 < shr_m mrs2).
    { rewrite J2m. destruct HE2 as [->|[-> Hpp]].
      - rewrite Z.sub_diag. change (2 ^ 0) with 1. rewrite Z.div_1_r. lia.
      - replace (E + 1 - E) with 1 by lia. change (2 ^ 1) with 2.
        rewrite Hpp, Hpw, Z.div_mul by lia.
        pose proof (pow2_pos (prec - 1) ltac:(lia)). lia. }
    destruct Hval as [Hval Hpos].
    destruct (shr_m mrs2) as [|mC|mC] eqn:EmC; try lia.
    destruct (Z.leb_spec E2 (emax - prec)) as [Hno|Hov].
    + left. exists mC, E2. split; [reflexivity|].
      split; [unfold E2; lia|assumption].
    + right. split; [reflexivity|]. exists mC, E2.
      split; [unfold E2; lia|]. split; [assumption|]. split; [assumption|].
      destruct Hup as [(Hdm & Ee & Hm)|(HeE & Hle)].
      * right. injection Hm as ->.
        destruct HE2 as [->|[_ Hpp]]; [auto|].
        rewrite Hpp in Hd2.
        assert (2 ^ prec < 2 ^ bit_length m) by lia.
        apply pow2_lt_inv in H; lia.
      * left.
        assert (HEd : E = bit_length m + e - prec).
        { unfold E in *. rewrite fexp_eq in *.
          destruct HE2 as [HE2|[HE2 _]]; rewrite HE2 in Hov; lia. }
        destruct HE2 as [HE2|[HE2 Hpp]].
        -- rewrite HE2, Z.sub_diag in Hval. change (2 ^ 0) with 1 in Hval.
           assert (2 ^ (prec - 1) <= Zpos m / 2 ^ (E - e)).
           { apply Z.div_le_lower_bound; [lia|].
             rewrite <- pow2_add by lia.
             replace (E - e + (prec - 1)) with (bit_length m - 1) by lia. lia. }
           lia.
        -- rewrite HE2 in Hval. replace (E + 1 - E) with 1 in Hval by lia.
           change (2 ^ 1) with 2 in Hval. rewrite Hpp, Hpw in Hval. lia.
  - (* never negative *)
    lia.
Qed.




(** A canonical number has at most [prec] digits, and exactly [prec]
    unless its exponent is the least one. *)
Lemma valid_finite (s : bool) (m : positive) (e : Z) :
  SpecFloat.valid_binary prec emax (S754_finite s m e) = true ->
  bit_length m <= prec /\ 3 - emax - prec <= e <= emax - prec
  /\ (bit_length m = prec \/ e = 3 - emax - prec).
Proof.
  unfold SpecFloat.valid_binary, bounded, canonical_mantissa.
  fold (bit_length m).
  rewrite andb_true_iff, Z.eqb_eq, Z.leb_le, fexp_eq.
  lia.
Qed.

(** On canonical numbers the order of the exponents decides. *)
Lemma canon_lt (m1 : positive) (e1 : Z) (m2 : positive) (e2 c0 : Z) :
  SpecFloat.valid_binary prec emax (S754_finite false m1 e1) = true ->
  SpecFloat.valid_binary prec emax (S754_finite false m2 e2) = true ->
  c0 <= e1 -> e1 < e2 ->
  Zpos m1 * 2 ^ (e1 - c0) < Zpos m2 * 2 ^ (e2 - c0).
Proof.
  intros V1 V2 Hc Hlt.
  apply valid_finite in V1 as (Hd1 & He1 & _).
  apply valid_finite in V2 as (Hd2 & He2 & Hn2).
  assert (Hdig2 : bit_length m2 = prec) by lia.
  pose proof (bit_length_bounds m1) as [_ [_ Hm1]].
  pose proof (bit_length_bounds m2) as [_ [Hm2 _]]. rewrite Hdig2 in Hm2.
  pose proof (pow2_le (bit_length m1) prec
                ltac:(pose proof (bit_length_bounds m1); lia)).
  pose proof (pow2_pos (e1 - c0) ltac:(lia)).
  pose proof (pow2_pos (e2 - c0) ltac:(lia)).
  assert (Zpos m1 * 2 ^ (e1 - c0) < 2 ^ prec * 2 ^ (e1 - c0)) by nia.
  assert (2 ^ (prec - 1) * 2 ^ (e2 - c0) <= Zpos m2 * 2 ^ (e2 - c0)) by nia.
  assert (2 ^ prec * 2 ^ (e1 - c0) <= 2 ^ (prec - 1) * 2 ^ (e2 - c0)).
  { rewrite <- !pow2_add by lia. apply pow2_le. lia. }
  lia.
Qed.

Lemma SFleb_finite (m1 : positive) (e1 : Z) (m2 : positive) (e2 : Z) :
  SFleb (S754_finite false m1 e1) (S754_finite false m2 e2) = true ->
  e1 < e2 \/ (e1 = e2 /\ Zpos m1 <= Zpos m2).
Proof.
  unfold SFleb, SFcompare.
  destruct (Z.compare_spec e1 e2) as [E|L|G]; intros H.
  - right. split; [assumption|].
    destruct (Pos.compare_cont Eq m1 m2) eqn:C; try discriminate;
      change (Pos.compare_cont Eq m1 m2) with (Pos.compare m1 m2) in C.
    + apply Pos.compare_eq in C. subst. lia.
    + change (m1 < m2)%positive in C. lia.
  - left. assumption.
  - discriminate.
Qed.

Lemma SFltb_finite (m1 : positive) (e1 : Z) (m2 : positive) (e2 : Z) :
  SFltb (S754_finite false m1 e1) (S754_finite false m2 e2) = true ->
  e1 < e2 \/ (e1 = e2 /\ Zpos m1 < Zpos m2).
Proof.
  unfold SFltb, SFcompare.
  destruct (Z.compare_spec e1 e2) as [E|L|G]; intros H.
  - right. split; [assumption|].
    destruct (Pos.compare_cont Eq m1 m2) eqn:C; try discriminate;
      change (Pos.compare_cont Eq m1 m2) with (Pos.compare m1 m2) in C.
    change (m1 < m2)%positive in C. lia.
  - left. assumption.
  - discriminate.
Qed.

(** The value order of two canonical numbers, at any common scale. *)
Lemma SFleb_value (m1 : positive) (e1 : Z) (m2 : positive) (e2 c0 : Z) :
  SpecFloat.valid_binary prec emax (S754_finite false m1 e1) = true ->
  SpecFloat.valid_binary prec emax (S754_finite false m2 e2) = true ->
  c0 <= e1 -> c0 <= e2 ->
  SFleb (S754_finite false m1 e1) (S754_finite false m2 e2) = true ->
  Zpos m1 * 2 ^ (e1 - c0) <= Zpos m2 * 2 ^ (e2 - c0).
Proof.
  intros V1 V2 H1 H2 Hle.
  apply SFleb_finite in Hle as [Hlt|[-> Hm]].
  - pose proof (canon_lt m1 e1 m2 e2 c0 V1 V2 H1 Hlt). lia.
  - pose proof (pow2_pos (e2 - c0) ltac:(lia)). nia.
Qed.

Lemma SFltb_value (m1 : positive) (e1 : Z) (m2 : positive) (e2 c0 : Z) :
  SpecFloat.valid_binary prec emax (S754_finite false m1 e1) = true ->
  SpecFloat.valid_binary prec emax (S754_finite false m2 e2) = true ->
  c0 <= e1 -> c0 <= e2 ->
  SFltb (S754_finite false m1 e1) (S754_finite false m2 e2) = true ->
  Zpos m1 * 2 ^ (e1 - c0) < Zpos m2 * 2 ^ (e2 - c0).
Proof.
  intros V1 V2 H1 H2 Hlt.
  apply SFltb_finite in Hlt as [Hlt|[-> Hm]].
  - exact (canon_lt m1 e1 m2 e2 c0 V1 V2 H1 Hlt).
  - pose proof (pow2_pos (e2 - c0) ltac:(lia)). nia.
Qed.


(** The rounded value is the value rounded to a multiple of the unit of
    its magnitude. *)
Lemma rounded_multiple (m : positive) (e c0 : Z) :
  c0 <= e -> c0 <= 3 - emax - prec ->
  rounded prec emax m e c0
  = round_to_multiple (Zpos m * 2 ^ (e - c0))
      (2 ^ (fexp prec emax (bit_length m + e) - c0)).
Proof.
  intros Hc Hc'. unfold rounded, round_to_multiple.
  set (F := fexp prec emax (bit_length m + e)).
  assert (HF : 3 - emax - prec <= F) by (unfold F; rewrite fexp_eq; lia).
  destruct (Z.le_gt_cases F e) as [Hle|Hgt].
  - rewrite Z.max_l by lia. rewrite Z.sub_diag. change (2 ^ 0) with 1.
    rewrite <- (Z.mul_1_r (Zpos m)) at 1. rewrite round_half_even_mult by lia.
    replace (e - c0) with ((e - F) + (F - c0)) by lia.
    rewrite pow2_add by lia. rewrite Z.mul_assoc.
    rewrite round_half_even_mult by (apply pow2_pos; lia). reflexivity.
  - rewrite Z.max_r by lia.
    replace (F - c0) with ((F - e) + (e - c0)) at 2 by lia.
    rewrite pow2_add by lia.
    rewrite round_half_even_scale by (apply pow2_pos; lia).
    reflexivity.
Qed.

Lemma rounded_mono (m1 : positive) (e1 : Z) (m2 : positive) (e2 c0 : Z) :
  c0 <= e1 -> c0 <= e2 -> c0 <= 3 - emax - prec ->
  Zpos m1 * 2 ^ (e1 - c0) <= Zpos m2 * 2 ^ (e2 - c0) ->
  rounded prec emax m1 e1 c0 <= rounded prec emax m2 e2 c0.
Proof.
  intros H1 H2 H3 Hle. rewrite !rounded_multiple by assumption.
  rewrite !fexp_eq.
  pose proof (bit_length_bounds m1) as [Hd1 Hb1].
  pose proof (bit_length_bounds m2) as [Hd2 Hb2].
  apply round_value_mono; assumption || lia.
Qed.




Lemma rounded_value (m : positive) (e c0 : Z) (mC : positive) (eC : Z) :
  c0 <= e ->
  let E := Z.max e (fexp prec emax (bit_length m + e)) in
  E <= eC ->
  Zpos mC * 2 ^ (eC - E) = F64.round_half_even (Zpos m) (2 ^ (E - e)) ->
  rounded prec emax m e c0 = Zpos mC * 2 ^ (eC - c0).
Proof.
  intros Hc E HE Hv. unfold rounded. fold E. rewrite <- Hv.
  rewrite <- Z.mul_assoc, <- pow2_add by lia. do 2 f_equal. lia.
Qed.

(** Rounding keeps the order of the values. *)
Lemma round_exact_mono (m1 : positive) (e1 : Z) (m2 : positive) (e2 : Z) :
  let c0 := Z.min (Z.min e1 e2) (3 - emax - prec) in
  Zpos m1 * 2 ^ (e1 - c0) <= Zpos m2 * 2 ^ (e2 - c0) ->
  SpecFloat.valid_binary prec emax
    (binary_round_aux prec emax false (Z.pos m1) e1 loc_Exact) = true ->
  SpecFloat.valid_binary prec emax
    (binary_round_aux prec emax false (Z.pos m2) e2 loc_Exact) = true ->
  ~ (bit_length m1 <= prec /\ emax - prec < e1) ->
  SFltb (binary_round_aux prec emax false (Z.pos m2) e2 loc_Exact)
        (binary_round_aux prec emax false (Z.pos m1) e1 loc_Exact) = false.
Proof.
  intros c0 Hle V1 V2 Hsp.
  assert (Hc1 : c0 <= e1) by (unfold c0; lia).
  assert (Hc2 : c0 <= e2) by (unfold c0; lia).
  assert (Hc3 : c0 <= 3 - emax - prec) by (unfold c0; lia).
  pose proof (rounded_mono m1 e1 m2 e2 c0 Hc1 Hc2 Hc3 Hle)
    as HO.
  destruct (binary_round_aux_cases m1 e1)
    as [[Ho1 Hz1] | [(mC1 & eC1 & Ho1 & HE1 & Hv1)
                    | (Ho1 & mC1 & eC1 & HE1 & Hv1 & Hov1 & Hbig1)]];
    destruct (binary_round_aux_cases m2 e2)
      as [[Ho2 Hz2] | [(mC2 & eC2 & Ho2 & HE2 & Hv2)
                      | (Ho2 & mC2 & eC2 & HE2 & Hv2 & Hov2 & Hbig2)]];
    rewrite Ho1, Ho2 in *; try reflexivity.
  - (* finite, zero *)
    exfalso.
    rewrite (rounded_value m1 e1 c0 mC1 eC1 Hc1 HE1 Hv1) in HO.
    unfold rounded in HO. rewrite Hz2 in HO.
    pose proof (pow2_pos (eC1 - c0) ltac:(lia)). nia.
  - (* finite, finite *)
    destruct (SFltb (S754_finite false mC2 eC2) (S754_finite false mC1 eC1))
      eqn:Hlt; [|reflexivity].
    exfalso.
    rewrite (rounded_value m1 e1 c0 mC1 eC1 Hc1 HE1 Hv1) in HO.
    rewrite (rounded_value m2 e2 c0 mC2 eC2 Hc2 HE2 Hv2) in HO.
    pose proof (SFltb_value mC2 eC2 mC1 eC1 c0 V2 V1
                  ltac:(lia) ltac:(lia) Hlt).
    lia.
  - (* infinity, zero *)
    exfalso.
    rewrite (rounded_value m1 e1 c0 mC1 eC1 Hc1 HE1 Hv1) in HO.
    unfold rounded in HO. rewrite Hz2 in HO.
    pose proof (pow2_pos (eC1 - c0) ltac:(lia)). nia.
  - (* infinity, finite *)
    exfalso.
    rewrite (rounded_value m1 e1 c0 mC1 eC1 Hc1 HE1 Hv1) in HO.
    rewrite (rounded_value m2 e2 c0 mC2 eC2 Hc2 HE2 Hv2) in HO.
    destruct Hbig1 as [Hbig1|[He Hd]]; [|apply Hsp; split; lia].
    apply valid_finite in V2 as (Hd2 & He2 & _).
    pose proof (bit_length_bounds mC2) as [Hd2' [_ Hm2]].
    pose proof (pow2_le (bit_length mC2) prec ltac:(lia)).
    pose proof (pow2_pos (eC2 - c0) ltac:(lia)).
    pose proof (pow2_pos (eC1 - c0) ltac:(lia)).
    assert (Zpos mC2 * 2 ^ (eC2 - c0) < 2 ^ prec * 2 ^ (eC2 - c0))
      by (apply Z.mul_lt_mono_pos_r; lia).
    assert (2 ^ (prec - 1) * 2 ^ (eC1 - c0) <= Zpos mC1 * 2 ^ (eC1 - c0))
      by (apply Z.mul_le_mono_nonneg_r; lia).
    assert (2 ^ prec * 2 ^ (eC2 - c0) <= 2 ^ (prec - 1) * 2 ^ (eC1 - c0)).
    { rewrite <- !pow2_add by lia. apply pow2_le. lia. }
    lia.
Qed.


(** A product has at least the digits of its factors, less one. *)
Lemma bit_length_mul (m1 m2 : positive) :
  bit_length m1 + bit_length m2 - 1 <= bit_length (m1 * m2).
Proof.
  pose proof (bit_length_bounds m1) as [H1 [L1 _]].
  pose proof (bit_length_bounds m2) as [H2 [L2 _]].
  pose proof (bit_length_bounds (m1 * m2)) as [H3 [_ U3]].
  rewrite Pos2Z.inj_mul in U3.
  assert (2 ^ (bit_length m1 - 1) * 2 ^ (bit_length m2 - 1) <= Zpos m1 * Zpos m2).
  { pose proof (pow2_pos (bit_length m1 - 1) ltac:(lia)).
    pose proof (pow2_pos (bit_length m2 - 1) ltac:(lia)). nia. }
  rewrite <- pow2_add in H by lia.
  assert (2 ^ (bit_length m1 - 1 + (bit_length m2 - 1))
          < 2 ^ bit_length (m1 * m2)) by lia.
  apply pow2_lt_inv in H0; lia.
Qed.


Lemma binary_round_aux_nonneg (m e : Z) (l : location) :
  nonnegSF (binary_round_aux prec emax false m e l) = true.
Proof.
  unfold binary_round_aux.
  destruct (shr_fexp prec emax m e l) as [mrs e'].
  destruct (shr_fexp prec emax _ e' loc_Exact) as [mrs2 e2].
  destruct (shr_m mrs2); [reflexivity| |reflexivity].
  destruct (e2 <=? emax - prec); reflexivity.
Qed.

Lemma SFltb_nonneg_zero (x : spec_float) :
  nonnegSF x = true -> SFltb x (S754_zero false) = false.
Proof. destruct x as [[|]|[|]| |[|] m e]; try discriminate; reflexivity. Qed.

Lemma SFltb_inf_l (x : spec_float) : SFltb (S754_infinity false) x = false.
Proof. destruct x as [[|]|[|]| |[|] m e]; reflexivity. Qed.

(** Multiplication by a positive number keeps the order of two positive
    numbers. *)
Lemma SFmul_finite_mono (mx : positive) (ex : Z) (my : positive) (ey : Z)
    (mc : positive) (ec : Z) :
  let x := S754_finite false mx ex in
  let y := S754_finite false my ey in
  let c := S754_finite false mc ec in
  SpecFloat.valid_binary prec emax x = true ->
  SpecFloat.valid_binary prec emax y = true ->
  SpecFloat.valid_binary prec emax c = true ->
  SFleb x y = true ->
  SpecFloat.valid_binary prec emax (SFmul prec emax x c) = true ->
  SpecFloat.valid_binary prec emax (SFmul prec emax y c) = true ->
  SFltb (SFmul prec emax y c) (SFmul prec emax x c) = false.
Proof.
  intros x y c Vx Vy Vc Hle V1 V2. unfold x, y, c in *.
  cbn [SFmul xorb] in *.
  pose proof (valid_finite _ _ _ Vx) as (Hdx & Hex & Hnx).
  pose proof (valid_finite _ _ _ Vy) as (Hdy & Hey & Hny).
  pose proof (valid_finite _ _ _ Vc) as (Hdc & Hec & Hnc).
  apply round_exact_mono; try assumption.
  - set (c0 := Z.min (Z.min (ex + ec) (ey + ec)) (3 - emax - prec)).
    pose proof (SFleb_value mx ex my ey (c0 - ec) Vx Vy
                  ltac:(unfold c0; lia) ltac:(unfold c0; lia) Hle) as Hv.
    replace (ex - (c0 - ec)) with (ex + ec - c0) in Hv by lia.
    replace (ey - (c0 - ec)) with (ey + ec - c0) in Hv by lia.
    rewrite !Pos2Z.inj_mul.
    pose proof (pow2_pos (ex + ec - c0) ltac:(unfold c0; lia)).
    pose proof (pow2_pos (ey + ec - c0) ltac:(unfold c0; lia)).
    nia.
  - intros [Hd Hov]. pose proof (bit_length_mul mx mc).
    pose proof (bit_length_bounds mx) as [? _].
    pose proof (bit_length_bounds mc) as [? _].
    lia.
Qed.

(** The same among zeros, positive numbers and plus infinity. *)
Lemma SFmul_mono (x y c : spec_float) :
  SpecFloat.valid_binary prec emax x = true ->
  SpecFloat.valid_binary prec emax y = true ->
  SpecFloat.valid_binary prec emax c = true ->
  nonnegSF x = true -> nonnegSF y = true -> nonnegSF c = true ->
  SFleb x y = true ->
  SpecFloat.valid_binary prec emax (SFmul prec emax x c) = true ->
  SpecFloat.valid_binary prec emax (SFmul prec emax y c) = true ->
  SFltb (SFmul prec emax y c) (SFmul prec emax x c) = false.
Proof.
  intros Vx Vy Vc Nx Ny Nc Hle V1 V2.
  destruct x as [[|]|[|]| |[|] mx ex]; try discriminate;
    destruct y as [[|]|[|]| |[|] my ey]; try discriminate;
    destruct c as [[|]|[|]| |[|] mc ec]; try discriminate;
    try reflexivity;
    first [ now apply SFmul_finite_mono
          | cbn [SFmul xorb];
            first [ apply SFltb_nonneg_zero, binary_round_aux_nonneg
                  | apply SFltb_inf_l ] ].
Qed.

Lemma SFmul_comm (x y : spec_float) : SFmul prec emax x y = SFmul prec emax y x.
Proof.
  destruct x as [[|]|[|]| |[|] mx ex]; destruct y as [[|]|[|]| |[|] my ey];
    cbn [SFmul xorb]; try reflexivity;
    now rewrite Pos.mul_comm, Z.add_comm.
Qed.

Lemma SFmul_nonneg (x y : spec_float) :
  nonnegSF x = true -> nonnegSF y = true ->
  nonnegSF (SFmul prec emax x y) = true.
Proof.
  destruct x as [[|]|[|]| |[|] mx ex]; try discriminate;
    destruct y as [[|]|[|]| |[|] my ey]; try discriminate; intros _ _;
    try reflexivity.
  cbn [SFmul xorb]. apply binary_round_aux_nonneg.
Qed.

Lemma SFdiv_nonneg (x y : spec_float) :
  nonnegSF x = true -> nonnegSF y = true ->
  nonnegSF (SFdiv prec emax x y) = true.
Proof.
  destruct x as [[|]|[|]| |[|] mx ex]; try discriminate;
    destruct y as [[|]|[|]| |[|] my ey]; try discriminate; intros _ _;
    try reflexivity.
  cbn [SFdiv xorb].
  destruct (SFdiv_core_binary prec emax (Zpos mx) ex (Zpos my) ey)
    as [[mz ez] lz].
  apply binary_round_aux_nonneg.
Qed.

Lemma SFcompare_antisym (x y : spec_float) :
  SFcompare y x = option_map CompOpp (SFcompare x y).
Proof.
  destruct x as [[|]|[|]| |[|] mx ex]; destruct y as [[|]|[|]| |[|] my ey];
    try reflexivity; cbn [SFcompare option_map];
    change (Pos.compare_cont Eq my mx) with (Pos.compare my mx);
    change (Pos.compare_cont Eq mx my) with (Pos.compare mx my);
    rewrite (Z.compare_antisym ex ey), (Pos.compare_antisym mx my);
    destruct (ex ?= ey); destruct (mx ?= my)%positive; reflexivity.
Qed.

(** Between two numbers, [y] not below [x] means [x <= y]. *)
Lemma SFltb_false_leb (x y : spec_float) :
  x <> S754_nan -> y <> S754_nan ->
  SFltb y x = false -> SFleb x y = true.
Proof.
  intros Hx Hy. unfold SFltb, SFleb. rewrite (SFcompare_antisym x y).
  destruct (SFcompare x y) as [[| |]|] eqn:C; cbn;
    try reflexivity; try discriminate.
  destruct x as [[|]|[|]| |[|] mx ex]; destruct y as [[|]|[|]| |[|] my ey];
    try discriminate; congruence.
Qed.

Lemma SFltb_nan_l (x : spec_float) : SFltb S754_nan x = false.
Proof. reflexivity. Qed.

Lemma SFltb_nan_r (x : spec_float) : SFltb x S754_nan = false.
Proof. destruct x as [[|]|[|]| |[|] mx ex]; reflexivity. Qed.

Lemma SFmul_nan_l (y : spec_float) : SFmul prec emax S754_nan y = S754_nan.
Proof. reflexivity. Qed.

End Rounding.

(** ** binary64: signs and order *)

Lemma binary64_prec : 2 <= prec.
Proof. unfold prec. lia. Qed.

Lemma binary64_emax : 2 <= emax.
Proof. unfold emax. lia. Qed.

Lemma mul_nonneg (a b : float) :
  nonneg a = true -> nonneg b = true -> nonneg (PrimFloat.mul a b) = true.
Proof. unfold nonneg. rewrite mul_spec. apply SFmul_nonneg. Qed.

Lemma div_nonneg (a b : float) :
  nonneg a = true -> nonneg b = true -> nonneg (PrimFloat.div a b) = true.
Proof. unfold nonneg. rewrite div_spec. apply SFdiv_nonneg. Qed.

Lemma mul_comm (a b : float) : PrimFloat.mul a b = PrimFloat.mul b a.
Proof. apply Prim2SF_inj. rewrite !mul_spec. apply SFmul_comm. Qed.

Lemma leb_ltb (a b : float) :
  PrimFloat.leb a b = true -> PrimFloat.ltb b a = false.
Proof.
  rewrite leb_spec, ltb_spec. unfold SFleb, SFltb.
  rewrite (SFcompare_antisym (Prim2SF a) (Prim2SF b)).
  destruct (SFcompare (Prim2SF a) (Prim2SF b)) as [[| |]|];
    cbn; congruence.
Qed.

(** Multiplying by a non-negative number keeps the order: if [b] is not
    below [a], then [b * c] is not below [a * c]. *)
Lemma mul_mono (a b c : float) :
  nonneg a = true -> nonneg b = true -> nonneg c = true ->
  PrimFloat.ltb b a = false ->
  PrimFloat.ltb (PrimFloat.mul b c) (PrimFloat.mul a c) = false.
Proof.
  unfold nonneg. intros Na Nb Nc. rewrite !ltb_spec. intros Hlt.
  pose proof (Prim2SF_valid (PrimFloat.mul a c)) as V1.
  pose proof (Prim2SF_valid (PrimFloat.mul b c)) as V2.
  rewrite mul_spec in V1, V2. rewrite !mul_spec. unfold SF64mul in *.
  destruct (Prim2SF a) as [sa|sa| |sa ma ea] eqn:Ea;
    [| |apply SFltb_nan_r|];
    (destruct (Prim2SF b) as [sb|sb| |sb mb eb] eqn:Eb; [| |reflexivity|]);
    rewrite <- Ea, <- Eb in *;
    (apply (SFmul_mono prec emax binary64_prec binary64_emax);
     [apply Prim2SF_valid | apply Prim2SF_valid | apply Prim2SF_valid
     | assumption | assumption | assumption
     | apply SFltb_false_leb; [rewrite Ea | rewrite Eb | ]; congruence
     | assumption | assumption]).
Qed.

Lemma binary_round_nonneg (m : positive) (e : Z) :
  nonnegSF (binary_round prec emax false m e) = true.
Proof.
  unfold binary_round.
  destruct (shl_align m e _) as [mz ez]. apply binary_round_aux_nonneg.
Qed.

Lemma binary_normalize_nonneg (z e : Z) :
  0 <= z -> nonnegSF (binary_normalize prec emax z e false) = true.
Proof.
  intros Hz. destruct z as [|p|p]; [reflexivity| |lia].
  apply binary_round_nonneg.
Qed.

(** The conversion to binary64 keeps a sign bit that is clear. *)
Lemma SF2Prim_nonneg (x : spec_float) :
  nonnegSF x = true -> nonneg (SF2Prim x) = true.
Proof.
  destruct x as [[|]|[|]| |[|] m e]; try discriminate; intros _;
    try reflexivity.
  unfold nonneg. cbn [SF2Prim].
  rewrite Z_ldexp_spec, of_uint63_spec.
  pose proof (Uint63.to_Z_bounded (Uint63Axioms.of_Z (Zpos m))) as [Hz _].
  pose proof (binary_normalize_nonneg _ 0 Hz) as Hn.
  destruct (binary_normalize prec emax _ 0 false) as [[|]|[|]| |[|] m' e'];
    try discriminate; try reflexivity.
  cbn [SFldexp]. apply binary_round_nonneg.
Qed.

Lemma of_int_nonneg (n : Z) : 0 <= n -> nonneg (F64.of_int n) = true.
Proof.
  intros Hn. apply SF2Prim_nonneg. now apply binary_normalize_nonneg.
Qed.

Lemma int_truediv_nonneg (a b : Z) (q : float) :
  0 <= a -> 0 < b -> F64.int_truediv a b = Ok q -> nonneg q = true.
Proof.
  intros Ha Hb. unfold F64.int_truediv.
  destruct (b =? 0); [discriminate|].
  assert (Hn : nonnegSF (SFdiv prec emax (F64.Z2SF a) (F64.Z2SF b)) = true).
  { apply (SFdiv_nonneg prec emax).
    - destruct a; try lia; reflexivity.
    - destruct b; try lia; reflexivity. }
  set (q0 := SFdiv prec emax (F64.Z2SF a) (F64.Z2SF b)) in *.
  intros Hq.
  assert (Eq : q = SF2Prim q0)
    by (destruct q0; try discriminate; now injection Hq).
  rewrite Eq. now apply SF2Prim_nonneg.
Qed.

Lemma truediv_nonneg (x y q : float) :
  nonneg x = true -> nonneg y = true -> F64.truediv x y = Ok q ->
  nonneg q = true.
Proof.
  intros Hx Hy Hq. apply F64_truediv_Ok in Hq as [_ ->]. now apply div_nonneg.
Qed.

Lemma leb_0_false_nonneg (x : float) :
  PrimFloat.leb x 0 = false -> nonneg x = true.
Proof.
  rewrite leb_spec. unfold nonneg.
  change (Prim2SF 0) with (S754_zero false).
  destruct (Prim2SF x) as [[|]|[|]| |[|] m e]; cbv; congruence.
Qed.

(** ** Annual savings *)

Create HintDb nonneg.

#[local] Hint Resolve mul_nonneg div_nonneg of_int_nonneg leb_0_false_nonneg
  : nonneg.

#[local] Hint Extern 1 (0 <= _) => lia : nonneg.


Lemma fold_digits_nonneg (t : list ascii) :
  forall acc,
    0 <= acc -> forallb is_digit t = true ->
    0 <= fold_left (fun a c => 10 * a + digit_value c) t acc.
Proof.
  induction t as [|c t IH]; intros acc Hacc Ht;
    cbn [fold_left forallb] in *; [assumption|].
  apply andb_true_iff in Ht as [Hc Ht]. apply IH; [|assumption].
  unfold is_digit in Hc. apply andb_true_iff in Hc as [Hc _].
  apply N.leb_le in Hc. unfold digit_value. lia.
Qed.

Lemma decimal_value_nonneg (t : list ascii) :
  digits t -> 0 <= decimal_value t.
Proof. intros [_ Ht]. apply fold_digits_nonneg; [lia|assumption]. Qed.

(** A number that the parser returns is the minutes of a duration of the
    string whose three components [int] converts. *)
Lemma parse_time_string_Some (time_str : string) (v : Z) :
  parse_time_string time_str = Ok (Some v) ->
  exists pre d w1 h w2 m post,
    list_ascii_of_string time_str = pre ++ duration_text d w1 h w2 m ++ post
    /\ well_formed d w1 h w2 m
    /\ within_limit d = true /\ within_limit h = true
    /\ within_limit m = true
    /\ v = decimal_value d * 24 * 60 + decimal_value h * 60
           + decimal_value m.
Proof.
  intros Hp.
  destruct (search pattern (list_ascii_of_string time_str)) as [gs|] eqn:Hs.
  - destruct (search_pattern_duration _ _ Hs)
      as (pre & d & w1 & h & w2 & m & post & Hwf & E & ->).
    rewrite (parse_time_string_groups _ _ _ _ Hs) in Hp.
    destruct (within_limit d) eqn:Ld; [|discriminate].
    destruct (within_limit h) eqn:Lh; [|discriminate].
    destruct (within_limit m) eqn:Lm; [|discriminate].
    injection Hp as <-.
    exists pre, d, w1, h, w2, m, post. auto 10.
  - unfold parse_time_string in Hp. rewrite Hs in Hp. discriminate.
Qed.

Lemma parse_time_string_nonneg (time_str : string) (v : Z) :
  parse_time_string time_str = Ok (Some v) -> 0 <= v.
Proof.
  intros Hp.
  apply parse_time_string_Some in Hp
    as (pre & d & w1 & h & w2 & m & post & _ & Hwf & _ & _ & _ & ->).
  destruct Hwf as (Hd & _ & Hh & _ & Hm).
  pose proof (decimal_value_nonneg d Hd).
  pose proof (decimal_value_nonneg h Hh).
  pose proof (decimal_value_nonneg m Hm). lia.
Qed.

(** Checked on all pairs of slider positions 0..100. *)
Lemma tabla_porcentajes :
  forallb (fun p1 => forallb (cocientes_en_orden p1) (range 0 101))
          (range 0 101) = true.
Proof. vm_compute. reflexivity. Qed.

(** On the slider's range the quotient [p / 100] increases with [p]. *)
Lemma porcentaje_mono (p1 p2 : Z) (a b : float) :
  0 <= p1 -> p1 <= p2 -> p2 <= 100 ->
  F64.int_truediv p1 100 = Ok a -> F64.int_truediv p2 100 = Ok b ->
  PrimFloat.leb a b = true.
Proof.
  intros H0 H12 H100 Ea Eb.
  assert (H1 : In p1 (range 0 101)) by (apply in_range; lia).
  assert (H2 : In p2 (range 0 101)) by (apply in_range; lia).
  pose proof (proj1 (forallb_forall _ _)
                (proj1 (forallb_forall _ _) tabla_porcentajes p1 H1) p2 H2)
    as T.
  unfold cocientes_en_orden in T. rewrite Ea, Eb in T.
  rewrite (proj2 (Z.leb_le p1 p2) H12) in T. exact T.
Qed.

(** The annual fleet loss of a stored calculation is non-negative (or not
    a number), and does not depend on the reduction slider. *)
Lemma merma_anual_nonneg (inp : Entradas) (ss : SessionState) :
  0 <= num_unidades inp -> 0 <= duration_days inp ->
  calcular inp = Calculado ss ->
  nonneg (merma_anual (mermas ss)) = true.
Proof.
  intros Hn Hd Hc.
  apply calcular_Calculado in Hc as (i & m & Pi & Pm & Hf & Hp & Ht & Hc).
  apply parse_time_string_nonneg in Pi, Pm.
  apply calculos_Ok in Hc as (Hc & _).
  apply calcular_mermas_Ok in Hc
    as (q_idle & q_moving & f_idle & f_moving & r_red & r_real
        & E1 & E2 & _ & _ & E3 & E4 & _ & _ & E5 & _ & _ & E6 & E7 & _ & _
        & E8 & _).
  apply int_truediv_nonneg in E1; [|lia|lia].
  apply F64_truediv_Ok in E3 as [_ E3].
  apply F64_truediv_Ok in E7 as [_ E7].
  rewrite E8, E7, E6, E5, E4, E3, E2.
  cbn [mul of_int PyNum_float].
  auto 10 with nonneg.
Qed.

Lemma merma_anual_con_reduccion (inp : Entradas) (p1 p2 : Z)
    (ss1 ss2 : SessionState) :
  calcular (con_reduccion inp p1) = Calculado ss1 ->
  calcular (con_reduccion inp p2) = Calculado ss2 ->
  merma_anual (mermas ss1) = merma_anual (mermas ss2).
Proof.
  intros H1 H2.
  apply calcular_Calculado in H1 as (i1 & m1 & Pi1 & Pm1 & _ & _ & _ & H1).
  apply calcular_Calculado in H2 as (i2 & m2 & Pi2 & Pm2 & _ & _ & _ & H2).
  cbn [con_reduccion idle_time moving_time] in Pi1, Pm1, Pi2, Pm2.
  rewrite Pi1 in Pi2. rewrite Pm1 in Pm2.
  injection Pi2 as <-. injection Pm2 as <-.
  apply calculos_Ok in H1 as (H1 & _). apply calculos_Ok in H2 as (H2 & _).
  cbn [con_reduccion combustible_total precio_litro num_unidades
       costo_por_pieza renta_mensual porcentaje_reduccion
       porcentaje_ralenti_real duration_days] in H1, H2.
  apply calcular_mermas_Ok in H1
    as (q1 & ? & f1 & ? & ? & ?
        & A1 & A2 & _ & _ & A3 & A4 & _ & _ & A5 & _ & _ & A6 & A7 & _ & _
        & A8 & _).
  apply calcular_mermas_Ok in H2
    as (q2 & ? & f2 & ? & ? & ?
        & B1 & B2 & _ & _ & B3 & B4 & _ & _ & B5 & _ & _ & B6 & B7 & _ & _
        & B8 & _).
  rewrite A1 in B1. injection B1 as <-.
  rewrite <- A2 in B2. rewrite B2 in B3. rewrite A3 in B3. injection B3 as <-.
  rewrite <- A4 in B4. rewrite B4, <- A5 in B5.
  rewrite B5, <- A6 in B6. rewrite B6, A7 in B7. injection B7 as B7.
  rewrite A8, B8. now rewrite B7.
Qed.

(** C8. Between two stored calculations whose inputs differ only in the
    reduction percentage, both percentages in 0..100, with at least one
    unit and a period of at least one day, the larger reduction never
    yields the smaller annual savings; the annual savings are the annual
    fleet loss times [porcentaje_reduccion / 100] times
    [porcentaje_ralenti_real / 100]. *)
Theorem ahorro_anual_monotone (inp : Entradas) (p1 p2 : Z)
    (ss1 ss2 : SessionState) :
  0 <= p1 -> p1 <= p2 -> p2 <= 100 ->
  0 <= porcentaje_ralenti_real inp <= 100 ->
  1 <= num_unidades inp -> 1 <= duration_days inp ->
  calcular (con_reduccion inp p1) = Calculado ss1 ->
  calcular (con_reduccion inp p2) = Calculado ss2 ->
  (exists r1 r2 r_real,
      F64.int_truediv p1 100 = Ok r1
      /\ F64.int_truediv p2 100 = Ok r2
      /\ F64.int_truediv (porcentaje_ralenti_real inp) 100 = Ok r_real
      /\ ahorro_anual (mermas ss1)
         = PrimFloat.mul (PrimFloat.mul (merma_anual (mermas ss1)) r1) r_real
      /\ ahorro_anual (mermas ss2)
         = PrimFloat.mul (PrimFloat.mul (merma_anual (mermas ss2)) r2) r_real)
  /\ PrimFloat.ltb (ahorro_anual (mermas ss2)) (ahorro_anual (mermas ss1))
     = false.
Proof.
  intros Hp0 Hp12 Hp100 Hprr Hn Hd H1 H2.
  pose proof (merma_anual_con_reduccion inp p1 p2 ss1 ss2 H1 H2) as HM.
  assert (NM : nonneg (merma_anual (mermas ss1)) = true).
  { apply (merma_anual_nonneg (con_reduccion inp p1)); [| |assumption];
      cbn [con_reduccion num_unidades duration_days]; lia. }
  apply calcular_Calculado in H1 as (? & ? & _ & _ & _ & _ & _ & H1).
  apply calcular_Calculado in H2 as (? & ? & _ & _ & _ & _ & _ & H2).
  apply calculos_Ok in H1 as (H1 & _). apply calculos_Ok in H2 as (H2 & _).
  cbn [con_reduccion combustible_total precio_litro num_unidades
       costo_por_pieza renta_mensual porcentaje_reduccion
       porcentaje_ralenti_real duration_days] in H1, H2.
  apply calcular_mermas_Ok in H1
    as (? & ? & ? & ? & r1 & c1
        & _ & _ & _ & _ & _ & _ & _ & _ & _ & _ & _ & _ & _ & _ & _
        & _ & _ & _ & _ & _ & _ & A1 & A2 & A3 & _).
  apply calcular_mermas_Ok in H2
    as (? & ? & ? & ? & r2 & c2
        & _ & _ & _ & _ & _ & _ & _ & _ & _ & _ & _ & _ & _ & _ & _
        & _ & _ & _ & _ & _ & _ & B1 & B2 & B3 & _).
  cbn [int_truediv PyNum_float] in A1, A2, B1, B2.
  rewrite A2 in B2. injection B2 as <-.
  split.
  - exists r1, r2, c1. repeat (split; [assumption|]). assumption.
  - rewrite A3, B3, <- HM. cbn [mul PyNum_float].
    pose proof (int_truediv_nonneg p1 100 r1 Hp0 ltac:(lia) A1) as N1.
    pose proof (int_truediv_nonneg p2 100 r2 ltac:(lia) ltac:(lia) B1) as N2.
    pose proof (int_truediv_nonneg (porcentaje_ralenti_real inp) 100 c1
                  ltac:(lia) ltac:(lia) A2) as Nc.
    apply mul_mono; try assumption; try (now apply mul_nonneg).
    rewrite (mul_comm _ r2), (mul_comm _ r1).
    apply mul_mono; try assumption.
    apply leb_ltb. exact (porcentaje_mono p1 p2 r1 r2 Hp0 Hp12 Hp100 A1 B1).
Qed.

(** The sample inputs with the slider at 20 and at 35. *)
Lemma ahorro_anual_monotone_witness :
  exists ss1 ss2,
    calcular (con_reduccion entradas_ejemplo 20) = Calculado ss1
    /\ calcular (con_reduccion entradas_ejemplo 35) = Calculado ss2
    /\ PrimFloat.ltb (ahorro_anual (mermas ss2)) (ahorro_anual (mermas ss1))
       = false.
Proof.
  destruct (calcular (con_reduccion entradas_ejemplo 20))
    as [| | | | |ss1|] eqn:H1; try (vm_compute in H1; discriminate).
  destruct (calcular (con_reduccion entradas_ejemplo 35))
    as [| | | | |ss2|] eqn:H2; try (vm_compute in H2; discriminate).
  exists ss1, ss2. split; [reflexivity|]. split; [reflexivity|].
  apply (proj2 (ahorro_anual_monotone entradas_ejemplo 20 35 ss1 ss2
                  ltac:(lia) ltac:(lia) ltac:(lia)
                  ltac:(simpl; lia) ltac:(simpl; lia) ltac:(simpl; lia)
                  H1 H2)).
Defined.

(** * Further properties of the code *)

(** ** [parse_time_string] beyond the exact format *)

Lemma length_list_ascii_of_string (s : string) :
  List.length (list_ascii_of_string s) = String.length s.
Proof. induction s as [|a s IH]; cbn; [reflexivity|now rewrite IH]. Qed.

(** A component of a duration is no longer than the text around it. *)
Lemma within_limit_short (pre d w1 h w2 m post : list ascii) :
  Z.of_nat (List.length (pre ++ duration_text d w1 h w2 m ++ post))
  <= int_max_str_digits ->
  within_limit d = true /\ within_limit h = true /\ within_limit m = true.
Proof.
  unfold within_limit, duration_text. intros H.
  repeat (rewrite ?length_app in H; cbn [List.length] in H).
  repeat split; apply Z.leb_le; lia.
Qed.

(** What the parser does on a string that holds a duration: it returns a
    number or raises [ValueError], and raises only when the string is
    longer than the limit of [int]. *)
Lemma parse_time_string_has_duration (time_str : string) :
  has_duration time_str ->
  (exists v, parse_time_string time_str = Ok (Some v))
  \/ (parse_time_string time_str = Raise ValueError
      /\ int_max_str_digits < Z.of_nat (String.length time_str)).
Proof.
  intros (pre & d & w1 & h & w2 & m & post & Hwf & E).
  destruct (search_complete pattern pre (duration_text d w1 h w2 m)
              [d; h; m] post) as [gs Hs].
  { apply denotes_pattern. exists d, w1, h, w2, m. auto. }
  rewrite <- E in Hs.
  destruct (search_pattern_duration _ _ Hs)
    as (pre' & d' & w1' & h' & w2' & m' & post' & _ & E' & ->).
  rewrite (parse_time_string_groups _ _ _ _ Hs).
  destruct (within_limit d' && within_limit h' && within_limit m') eqn:L;
    [eauto|].
  right. split; [reflexivity|].
  destruct (Z.lt_ge_cases int_max_str_digits
              (Z.of_nat (String.length time_str))) as [|Hle];
    [assumption|exfalso].
  rewrite <- length_list_ascii_of_string, E' in Hle.
  apply within_limit_short in Hle as (A & B & C).
  rewrite A, B, C in L. discriminate.
Qed.


(** X1. The parser answers [None] exactly on the strings that hold no
    duration.  On a string that holds one somewhere it returns a number
    or raises [ValueError], and it raises only if the string has more
    than 4300 characters; so on a string of at most 4300 characters it
    returns a number exactly when the string holds a duration. *)
Theorem parse_time_string_accepts (time_str : string) :
  (parse_time_string time_str = Ok None <-> ~ has_duration time_str)
  /\
  (has_duration time_str ->
   (exists v, parse_time_string time_str = Ok (Some v))
   \/ (parse_time_string time_str = Raise ValueError
       /\ int_max_str_digits < Z.of_nat (String.length time_str)))
  /\
  (Z.of_nat (String.length time_str) <= int_max_str_digits ->
   (has_duration time_str <->
    exists v, parse_time_string time_str = Ok (Some v))).
Proof.
  split; [apply parse_time_string_None_iff|].
  split; [apply parse_time_string_has_duration|].
  intros Hlen. split.
  - intros Hd.
    destruct (parse_time_string_has_duration _ Hd) as [Hv|[_ Hl]];
      [assumption|lia].
  - intros [v Hv].
    destruct (parse_time_string_Some _ _ Hv)
      as (pre & d & w1 & h & w2 & m & post & E & Hwf & _).
    exists pre, d, w1, h, w2, m, post. auto.
Qed.

(** A duration after a word: a number is returned. *)
Lemma parse_time_string_accepts_witness :
  exists v, parse_time_string "Total (1D,22H,8M)" = Ok (Some v).
Proof.
  apply (proj2 (proj2 (parse_time_string_accepts "Total (1D,22H,8M)"))).
  - vm_compute. discriminate.
  - exists (list_ascii_of_string "Total "),
      ["1"]%char, [], ["2"; "2"]%char, [], ["8"]%char, [].
    split; [|reflexivity].
    repeat split; try discriminate; reflexivity.
Defined.

(** Where no duration starts, the pattern does not match. *)
Lemma match_here_None (s : list ascii) :
  ~ starts_with_duration s -> match_here pattern s = None.
Proof.
  intros Hn.
  destruct (match_here pattern s) as [gs|] eqn:Hm; [|reflexivity].
  exfalso. apply Hn.
  apply match_here_sound in Hm as (w & r & -> & Hd).
  apply denotes_pattern in Hd as (d & w1 & h & w2 & m & Hwf & -> & _).
  exists d, w1, h, w2, m, r. auto.
Qed.

Lemma match_here_Some (s : list ascii) :
  starts_with_duration s -> match_here pattern s <> None.
Proof.
  intros (d & w1 & h & w2 & m & post & Hwf & ->).
  now rewrite match_here_duration.
Qed.

(** The search goes past the positions where no duration starts. *)
Lemma search_none_starts_in (pre rest : list ascii) :
  none_starts_in pre rest ->
  search pattern (pre ++ rest) = search pattern rest.
Proof.
  induction pre as [|a pre IH]; intros Hn; [reflexivity|].
  cbn [app search]. rewrite match_here_None.
  - apply IH. intros p1 p2 E. apply (Hn (a :: p1) p2). now rewrite E.
  - apply (Hn [] (a :: pre)); [reflexivity|discriminate].
Qed.

Lemma In_tails (p1 p2 : list ascii) :
  p2 <> [] -> In p2 (tails (p1 ++ p2)).
Proof.
  intros Hne. induction p1 as [|a p1 IH]; cbn [app tails].
  - destruct p2 as [|b p2]; [contradiction|]. now left.
  - now right.
Qed.

(** That no duration starts in [pre] can be checked by running the
    pattern at each of its characters. *)
Lemma none_starts_in_tails (pre rest : list ascii) :
  forallb (fun p2 => match match_here pattern (p2 ++ rest) with
                     | None => true
                     | Some _ => false
                     end) (tails pre) = true ->
  none_starts_in pre rest.
Proof.
  intros Hall p1 p2 -> Hne Hs.
  pose proof (proj1 (forallb_forall _ _) Hall p2 (In_tails p1 p2 Hne)) as H.
  cbv beta in H. apply match_here_Some in Hs.
  destruct (match_here pattern (p2 ++ rest)); [discriminate|contradiction].
Qed.

(** X2. The parser reads the duration that starts first in the string:
    the text before it, which may hold parentheses as long as no
    duration starts there, the text after it and any later duration are
    ignored.  The result is the number of minutes of that duration when
    each of its three components has at most 4300 digits, and
    [ValueError] otherwise. *)
Theorem parse_time_string_first_duration
    (time_str : string) (pre d w1 h w2 m post : list ascii) :
  well_formed d w1 h w2 m ->
  list_ascii_of_string time_str = pre ++ duration_text d w1 h w2 m ++ post ->
  none_starts_in pre (duration_text d w1 h w2 m ++ post) ->
  parse_time_string time_str
  = if within_limit d && within_limit h && within_limit m
    then Ok (Some (decimal_value d * 24 * 60 + decimal_value h * 60
                   + decimal_value m))
    else Raise ValueError.
Proof.
  intros Hwf E Hpre. apply parse_time_string_groups.
  rewrite E, search_none_starts_in, search_duration by assumption.
  reflexivity.
Qed.

(** A duration after a remark in parentheses, followed by a second
    duration: the first one is read. *)
Lemma parse_time_string_first_duration_witness :
  parse_time_string "(aprox.) (0D, 1H, 30M) y (2D,0H,0M)" = Ok (Some 90).
Proof.
  refine (parse_time_string_first_duration
            "(aprox.) (0D, 1H, 30M) y (2D,0H,0M)"
            (list_ascii_of_string "(aprox.) ")
            ["0"]%char [" "]%char ["1"]%char [" "]%char ["3"; "0"]%char
            (list_ascii_of_string " y (2D,0H,0M)") _ _ _).
  - repeat split; try discriminate; reflexivity.
  - reflexivity.
  - apply none_starts_in_tails. vm_compute. reflexivity.
Defined.

(** X3. A number that the parser returns is never negative: the string
    holds a duration whose three components [int] converts, the number
    is [days * 24 * 60 + hours * 60 + minutes] for these components, the
    pattern has no sign, and each component counts for zero or more. *)
Theorem parse_time_string_never_negative (time_str : string) (v : Z) :
  parse_time_string time_str = Ok (Some v) ->
  0 <= v
  /\ exists pre d w1 h w2 m post,
       list_ascii_of_string time_str
       = pre ++ duration_text d w1 h w2 m ++ post
       /\ well_formed d w1 h w2 m
       /\ within_limit d = true /\ within_limit h = true
       /\ within_limit m = true
       /\ 0 <= decimal_value d /\ 0 <= decimal_value h
       /\ 0 <= decimal_value m
       /\ v = decimal_value d * 24 * 60 + decimal_value h * 60
              + decimal_value m.
Proof.
  intros Hp.
  apply parse_time_string_Some in Hp
    as (pre & d & w1 & h & w2 & m & post & E & Hwf & Ld & Lh & Lm & ->).
  pose proof Hwf as (Hd & _ & Hh & _ & Hm).
  pose proof (decimal_value_nonneg d Hd).
  pose proof (decimal_value_nonneg h Hh).
  pose proof (decimal_value_nonneg m Hm).
  split; [lia|].
  exists pre, d, w1, h, w2, m, post. auto 12.
Qed.

Lemma parse_time_string_never_negative_witness : 0 <= 2768.
Proof.
  apply (parse_time_string_never_negative "(1D,22H,8M)" 2768). reflexivity.
Defined.

Lemma In_duration_text (c : ascii) (d w1 h w2 m : list ascii) :
  In c pattern_literals -> In c (duration_text d w1 h w2 m).
Proof.
  unfold pattern_literals, duration_text. cbn [In].
  intros [<-|[<-|[<-|[<-|[<-|[<-|[]]]]]]];
    cbn [In]; repeat (rewrite in_app_iff; cbn [In]); tauto.
Qed.

(** X4. A string that lacks one of the characters [(], [D], [,], [H],
    [M], [)] is rejected; so are the empty string and a duration written
    with lower-case unit letters. *)
Theorem parse_time_string_needs_literals (time_str : string) (c : ascii) :
  In c pattern_literals ->
  ~ In c (list_ascii_of_string time_str) ->
  parse_time_string time_str = Ok None.
Proof.
  intros Hc Hn. apply parse_time_string_None_iff.
  intros (pre & d & w1 & h & w2 & m & post & _ & E).
  apply Hn. rewrite E. rewrite !in_app_iff. right. left.
  now apply In_duration_text.
Qed.

Lemma parse_time_string_needs_literals_witness :
  parse_time_string "(1d, 22h, 8m)" = Ok None.
Proof.
  apply (parse_time_string_needs_literals "(1d, 22h, 8m)" "D"%char).
  - cbn. tauto.
  - cbn. intuition discriminate.
Defined.

(** ** What the handler stores and when it refuses *)

(** X5. A stored calculation keeps the two parsed durations, neither of
    them negative, and their sum, which is positive; the fuel volume and
    the price passed the two checks; and the stored real idle percentage
    is the value of its slider. *)
Theorem calcular_stores (inp : Entradas) (ss : SessionState) :
  calcular inp = Calculado ss ->
  parse_time_string (idle_time inp) = Ok (Some (idle_minutes ss))
  /\ parse_time_string (moving_time inp) = Ok (Some (moving_minutes ss))
  /\ 0 <= idle_minutes ss /\ 0 <= moving_minutes ss
  /\ total_minutes ss = idle_minutes ss + moving_minutes ss
  /\ 0 < total_minutes ss
  /\ PrimFloat.leb (combustible_total inp) 0 = false
  /\ PrimFloat.leb (precio_litro inp) 0 = false
  /\ real_idle_percentage ss = porcentaje_ralenti_real inp.
Proof.
  intros Hc.
  apply calcular_Calculado in Hc as (i & m & Pi & Pm & Hf & Hp & Ht & Hc).
  pose proof (parse_time_string_nonneg _ _ Pi) as Hi.
  pose proof (parse_time_string_nonneg _ _ Pm) as Hm.
  assert (Hr : real_idle_percentage ss = porcentaje_ralenti_real inp).
  { unfold calculos in Hc. inv_bind Hc. now injection Hc as <-. }
  apply calculos_Ok in Hc as (_ & _ & _ & -> & -> & ->).
  repeat (split; [solve [auto | lia]|]). exact Hr.
Qed.

Lemma calcular_stores_witness :
  exists ss,
    calcular entradas_ejemplo = Calculado ss
    /\ idle_minutes ss = 2768 /\ moving_minutes ss = 2372
    /\ total_minutes ss = idle_minutes ss + moving_minutes ss
    /\ 0 < total_minutes ss.
Proof.
  destruct (calcular entradas_ejemplo) as [| | | | |ss|] eqn:H;
    try (vm_compute in H; discriminate).
  exists ss.
  destruct (calcular_stores entradas_ejemplo ss H)
    as (Pi & Pm & _ & _ & Ht & Hpos & _).
  vm_compute in Pi, Pm.
  injection Pi as Pi. injection Pm as Pm.
  repeat split; auto.
Defined.

(** X6. The zero-total error is reported exactly when the fuel volume and
    the price pass their checks and both durations are zero: two parsed
    durations cannot cancel each other. *)
Theorem calcular_zero_total (inp : Entradas) :
  calcular inp = ErrorTiempoCero <->
  parse_time_string (idle_time inp) = Ok (Some 0)
  /\ parse_time_string (moving_time inp) = Ok (Some 0)
  /\ PrimFloat.leb (combustible_total inp) 0 = false
  /\ PrimFloat.leb (precio_litro inp) 0 = false.
Proof.
  unfold calcular. split.
  - destruct (parse_time_string (idle_time inp)) as [[i|]|ei] eqn:Pi;
      [| |discriminate].
    2: destruct (parse_time_string (moving_time inp)) as [[m|]|em];
      discriminate.
    destruct (parse_time_string (moving_time inp)) as [[m|]|em] eqn:Pm;
      [|discriminate|discriminate].
    destruct (PrimFloat.leb (combustible_total inp) 0); [discriminate|].
    destruct (PrimFloat.leb (precio_litro inp) 0); [discriminate|].
    destruct (i + m =? 0) eqn:Ht.
    + intros _. apply Z.eqb_eq in Ht.
      apply parse_time_string_nonneg in Pi, Pm.
      assert (i = 0) by lia. assert (m = 0) by lia. subst. auto.
    + destruct (calculos inp i m); discriminate.
  - intros (-> & -> & -> & ->). reflexivity.
Qed.

(** ** Rounding: what cannot overflow, what cannot vanish *)





Lemma Zdigits2_bounds (x : Z) : 0 <= x -> 0 <= Zdigits2 x /\ x < 2 ^ Zdigits2 x.
Proof.
  intros Hx. destruct x as [|p|p]; cbn [Zdigits2]; [simpl; lia| |lia].
  pose proof (bit_length_bounds p) as [H1 H2]. unfold bit_length in *. lia.
Qed.

Section Overflow.

Variables prec emax : Z.
Hypothesis Hprec : 2 <= prec.
Hypothesis Hemax : 2 <= emax.




End Overflow.


(** The number of digits is the only [k] with [2^(k-1) <= p < 2^k]. *)
Lemma bit_length_unique (p : positive) (k : Z) :
  2 ^ (k - 1) <= Zpos p < 2 ^ k -> bit_length p = k.
Proof.
  intros [H1 H2]. pose proof (bit_length_bounds p) as (B0 & B1 & B2).
  assert (Hk : 1 <= k).
  { destruct (Z.le_gt_cases 1 k) as [|Hlt]; [assumption|].
    assert (k <= 0) by lia.
    destruct k as [|k|k]; simpl in H2; lia. }
  assert (A : 2 ^ (bit_length p - 1) < 2 ^ k) by lia.
  assert (B : 2 ^ (k - 1) < 2 ^ bit_length p) by lia.
  apply pow2_lt_inv in A; [|lia|lia].
  apply pow2_lt_inv in B; [|lia|lia]. lia.
Qed.

Lemma bit_length_shift (m d : positive) :
  bit_length (Pos.iter xO m d) = bit_length m + Zpos d.
Proof.
  apply bit_length_unique.
  change (Pos.iter xO m d) with (shift_pos d m).
  rewrite shift_pos_correct. change (Z.pow_pos 2 d) with (2 ^ Zpos d).
  pose proof (bit_length_bounds m) as (B0 & B1 & B2).
  pose proof (pow2_pos (Zpos d) ltac:(lia)) as Hp.
  replace (bit_length m + Zpos d - 1) with ((bit_length m - 1) + Zpos d)
    by lia.
  rewrite !pow2_add by lia. nia.
Qed.


Section Magnitude.

Variables prec emax : Z.
Hypothesis Hprec : 2 <= prec.
Hypothesis Hemax : 2 <= emax.

(** Above the least exponent, rounding loses no magnitude. *)
Lemma binary_round_aux_at_least (m : positive) (e : Z) :
  3 - emax - prec < bit_length m + e ->
  at_least prec (bit_length m + e)
    (binary_round_aux prec emax false (Zpos m) e loc_Exact).
Proof.
  intros Hmag.
  pose proof (bit_length_bounds m) as (B0 & B1 & B2).
  pose proof (binary_round_aux_cases prec emax Hprec Hemax m e) as Hc.
  cbv zeta in Hc.
  set (E := Z.max e (fexp prec emax (bit_length m + e))) in *.
  set (mR := F64.round_half_even (Zpos m) (2 ^ (E - e))) in *.
  assert (HE : e <= E /\ bit_length m + e - prec <= E
               /\ E - e <= bit_length m - 1).
  { unfold E. rewrite fexp_eq. lia. }
  pose proof (pow2_pos (E - e) ltac:(lia)) as Hp.
  pose proof (round_half_even_bounds (Zpos m) (2 ^ (E - e))) as Hb.
  fold mR in Hb.
  assert (Hlo : 2 ^ (bit_length m - 1 - (E - e)) <= mR).
  { apply Z.le_trans with (Zpos m / 2 ^ (E - e)); [|lia].
    apply Z.div_le_lower_bound; [lia|].
    rewrite <- pow2_add by lia.
    replace (E - e + (bit_length m - 1 - (E - e))) with (bit_length m - 1)
      by lia.
    lia. }
  assert (Hhi : mR <= 2 ^ prec).
  { assert (Zpos m / 2 ^ (E - e) < 2 ^ prec); [|lia].
    apply Z.div_lt_upper_bound; [lia|].
    rewrite <- pow2_add by lia.
    pose proof (pow2_le (bit_length m) (E - e + prec) ltac:(lia)). lia. }
  pose proof (pow2_pos (bit_length m - 1 - (E - e)) ltac:(lia)) as Hp1.
  destruct Hc as [[_ H0]|[(mC & eC & -> & HeC & Hv)|[-> _]]];
    [lia| |exact I].
  cbn [at_least].
  pose proof (bit_length_bounds mC) as (C0 & C1 & C2).
  pose proof (pow2_pos (eC - E) ltac:(lia)) as Hp2.
  split.
  - assert (A : 2 ^ (bit_length m - 1 - (E - e))
                < 2 ^ (bit_length mC + (eC - E))).
    { rewrite pow2_add by lia. nia. }
    apply pow2_lt_inv in A; lia.
  - nia.
Qed.

Lemma binary_round_at_least (m : positive) (e : Z) :
  3 - emax - prec < bit_length m + e ->
  at_least prec (bit_length m + e) (binary_round prec emax false m e).
Proof.
  intros Hmag. unfold binary_round, shl_align. fold (bit_length m).
  destruct (fexp prec emax (bit_length m + e) - e) as [|d|d] eqn:Ed;
    try now apply binary_round_aux_at_least.
  replace (bit_length m + e)
    with (bit_length (Pos.iter xO m d)
          + fexp prec emax (bit_length m + e)) at 1
    by (rewrite bit_length_shift; lia).
  apply binary_round_aux_at_least.
  rewrite bit_length_shift. lia.
Qed.

End Magnitude.

(** [float(d)] of a positive [int] is not zero. *)
Lemma of_int_nonzero (d : Z) :
  1 <= d -> PrimFloat.eqb (F64.of_int d) 0 = false.
Proof.
  intros Hd. destruct d as [|p|p]; try lia.
  unfold F64.of_int. cbn [binary_normalize].
  pose proof (bit_length_bounds p) as (B0 & _).
  pose proof (binary_round_at_least prec emax binary64_prec binary64_emax
                p 0) as H1.
  assert (Hmag : 3 - emax - prec < bit_length p + 0)
    by (unfold emax, prec; lia).
  specialize (H1 Hmag).
  destruct (binary_round prec emax false p 0) as [s|[|]| |[|] mC eC];
    try contradiction; [reflexivity|].
  cbn [at_least] in H1. destruct H1 as [H1 H1'].
  rewrite FloatAxioms.eqb_spec. cbn [SF2Prim].
  rewrite Z_ldexp_spec, of_uint63_spec, Uint63.of_Z_spec.
  rewrite Z.mod_small
    by (split; [lia|];
        apply Z.le_lt_trans with (2 ^ prec); [assumption|reflexivity]).
  cbn [binary_normalize].
  pose proof (bit_length_bounds mC) as (C0 & _).
  pose proof (binary_round_at_least prec emax binary64_prec binary64_emax
                mC 0) as H2.
  assert (Hmag2 : 3 - emax - prec < bit_length mC + 0)
    by (unfold emax, prec; lia).
  specialize (H2 Hmag2).
  destruct (binary_round prec emax false mC 0) as [s|[|]| |[|] m2 e2];
    try contradiction; [reflexivity|].
  cbn [at_least] in H2. destruct H2 as [H2 _].
  cbn [SFldexp].
  pose proof (binary_round_at_least prec emax binary64_prec binary64_emax
                m2 (e2 + eC)) as H3.
  assert (Hmag3 : 3 - emax - prec < bit_length m2 + (e2 + eC))
    by (unfold emax, prec; lia).
  specialize (H3 Hmag3).
  destruct (binary_round prec emax false m2 (e2 + eC))
    as [s|[|]| |[|] m3 e3];
    try contradiction; reflexivity.
Qed.

(** ** The divisions of the handler *)

Lemma truediv_of_int_Ok (x : float) (d : Z) :
  1 <= d ->
  F64.truediv x (F64.of_int d) = Ok (PrimFloat.div x (F64.of_int d)).
Proof.
  intros Hd. unfold F64.truediv. now rewrite of_int_nonzero.
Qed.

(** X7. When the script gets past the date check, the period counts both
    end days and lasts one day or more, so no division by the period
    raises [ZeroDivisionError]; the script stops exactly when the start
    date is after the end date. *)
Theorem duration_days_of_safe (start_date end_date : Z) :
  (duration_days_of start_date end_date = None <-> end_date < start_date)
  /\
  (forall d,
      duration_days_of start_date end_date = Some d ->
      d = end_date - start_date + 1 /\ 1 <= d
      /\ forall x : float,
           truediv x (of_int d) = Ok (PrimFloat.div x (F64.of_int d))).
Proof.
  unfold duration_days_of.
  destruct (Z.gtb_spec start_date end_date) as [Hgt|Hle]; split.
  - split; [lia|reflexivity].
  - discriminate.
  - split; [discriminate|lia].
  - intros d [= <-]. split; [reflexivity|]. split; [lia|].
    intros x. apply truediv_of_int_Ok. lia.
Qed.

(** A period within one day: one day, and the division goes through. *)
Lemma duration_days_of_safe_witness :
  duration_days_of 738000 738000 = Some 1
  /\ truediv 19104.05%float (of_int 1) = Ok 19104.05%float.
Proof.
  split; [reflexivity|].
  destruct (proj2 (duration_days_of_safe 738000 738000) 1 eq_refl)
    as (_ & _ & H).
  rewrite H. reflexivity.
Defined.

Lemma ltb_0_nonzero (x : float) :
  PrimFloat.ltb 0 x = true -> PrimFloat.eqb x 0 = false.
Proof.
  rewrite ltb_spec, FloatAxioms.eqb_spec.
  change (Prim2SF 0) with (S754_zero false).
  destruct (Prim2SF x) as [[|]|[|]| |[|] m e]; cbv; congruence.
Qed.







(** ** Signs of the stored figures *)

Lemma nonneg_not_negative (x : float) :
  nonneg x = true -> PrimFloat.ltb x 0 = false.
Proof.
  unfold nonneg. rewrite ltb_spec. apply SFltb_nonneg_zero.
Qed.

(** A product of a number that is not below zero and a number whose sign
    bit is clear is not below zero. *)
Lemma mul_not_negative (a b : float) :
  PrimFloat.leb 0 a = true -> nonneg b = true ->
  PrimFloat.ltb (PrimFloat.mul a b) 0 = false.
Proof.
  unfold nonneg. rewrite leb_spec, ltb_spec, mul_spec.
  change (Prim2SF 0) with (S754_zero false). unfold SF64mul.
  intros Ha Hb.
  destruct (Prim2SF a) as [sa|[|]| |[|] ma ea];
    try (cbv in Ha; discriminate).
  - destruct (Prim2SF b) as [sb|sb| |sb mb eb]; destruct sa; reflexivity.
  - apply SFltb_nonneg_zero. now apply (SFmul_nonneg prec emax).
  - apply SFltb_nonneg_zero. now apply (SFmul_nonneg prec emax).
Qed.

(** A quotient of a number that is not below zero by a number that is
    not zero and whose sign bit is clear is not below zero. *)
Lemma div_not_negative (a b : float) :
  PrimFloat.ltb a 0 = false -> nonneg b = true ->
  PrimFloat.eqb b 0 = false ->
  PrimFloat.ltb (PrimFloat.div a b) 0 = false.
Proof.
  unfold nonneg. rewrite FloatAxioms.eqb_spec, !ltb_spec, div_spec.
  change (Prim2SF 0) with (S754_zero false). unfold SF64div.
  intros Ha Hb Hz.
  destruct (Prim2SF a) as [sa|[|]| |[|] ma ea];
    try (cbv in Ha; discriminate).
  - destruct (Prim2SF b) as [sb|[|]| |[|] mb eb];
      try discriminate; destruct sa; reflexivity.
  - apply SFltb_nonneg_zero. now apply (SFdiv_nonneg prec emax).
  - reflexivity.
  - apply SFltb_nonneg_zero. now apply (SFdiv_nonneg prec emax).
Qed.

(** What a successful payback block returns. *)
Lemma calcular_retorno_Ok (costo neto : float) (r : Retorno) :
  calcular_retorno costo neto = Ok r ->
  (PrimFloat.ltb 0 neto = true
   /\ meses_para_recuperar r = PrimFloat.div costo neto
   /\ PrimFloat.eqb (PrimFloat.div neto 30) 0 = false
   /\ roi_days r = PrimFloat.div costo (PrimFloat.div neto 30))
  \/ (PrimFloat.ltb 0 neto = false
      /\ meses_para_recuperar r = F64.inf /\ roi_days r = F64.inf).
Proof.
  unfold calcular_retorno. cbn [truediv of_int PyNum_float].
  change (F64.of_int 30) with 30%float.
  destruct (PrimFloat.ltb 0 neto) eqn:Hn.
  - intros H. left. inv_bind H. injection H as <-. cbn.
    apply F64_truediv_Ok in E as [_ ->].
    inv_bind E0. apply F64_truediv_Ok in E as [_ ->].
    apply F64_truediv_Ok in E0 as [Hz ->]. auto.
  - cbn [bind]. intros [= <-]. right. auto.
Qed.

Lemma ltb_0_nonneg (x : float) : PrimFloat.ltb 0 x = true -> nonneg x = true.
Proof.
  unfold nonneg. rewrite ltb_spec.
  change (Prim2SF 0) with (S754_zero false).
  destruct (Prim2SF x) as [[|]|[|]| |[|] m e]; cbv; congruence.
Qed.

(** X9. With the widgets in their ranges (one unit or more, a period of
    one day or more, both sliders at zero or more, a purchase cost that
    is not negative), no stored share, fuel volume, cost, loss, saving or
    payback time is below zero. *)
Theorem cifras_not_negative (inp : Entradas) (ss : SessionState) :
  1 <= num_unidades inp -> 1 <= duration_days inp ->
  0 <= porcentaje_reduccion inp ->
  0 <= porcentaje_ralenti_real inp ->
  PrimFloat.leb 0 (costo_por_pieza inp) = true ->
  calcular inp = Calculado ss ->
  Forall (fun x => PrimFloat.ltb x 0 = false) (cifras ss).
Proof.
  intros Hn Hd Hr Hrr Hcp Hc.
  apply calcular_Calculado in Hc as (i & mv & Pi & Pm & Hf & Hp & Ht & Hc).
  apply parse_time_string_nonneg in Pi, Pm.
  apply calculos_Ok in Hc as (Hm & Hret & Hreal & _).
  apply calcular_mermas_Ok in Hm
    as (q_idle & q_moving & f_idle & f_moving & r_red & r_real
        & E1 & E2 & E3 & E4 & E5 & E6 & E7 & E8 & E9 & E10 & E11 & E12
        & E13 & E14 & E15 & E16 & E17 & E18 & E19 & E20 & E21 & E22 & E23
        & E24 & E25 & E26 & _).
  apply calcular_ralenti_real_Ok in Hreal
    as (r_real' & _ & R1 & R2 & R3 & R4 & R5 & R6 & R7 & R8 & R9 & R10
        & R11).
  apply int_truediv_nonneg in E1, E3, E22, E23, R1; try lia.
  apply F64_truediv_Ok in E5 as [_ E5].
  apply F64_truediv_Ok in E7 as [_ E7].
  apply F64_truediv_Ok in E13 as [_ E13].
  apply F64_truediv_Ok in E18 as [_ E18].
  apply F64_truediv_Ok in E26 as [_ E26].
  apply F64_truediv_Ok in R3 as [_ R3].
  apply F64_truediv_Ok in R8 as [_ R8].
  cbn [mul of_int PyNum_float] in *.
  set (m := mermas ss) in *. set (rr := ralenti_real ss) in *.
  assert (N1 : nonneg (idle_percentage m) = true)
    by (rewrite E2; auto with nonneg).
  assert (N2 : nonneg (moving_percentage m) = true)
    by (rewrite E4; auto with nonneg).
  assert (N3 : nonneg (combustible_ralenti m) = true)
    by (rewrite E6; subst f_idle; auto 6 with nonneg).
  assert (N4 : nonneg (combustible_movimiento m) = true)
    by (rewrite E8; subst f_moving; auto 6 with nonneg).
  assert (N5 : nonneg (costo_ralenti m) = true)
    by (rewrite E9; auto with nonneg).
  assert (N6 : nonneg (costo_movimiento m) = true)
    by (rewrite E10; auto with nonneg).
  assert (N7 : nonneg (costo_total m) = true)
    by (rewrite E11; auto with nonneg).
  assert (N8 : nonneg (merma_total m) = true)
    by (rewrite E12; auto with nonneg).
  assert (N9 : nonneg (merma_diaria m) = true)
    by (rewrite E13; auto with nonneg).
  assert (N10 : nonneg (merma_anual m) = true)
    by (rewrite E16; auto with nonneg).
  assert (N11 : nonneg (merma_total_unit m) = true) by now rewrite E17.
  assert (N12 : nonneg (merma_diaria_unit m) = true)
    by (rewrite E18; auto with nonneg).
  assert (N13 : nonneg (ahorro_anual m) = true)
    by (rewrite E24; auto with nonneg).
  assert (N14 : nonneg (ahorro_mensual m) = true)
    by (rewrite E26; auto with nonneg).
  assert (N15 : nonneg (costo_ralenti_real_unit rr) = true)
    by (rewrite R2; auto with nonneg).
  assert (N16 : nonneg (merma_diaria_real_unit rr) = true)
    by (rewrite R3; auto with nonneg).
  assert (N17 : nonneg (costo_ralenti_real_fleet rr) = true)
    by (rewrite R7; auto with nonneg).
  assert (N18 : nonneg (merma_diaria_real_fleet rr) = true)
    by (rewrite R8; auto with nonneg).
  assert (C : PrimFloat.ltb (costo_total_barras m) 0 = false).
  { rewrite E25. apply mul_not_negative; auto with nonneg. }
  assert (P : PrimFloat.ltb (meses_para_recuperar (retorno ss)) 0 = false
              /\ PrimFloat.ltb (roi_days (retorno ss)) 0 = false).
  { fold m in Hret.
    apply calcular_retorno_Ok in Hret
      as [(Hpos & -> & Hz & ->)|(_ & -> & ->)]; [|split; reflexivity].
    pose proof (ltb_0_nonneg _ Hpos) as Nn.
    split; apply div_not_negative; auto using ltb_0_nonzero with nonneg. }
  destruct P as [P1 P2].
  unfold cifras. fold m rr.
  repeat (apply Forall_cons; [|]); try apply Forall_nil;
    try assumption;
    apply nonneg_not_negative;
    try assumption;
    rewrite ?E14, ?E15, ?E19, ?E20, ?E21, ?R4, ?R5, ?R6, ?R9, ?R10, ?R11;
    auto with nonneg.
Qed.

Lemma cifras_not_negative_witness :
  exists ss,
    calcular entradas_ejemplo = Calculado ss
    /\ Forall (fun x => PrimFloat.ltb x 0 = false) (cifras ss).
Proof.
  destruct (calcular entradas_ejemplo) as [| | | | |ss|] eqn:H;
    try (vm_compute in H; discriminate).
  exists ss. split; [reflexivity|].
  apply (cifras_not_negative entradas_ejemplo ss);
    [cbn; lia|cbn; lia|cbn; lia|cbn; lia|reflexivity|exact H].
Defined.

(** ** Multiplying by one *)

(** The sign is carried along by the rounding. *)
Lemma binary_round_aux_opp (prec emax m e : Z) (l : location) :
  binary_round_aux prec emax true m e l
  = SFopp (binary_round_aux prec emax false m e l).
Proof.
  unfold binary_round_aux.
  destruct (shr_fexp prec emax m e l) as [mrs e'].
  destruct (shr_fexp prec emax _ e' loc_Exact) as [mrs2 e2].
  destruct (shr_m mrs2); [reflexivity| |reflexivity].
  destruct (e2 <=? emax - prec); reflexivity.
Qed.

Lemma bit_length_mul_pow2 (m : positive) (k : Z) :
  0 <= k -> forall p, Zpos p = Zpos m * 2 ^ k ->
  bit_length p = bit_length m + k.
Proof.
  intros Hk p Hp. apply bit_length_unique. rewrite Hp.
  pose proof (bit_length_bounds m) as (B0 & B1 & B2).
  pose proof (pow2_pos k Hk) as Hpk.
  replace (bit_length m + k - 1) with ((bit_length m - 1) + k) by lia.
  rewrite !pow2_add by lia. nia.
Qed.

(** Rounding a canonical number written with 52 more digits gives the
    number back. *)
Lemma binary_round_aux_canonical (m : positive) (e : Z) :
  SpecFloat.valid_binary prec emax (S754_finite false m e) = true ->
  SpecFloat.valid_binary prec emax
    (binary_round_aux prec emax false (Zpos (m * 4503599627370496))
       (e + -52) loc_Exact) = true ->
  binary_round_aux prec emax false (Zpos (m * 4503599627370496)) (e + -52)
    loc_Exact
  = S754_finite false m e.
Proof.
  intros Vx Vout.
  apply (valid_finite prec emax) in Vx
    as (Hd & He & Hc).
  set (m' := (m * 4503599627370496)%positive) in *.
  assert (Hm' : Zpos m' = Zpos m * 2 ^ 52) by reflexivity.
  pose proof (bit_length_mul_pow2 m 52 ltac:(lia) m' Hm') as Hbl.
  pose proof (bit_length_bounds m) as (B0 & B1 & B2).
  pose proof (binary_round_aux_cases prec emax binary64_prec binary64_emax
                m' (e + -52)) as Hcases.
  cbv zeta in Hcases.
  set (out := binary_round_aux prec emax false (Zpos m') (e + -52)
                loc_Exact) in *.
  rewrite Hbl, fexp_eq in Hcases.
  replace (Z.max (e + -52)
             (Z.max (bit_length m + 52 + (e + -52) - prec)
                (3 - emax - prec)))
    with e in Hcases by (unfold prec, emax in *; lia).
  replace (e - (e + -52)) with 52 in Hcases by lia.
  rewrite Hm', round_half_even_mult in Hcases by lia.
  destruct Hcases as [[_ H0]|[(mC & eC & Eo & HeC & Hv)|(Eo & mC & eC & HeC & Hv & Hov & Hbig)]];
    [lia| |].
  - rewrite Eo in Vout |- *.
    apply (valid_finite prec emax) in Vout
      as (Cd & Ce & Cc).
    destruct (Z.eq_dec eC e) as [->|Hne].
    + rewrite Z.sub_diag in Hv. change (2 ^ 0) with 1 in Hv.
      f_equal. lia.
    + exfalso.
      assert (Hk : 0 <= eC - e) by lia.
      pose proof (bit_length_mul_pow2 mC (eC - e) Hk m (eq_sym Hv)) as Hb.
      unfold prec, emax in *. lia.
  - exfalso.
    pose proof (pow2_pos (eC - e) ltac:(lia)) as Hp.
    destruct Hbig as [Hbig|[-> _]]; [|lia].
    assert (Hk : 0 <= eC - e) by lia.
    pose proof (bit_length_mul_pow2 mC (eC - e) Hk m (eq_sym Hv)) as Hb.
    pose proof (bit_length_bounds mC) as (C0 & C1 & C2).
    assert (A : 2 ^ (prec - 1) < 2 ^ bit_length mC) by lia.
    apply pow2_lt_inv in A; unfold prec, emax in *; lia.
Qed.

Lemma mul_1_r (x : float) : PrimFloat.mul x 1 = x.
Proof.
  apply Prim2SF_inj.
  pose proof (Prim2SF_valid (PrimFloat.mul x 1)) as Vout.
  pose proof (Prim2SF_valid x) as Vx.
  rewrite mul_spec in Vout |- *. unfold SF64mul in *.
  change (Prim2SF 1) with (S754_finite false 4503599627370496 (-52)) in *.
  destruct (Prim2SF x) as [[|]|[|]| |[|] m e]; try reflexivity;
    cbn [SFmul xorb] in *.
  - rewrite binary_round_aux_opp in *.
    assert (Vx' : SpecFloat.valid_binary prec emax (S754_finite false m e)
                  = true) by exact Vx.
    assert (Vo' : SpecFloat.valid_binary prec emax
                    (binary_round_aux prec emax false
                       (Zpos (m * 4503599627370496)) (e + -52) loc_Exact)
                  = true).
    { destruct (binary_round_aux prec emax false
                  (Zpos (m * 4503599627370496)) (e + -52) loc_Exact);
        exact Vout. }
    now rewrite (binary_round_aux_canonical m e Vx' Vo').
  - now apply binary_round_aux_canonical.
Qed.

Lemma mul_1_l (x : float) : PrimFloat.mul 1 x = x.
Proof. rewrite mul_comm. apply mul_1_r. Qed.

(** ** The default slider and the fleet of one *)

Lemma Ok_inj {A : Type} (a b : A) : Ok a = Ok b -> a = b.
Proof. now intros [= ->]. Qed.

(** X10. With the real idle slider at 100, its default, the real idle
    figures are the plain ones: the real cost per unit is the idle cost,
    the real cost of the fleet is the total loss, and each daily, weekly,
    monthly and annual real loss is the loss of the same period. *)
Theorem ralenti_real_al_100 (inp : Entradas) (ss : SessionState) :
  porcentaje_ralenti_real inp = 100 ->
  calcular inp = Calculado ss ->
  let m := mermas ss in
  let rr := ralenti_real ss in
  costo_ralenti_real_unit rr = costo_ralenti m
  /\ merma_diaria_real_unit rr = merma_diaria_unit m
  /\ merma_semanal_real_unit rr = merma_semanal_unit m
  /\ merma_mensual_real_unit rr = merma_mensual_unit m
  /\ merma_anual_real_unit rr = merma_anual_unit m
  /\ costo_ralenti_real_fleet rr = merma_total m
  /\ merma_diaria_real_fleet rr = merma_diaria m
  /\ merma_semanal_real_fleet rr = merma_semanal m
  /\ merma_mensual_real_fleet rr = merma_mensual m
  /\ merma_anual_real_fleet rr = merma_anual m.
Proof.
  intros H100 Hc m rr.
  apply calcular_Calculado in Hc as (i & mv & _ & _ & _ & _ & _ & Hc).
  apply calculos_Ok in Hc as (Hm & _ & Hreal & _).
  fold m in Hm, Hreal. fold rr in Hreal.
  apply calcular_mermas_Ok in Hm
    as (q_idle & q_moving & f_idle & f_moving & r_red & r_real
        & _ & _ & _ & _ & _ & _ & _ & _ & _ & _ & _ & E12
        & E13 & E14 & E15 & E16 & E17 & E18 & E19 & E20 & E21 & _).
  apply calcular_ralenti_real_Ok in Hreal
    as (r_real' & _ & R1 & R2 & R3 & R4 & R5 & R6 & R7 & R8 & R9 & R10
        & R11).
  rewrite H100 in R1.
  assert (Hr : r_real' = 1%float) by (apply Ok_inj; now rewrite <- R1).
  subst r_real'. cbn [mul PyNum_float] in *.
  rewrite mul_1_r in R2.
  assert (D1 : merma_diaria_real_unit rr = merma_diaria_unit m).
  { apply Ok_inj. rewrite <- R3, <- E18, R2, E17. reflexivity. }
  assert (F1 : costo_ralenti_real_fleet rr = merma_total m)
    by now rewrite R7, R2, E12.
  assert (D2 : merma_diaria_real_fleet rr = merma_diaria m).
  { apply Ok_inj. rewrite <- R8, <- E13, F1. reflexivity. }
  rewrite R4, R5, R6, R9, R10, R11, E14, E15, E16, E19, E20, E21, D1, D2.
  repeat split; assumption.
Qed.

Lemma ralenti_real_al_100_witness :
  exists ss,
    calcular entradas_ejemplo = Calculado ss
    /\ merma_anual_real_fleet (ralenti_real ss) = merma_anual (mermas ss).
Proof.
  destruct (calcular entradas_ejemplo) as [| | | | |ss|] eqn:H;
    try (vm_compute in H; discriminate).
  exists ss. split; [reflexivity|].
  apply (ralenti_real_al_100 entradas_ejemplo ss eq_refl H).
Defined.

(** X11. For a fleet of one unit the fleet figures are the unit figures:
    the loss of the period and its daily, weekly, monthly and annual
    projections, plain and real, and the purchase cost is the cost of one
    piece. *)
Theorem flota_de_una_unidad (inp : Entradas) (ss : SessionState) :
  num_unidades inp = 1 ->
  calcular inp = Calculado ss ->
  let m := mermas ss in
  let rr := ralenti_real ss in
  merma_total m = merma_total_unit m
  /\ merma_diaria m = merma_diaria_unit m
  /\ merma_semanal m = merma_semanal_unit m
  /\ merma_mensual m = merma_mensual_unit m
  /\ merma_anual m = merma_anual_unit m
  /\ costo_ralenti_real_fleet rr = costo_ralenti_real_unit rr
  /\ merma_diaria_real_fleet rr = merma_diaria_real_unit rr
  /\ merma_semanal_real_fleet rr = merma_semanal_real_unit rr
  /\ merma_mensual_real_fleet rr = merma_mensual_real_unit rr
  /\ merma_anual_real_fleet rr = merma_anual_real_unit rr
  /\ costo_total_barras m = costo_por_pieza inp.
Proof.
  intros H1 Hc m rr.
  apply calcular_Calculado in Hc as (i & mv & _ & _ & _ & _ & _ & Hc).
  apply calculos_Ok in Hc as (Hm & _ & Hreal & _).
  fold m in Hm, Hreal. fold rr in Hreal.
  rewrite H1 in Hm, Hreal.
  apply calcular_mermas_Ok in Hm
    as (q_idle & q_moving & f_idle & f_moving & r_red & r_real
        & _ & _ & _ & _ & _ & _ & _ & _ & _ & _ & _ & E12
        & E13 & E14 & E15 & E16 & E17 & E18 & E19 & E20 & E21 & _ & _ & _
        & E25 & _).
  apply calcular_ralenti_real_Ok in Hreal
    as (r_real' & _ & R1 & R2 & R3 & R4 & R5 & R6 & R7 & R8 & R9 & R10
        & R11).
  cbn [mul of_int PyNum_float] in *.
  change (F64.of_int 1) with 1%float in *.
  rewrite mul_1_r in E12, R7, E25.
  assert (T : merma_total m = merma_total_unit m) by now rewrite E12, E17.
  assert (D1 : merma_diaria m = merma_diaria_unit m).
  { apply Ok_inj. rewrite <- E13, <- E18, T. reflexivity. }
  assert (D2 : merma_diaria_real_fleet rr = merma_diaria_real_unit rr).
  { apply Ok_inj. rewrite <- R8, <- R3, R7. reflexivity. }
  rewrite R4, R5, R6, R9, R10, R11, E14, E15, E16, E19, E20, E21, D1, D2.
  repeat split; assumption.
Qed.

Lemma flota_de_una_unidad_witness :
  exists ss,
    calcular entradas_una_unidad = Calculado ss
    /\ merma_anual (mermas ss) = merma_anual_unit (mermas ss).
Proof.
  destruct (calcular entradas_una_unidad) as [| | | | |ss|] eqn:H;
    try (vm_compute in H; discriminate).
  exists ss. split; [reflexivity|].
  apply (flota_de_una_unidad entradas_una_unidad ss eq_refl H).
Defined.

(** ** Savings against losses *)

(** The order of three numbers whose sign bits are clear, the middle one
    not a NaN. *)
Lemma SFltb_false_trans (x y z : spec_float) :
  nonnegSF x = true -> nonnegSF y = true -> nonnegSF z = true ->
  y <> S754_nan ->
  SFltb y x = false -> SFltb z y = false -> SFltb z x = false.
Proof.
  destruct x as [[|]|[|]| |[|] mx ex]; try discriminate;
    destruct y as [[|]|[|]| |[|] my ey]; try discriminate;
    destruct z as [[|]|[|]| |[|] mz ez]; try discriminate;
    intros _ _ _ Hy; try congruence; try reflexivity;
    try (cbv; congruence).
  unfold SFltb, SFcompare.
  change (Pos.compare_cont Eq my mx) with (Pos.compare my mx).
  change (Pos.compare_cont Eq mz my) with (Pos.compare mz my).
  change (Pos.compare_cont Eq mz mx) with (Pos.compare mz mx).
  destruct (Z.compare_spec ey ex); destruct (Z.compare_spec ez ey);
    destruct (Z.compare_spec ez ex); try lia; try discriminate;
    try reflexivity; subst;
    destruct (Pos.compare_spec my mx); destruct (Pos.compare_spec mz my);
    destruct (Pos.compare_spec mz mx); try lia; try discriminate;
    reflexivity.
Qed.

Lemma ltb_false_trans (a b c : float) :
  nonneg a = true -> nonneg b = true -> nonneg c = true ->
  Prim2SF b <> S754_nan ->
  PrimFloat.ltb b a = false -> PrimFloat.ltb c b = false ->
  PrimFloat.ltb c a = false.
Proof. unfold nonneg. rewrite !ltb_spec. apply SFltb_false_trans. Qed.

(** A share [r <= 1] of an amount is not above the amount. *)
Lemma mul_share_le (x r : float) :
  nonneg x = true -> nonneg r = true -> PrimFloat.leb r 1 = true ->
  PrimFloat.ltb x (PrimFloat.mul x r) = false.
Proof.
  intros Hx Hr Hle.
  rewrite <- (mul_1_l x) at 1. rewrite (mul_comm x r).
  apply mul_mono; auto. now apply leb_ltb.
Qed.

(** A slider position divided by 100 is a share. *)
Lemma slider_share (p : Z) (r : float) :
  0 <= p <= 100 -> F64.int_truediv p 100 = Ok r ->
  nonneg r = true /\ PrimFloat.leb r 1 = true.
Proof.
  intros Hp Hr. split.
  - apply (int_truediv_nonneg p 100); [lia|lia|assumption].
  - apply (porcentaje_mono p 100); [lia|lia|lia|assumption|reflexivity].
Qed.

Lemma mul_nan_l (x y : float) :
  Prim2SF x = S754_nan -> Prim2SF (PrimFloat.mul x y) = S754_nan.
Proof.
  intros Hx. rewrite mul_spec, Hx. unfold SF64mul.
  apply SFmul_nan_l.
Qed.

Lemma ltb_nan_r (x y : float) :
  Prim2SF y = S754_nan -> PrimFloat.ltb x y = false.
Proof. intros Hy. rewrite ltb_spec, Hy. apply SFltb_nan_r. Qed.

(** X12. With both sliders within 0 and 100, the annual saving is not
    above the annual loss, and the real idle cost is not above the idle
    cost, for one unit and for the fleet. *)
Theorem ahorro_anual_bounded (inp : Entradas) (ss : SessionState) :
  1 <= num_unidades inp -> 1 <= duration_days inp ->
  0 <= porcentaje_reduccion inp <= 100 ->
  0 <= porcentaje_ralenti_real inp <= 100 ->
  calcular inp = Calculado ss ->
  let m := mermas ss in
  let rr := ralenti_real ss in
  PrimFloat.ltb (merma_anual m) (ahorro_anual m) = false
  /\ PrimFloat.ltb (costo_ralenti m) (costo_ralenti_real_unit rr) = false
  /\ PrimFloat.ltb (merma_total m) (costo_ralenti_real_fleet rr) = false.
Proof.
  intros Hn Hd Hr Hrr Hc m rr.
  pose proof (merma_anual_nonneg inp ss ltac:(lia) ltac:(lia) Hc) as NM.
  fold m in NM.
  apply calcular_Calculado in Hc as (i & mv & Pi & Pm & Hf & Hp & Ht & Hc).
  apply parse_time_string_nonneg in Pi, Pm.
  apply calculos_Ok in Hc as (Hm & _ & Hreal & _).
  fold m in Hm, Hreal. fold rr in Hreal.
  apply calcular_mermas_Ok in Hm
    as (q_idle & q_moving & f_idle & f_moving & r_red & r_real
        & E1 & E2 & _ & _ & E5 & E6 & _ & _ & E9 & _ & _ & E12
        & _ & _ & _ & _ & _ & _ & _ & _ & _ & E22 & E23 & E24 & _).
  apply calcular_ralenti_real_Ok in Hreal
    as (r_real' & _ & R1 & R2 & _ & _ & _ & _ & R7 & _).
  cbn [mul of_int int_truediv PyNum_float] in *.
  destruct (slider_share _ _ Hr E22) as [N1 L1].
  destruct (slider_share _ _ Hrr E23) as [N2 L2].
  destruct (slider_share _ _ Hrr R1) as [N3 L3].
  assert (NC : nonneg (costo_ralenti m) = true).
  { apply int_truediv_nonneg in E1; [|lia|lia].
    apply F64_truediv_Ok in E5 as [_ E5].
    rewrite E9, E6, E5, E2. auto 8 with nonneg. }
  split; [|split].
  - rewrite E24.
    destruct (Prim2SF (PrimFloat.mul (merma_anual m) r_red)) eqn:Emid.
    1,2,4: apply (ltb_false_trans _ (PrimFloat.mul (merma_anual m) r_red));
      auto using mul_share_le with nonneg; congruence.
    apply ltb_nan_r. now apply mul_nan_l.
  - rewrite R2. now apply mul_share_le.
  - rewrite R7, R2, E12.
    apply mul_mono; auto with nonneg. now apply mul_share_le.
Qed.

Lemma ahorro_anual_bounded_witness :
  exists ss,
    calcular entradas_ejemplo = Calculado ss
    /\ PrimFloat.ltb (merma_anual (mermas ss)) (ahorro_anual (mermas ss))
       = false.
Proof.
  destruct (calcular entradas_ejemplo) as [| | | | |ss|] eqn:H;
    try (vm_compute in H; discriminate).
  exists ss. split; [reflexivity|].
  apply (ahorro_anual_bounded entradas_ejemplo ss);
    [cbn; lia|cbn; lia|cbn; lia|cbn; lia|exact H].
Defined.

(** ** A slider at zero *)

Lemma mul_zero_r (x : float) : zero_or_nan (PrimFloat.mul x 0) = true.
Proof.
  unfold zero_or_nan. rewrite mul_spec. unfold SF64mul.
  change (Prim2SF 0) with (S754_zero false).
  destruct (Prim2SF x) as [s|s| |s m e]; reflexivity.
Qed.

Lemma mul_zero_or_nan_l (z y : float) :
  zero_or_nan z = true -> zero_or_nan (PrimFloat.mul z y) = true.
Proof.
  unfold zero_or_nan. rewrite mul_spec. unfold SF64mul.
  destruct (Prim2SF z) as [s|s| |s m e]; try discriminate; intros _;
    destruct (Prim2SF y) as [s'|s'| |s' m' e']; reflexivity.
Qed.

Lemma div_zero_or_nan_12 (z : float) :
  zero_or_nan z = true -> zero_or_nan (PrimFloat.div z 12) = true.
Proof.
  unfold zero_or_nan. rewrite div_spec. unfold SF64div.
  change (Prim2SF 12) with (S754_finite false 6755399441055744 (-49)).
  destruct (Prim2SF z) as [s|s| |s m e]; try discriminate; reflexivity.
Qed.

(** Nothing, less an amount that is not below zero, is not above zero. *)
Lemma sub_zero_not_positive (z y : float) :
  zero_or_nan z = true -> PrimFloat.ltb y 0 = false ->
  PrimFloat.ltb 0 (PrimFloat.sub z y) = false.
Proof.
  unfold zero_or_nan. rewrite !ltb_spec, sub_spec. unfold SF64sub.
  change (Prim2SF 0) with (S754_zero false).
  destruct (Prim2SF z) as [[|]|s| |s m e]; try discriminate; intros _;
    destruct (Prim2SF y) as [[|]|[|]| |[|] m' e'];
    cbv; congruence.
Qed.

(** X13. With the reduction slider or the real idle slider at zero and a
    rent that is not negative, the monthly net benefit is not positive
    and the investment is stored as not recoverable. *)
Theorem slider_at_zero_not_recoverable (inp : Entradas) (ss : SessionState) :
  porcentaje_reduccion inp = 0 \/ porcentaje_ralenti_real inp = 0 ->
  PrimFloat.leb 0 (renta_mensual inp) = true ->
  0 <= num_unidades inp ->
  calcular inp = Calculado ss ->
  PrimFloat.ltb 0 (neto_mensual (mermas ss)) = false
  /\ meses_para_recuperar (retorno ss) = F64.inf
  /\ roi_days (retorno ss) = F64.inf.
Proof.
  intros H0 Hrenta Hn Hc.
  apply calcular_Calculado in Hc as (i & mv & _ & _ & _ & _ & _ & Hc).
  apply calculos_Ok in Hc as (Hm & Hret & _).
  apply calcular_mermas_Ok in Hm
    as (q_idle & q_moving & f_idle & f_moving & r_red & r_real
        & _ & _ & _ & _ & _ & _ & _ & _ & _ & _ & _ & _
        & _ & _ & _ & _ & _ & _ & _ & _ & _ & E22 & E23 & E24 & _ & E26
        & E27).
  cbn [mul sub of_int int_truediv PyNum_float] in *.
  apply F64_truediv_Ok in E26 as [_ E26].
  change (F64.of_int 12) with 12%float in E26.
  assert (Z1 : zero_or_nan (ahorro_anual (mermas ss)) = true).
  { rewrite E24. destruct H0 as [H0|H0].
    - rewrite H0 in E22.
      assert (r_red = 0%float) by (apply Ok_inj; now rewrite <- E22).
      subst r_red. apply mul_zero_or_nan_l, mul_zero_r.
    - rewrite H0 in E23.
      assert (r_real = 0%float) by (apply Ok_inj; now rewrite <- E23).
      subst r_real. apply mul_zero_r. }
  assert (Z2 : zero_or_nan (ahorro_mensual (mermas ss)) = true)
    by (rewrite E26; now apply div_zero_or_nan_12).
  assert (N : PrimFloat.ltb 0 (neto_mensual (mermas ss)) = false).
  { rewrite E27. apply sub_zero_not_positive; [assumption|].
    apply mul_not_negative; auto with nonneg. }
  split; [assumption|].
  apply calcular_retorno_Ok in Hret as [(Hpos & _)|(_ & -> & ->)];
    [congruence|auto].
Qed.

Lemma slider_at_zero_not_recoverable_witness :
  exists ss,
    calcular (con_reduccion entradas_ejemplo 0) = Calculado ss
    /\ meses_para_recuperar (retorno ss) = F64.inf.
Proof.
  destruct (calcular (con_reduccion entradas_ejemplo 0))
    as [| | | | |ss|] eqn:H;
    try (vm_compute in H; discriminate).
  exists ss. split; [reflexivity|].
  apply (slider_at_zero_not_recoverable (con_reduccion entradas_ejemplo 0) ss);
    [left; reflexivity|reflexivity|cbn; lia|exact H].
Defined.

(** ** No idle time *)

Lemma div_zero_or_nan (z y : float) :
  zero_or_nan z = true -> zero_or_nan (PrimFloat.div z y) = true.
Proof.
  unfold zero_or_nan. rewrite div_spec. unfold SF64div.
  destruct (Prim2SF z) as [s|s| |s m e]; try discriminate; intros _;
    destruct (Prim2SF y) as [s'|s'| |s' m' e']; reflexivity.
Qed.

Lemma int_truediv_0 (b : Z) (q : float) :
  0 < b -> F64.int_truediv 0 b = Ok q -> q = 0%float.
Proof.
  intros Hb. unfold F64.int_truediv.
  destruct (Z.eqb_spec b 0) as [|_]; [lia|].
  destruct b as [|b|b]; try lia.
  cbn. now intros [= <-].
Qed.

(** ** The payback in the tabs *)

Lemma round_inf (n : Z) : F64.round F64.inf n = F64.inf.
Proof. reflexivity. Qed.

(** X15. After a completed calculation the payback that tab 5 computes
    again is the stored payback rounded to two decimals, in months and in
    days; when the monthly net benefit is not positive both tabs say that
    the investment is not recoverable, and whenever tab 1 says so, the
    table of tab 5 says so too. *)
Theorem retorno_tab5_spec (inp : Entradas) (ss : SessionState) :
  calcular inp = Calculado ss ->
  meses_para_recuperar (retorno_tab5 ss)
  = F64.round (meses_para_recuperar (retorno ss)) 2
  /\ roi_days (retorno_tab5 ss) = F64.round (roi_days (retorno ss)) 2
  /\ (PrimFloat.ltb 0 (neto_mensual (mermas ss)) = false ->
      beneficio_retorno (retorno ss) = NoRecuperableConElAhorroActual
      /\ celda_retorno (meses_para_recuperar (retorno_tab5 ss))
         = NoEsRecuperable
      /\ celda_retorno (roi_days (retorno_tab5 ss)) = NoEsRecuperable)
  /\ (beneficio_retorno (retorno ss) = NoRecuperableConElAhorroActual ->
      celda_retorno (meses_para_recuperar (retorno_tab5 ss))
      = NoEsRecuperable).
Proof.
  intros Hc.
  apply calcular_Calculado in Hc as (i & mv & _ & _ & _ & _ & _ & Hc).
  apply calculos_Ok in Hc as (_ & Hret & _).
  apply calcular_retorno_Ok in Hret
    as [(Hpos & Em & Hz & Ed)|(Hneg & Em & Ed)].
  - unfold retorno_tab5. rewrite Hpos. cbn.
    split; [reflexivity|]. split; [reflexivity|].
    split; [congruence|].
    unfold beneficio_retorno, celda_retorno.
    destruct (PrimFloat.eqb (meses_para_recuperar (retorno ss)) F64.inf)
      eqn:Einf; [|discriminate].
    intros _.
    assert (E : meses_para_recuperar (retorno ss) = F64.inf).
    { apply Prim2SF_inj. rewrite FloatAxioms.eqb_spec in Einf.
      change (Prim2SF F64.inf) with (S754_infinity false) in *.
      destruct (Prim2SF (meses_para_recuperar (retorno ss)))
        as [[|]|[|]| |[|] m e]; try discriminate; reflexivity. }
    rewrite E. reflexivity.
  - unfold retorno_tab5, beneficio_retorno. rewrite Hneg, Em, Ed. cbn.
    repeat split; reflexivity.
Qed.

Lemma retorno_tab5_spec_witness :
  exists ss,
    calcular (con_reduccion entradas_ejemplo 0) = Calculado ss
    /\ meses_para_recuperar (retorno_tab5 ss)
       = F64.round (meses_para_recuperar (retorno ss)) 2.
Proof.
  destruct (calcular (con_reduccion entradas_ejemplo 0))
    as [| | | | |ss|] eqn:H;
    try (vm_compute in H; discriminate).
  exists ss. split; [reflexivity|].
  apply (retorno_tab5_spec (con_reduccion entradas_ejemplo 0) ss H).
Defined.

(** ** Table styles *)

(** X16. [color_merma] answers with one style for each cell of the row,
    all the same: the red background when the cell under 'Concepto' is
    the text 'Ralentí Real', the empty style otherwise; it raises
    ([KeyError]) exactly when the row has no 'Concepto' cell. *)
Theorem color_merma_spec (row : list (string * Celda)) :
  (color_merma row = None <-> celda_de "Concepto" row = None)
  /\ forall styles,
       color_merma row = Some styles ->
       List.length styles = List.length row
       /\ ((celda_de "Concepto" row = Some (Texto etiqueta_ralenti_real)
            /\ Forall (eq "background-color: #FFCCCC"%string) styles)
           \/ (celda_de "Concepto" row <> Some (Texto etiqueta_ralenti_real)
               /\ Forall (eq EmptyString) styles)).
Proof.
  unfold color_merma.
  destruct (celda_de "Concepto" row) as [c|] eqn:Ec.
  - split.
    + split; [|discriminate].
      destruct (es_texto c etiqueta_ralenti_real); discriminate.
    + intros styles.
      destruct (es_texto c etiqueta_ralenti_real) eqn:Et; intros [= <-];
        (split; [apply repeat_length|]).
      * left. split.
        -- destruct c as [s|x]; [|discriminate].
           apply String.eqb_eq in Et. now subst.
        -- apply Forall_forall. intros x Hx.
           now apply repeat_spec in Hx.
      * right. split.
        -- intros [= ->]. unfold es_texto in Et.
           now rewrite String.eqb_refl in Et.
        -- apply Forall_forall. intros x Hx.
           now apply repeat_spec in Hx.
  - split; [tauto|discriminate].
Qed.

(** ** Division: the quotient and its location *)

Lemma iter_pos_nat {A : Type} (f : A -> A) (p : positive) :
  forall x, iter_pos f p x = Nat.iter (Pos.to_nat p) f x.
Proof.
  induction p as [p IH|p IH|]; intros x; cbn [iter_pos].
  - rewrite !IH, Pos2Nat.inj_xI.
    replace (S (2 * Pos.to_nat p))
      with (Pos.to_nat p + (Pos.to_nat p + 1))%nat by lia.
    rewrite !Nat.iter_add. reflexivity.
  - rewrite !IH, Pos2Nat.inj_xO.
    replace (2 * Pos.to_nat p)%nat
      with (Pos.to_nat p + Pos.to_nat p)%nat by lia.
    rewrite Nat.iter_add. reflexivity.
  - reflexivity.
Qed.

(** Two right shifts of the sticky number give the quotient and the
    location back. *)
Lemma shr_1_sticky (q : positive) (l : location) :
  shr_1 (shr_1 {| shr_m := sticky (Zpos q) l; shr_r := false;
                  shr_s := false |})
  = shr_record_of_loc (Zpos q) l.
Proof. destruct l as [|[| |]]; reflexivity. Qed.

Lemma Zdigits2_sticky (q : positive) (l : location) :
  Zdigits2 (sticky (Zpos q) l) = Zdigits2 (Zpos q) + 2.
Proof.
  destruct l as [|[| |]]; cbn; rewrite !Pos2Z.inj_succ; lia.
Qed.

Section Sticky.

Variables prec emax : Z.

(** The rounding of a quotient with its location is the rounding of the
    sticky number, taken as exact, two exponents below. *)
Lemma shr_fexp_sticky (q : positive) (e : Z) (l : location) :
  e <= fexp prec emax (Zdigits2 (Zpos q) + e) ->
  shr_fexp prec emax (Zpos q) e l
  = shr_fexp prec emax (sticky (Zpos q) l) (e - 2) loc_Exact.
Proof.
  intros Hal. unfold shr_fexp. rewrite Zdigits2_sticky.
  replace (Zdigits2 (Zpos q) + 2 + (e - 2)) with (Zdigits2 (Zpos q) + e)
    by lia.
  set (F := fexp prec emax (Zdigits2 (Zpos q) + e)) in *.
  unfold shr. cbn [shr_record_of_loc].
  destruct (F - e) as [|p|p] eqn:En; try lia.
  - replace (F - (e - 2)) with 2 by lia. cbn [iter_pos].
    rewrite shr_1_sticky. f_equal. lia.
  - replace (F - (e - 2)) with (Zpos (p + 2)) by lia.
    rewrite !iter_pos_nat, Pos2Nat.inj_add, Nat.iter_add.
    change (Nat.iter (Pos.to_nat 2) shr_1
              {| shr_m := sticky (Zpos q) l; shr_r := false;
                 shr_s := false |})
      with (shr_1 (shr_1 {| shr_m := sticky (Zpos q) l; shr_r := false;
                            shr_s := false |})).
    rewrite shr_1_sticky. f_equal. lia.
Qed.

Lemma binary_round_aux_sticky (s : bool) (q : positive) (e : Z)
    (l : location) :
  e <= fexp prec emax (Zdigits2 (Zpos q) + e) ->
  binary_round_aux prec emax s (Zpos q) e l
  = binary_round_aux prec emax s (sticky (Zpos q) l) (e - 2) loc_Exact.
Proof.
  intros Hal. unfold binary_round_aux. now rewrite shr_fexp_sticky.
Qed.

End Sticky.

(** The location [SFdiv] computes for a remainder. *)
Lemma new_location_of (d r : Z) :
  0 < d -> 0 <= r < d -> new_location d r = location_of r d.
Proof.
  intros Hd Hr. unfold new_location, location_of.
  destruct (Z.even d) eqn:Ev.
  - reflexivity.
  - unfold new_location_odd.
    destruct (Z.eqb_spec r 0) as [|Hn]; [reflexivity|].
    assert (Ho : Z.odd d = true) by (rewrite <- Z.negb_even, Ev; reflexivity).
    apply Z.odd_spec in Ho as [k Hk].
    f_equal.
    destruct (Z.compare_spec (2 * r + 1) d);
      destruct (Z.compare_spec (2 * r) d); try reflexivity; lia.
Qed.

(** Rounding the sticky number is rounding the fraction: the two bits
    say enough about the remainder. *)
Lemma round_half_even_sticky (q r d n : Z) :
  0 <= q -> 0 < d -> 0 <= r < d -> 0 <= n ->
  F64.round_half_even (sticky q (location_of r d)) (2 ^ (n + 2))
  = F64.round_half_even (q * d + r) (d * 2 ^ n).
Proof.
  intros Hq Hd Hr Hn.
  pose proof (pow2_pos n Hn) as HP.
  rewrite pow2_add by lia. change (2 ^ 2) with 4.
  set (P := 2 ^ n) in *.
  set (a := q / P). set (b := q mod P).
  assert (Hqab : q = P * a + b) by (apply Z.div_mod; lia).
  assert (Hb : 0 <= b < P) by (apply Z.mod_pos_bound; lia).
  clearbody a b.
  set (c := match location_of r d with
            | loc_Exact => 0
            | loc_Inexact Lt => 1
            | loc_Inexact Eq => 2
            | loc_Inexact Gt => 3
            end).
  assert (Hc : (c = 0 /\ r = 0) \/ (c = 1 /\ 0 < r /\ 2 * r < d)
               \/ (c = 2 /\ 2 * r = d) \/ (c = 3 /\ d < 2 * r)).
  { unfold c, location_of.
    destruct (Z.eqb_spec r 0) as [|Hr0]; [auto|].
    destruct (Z.compare_spec (2 * r) d); [right; right; left|right; left|
                                          right; right; right]; lia. }
  assert (Hs : sticky q (location_of r d) = 4 * q + c) by reflexivity.
  rewrite Hs. clearbody c. clear Hs.
  assert (D1 : (4 * q + c) / (P * 4) = a).
  { symmetry. apply (Z.div_unique _ _ a (4 * b + c)); lia. }
  assert (M1 : (4 * q + c) mod (P * 4) = 4 * b + c).
  { symmetry. apply (Z.mod_unique _ _ a (4 * b + c)); lia. }
  assert (Hbr : 0 <= b * d + r < d * P) by nia.
  assert (D2 : (q * d + r) / (d * P) = a).
  { symmetry. apply (Z.div_unique _ _ a (b * d + r)); [lia|nia]. }
  assert (M2 : (q * d + r) mod (d * P) = b * d + r).
  { symmetry. apply (Z.mod_unique _ _ a (b * d + r)); [lia|nia]. }
  unfold F64.round_half_even. rewrite D1, M1, D2, M2.
  assert (Hcmp : (2 * (4 * b + c) ?= P * 4) = (2 * (b * d + r) ?= d * P)).
  { destruct (Z.eq_dec n 0) as [->|Hn0].
    - change P with 1 in *.
      destruct (Z.compare_spec (2 * (4 * b + c)) (1 * 4));
        destruct (Z.compare_spec (2 * (b * d + r)) (d * 1));
        try reflexivity; nia.
    - assert (HP2 : exists P', P = 2 * P' /\ 0 < P').
      { exists (2 ^ (n - 1)). split; [|apply pow2_pos; lia].
        unfold P. replace n with (1 + (n - 1)) at 1 by lia.
        rewrite pow2_add by lia. reflexivity. }
      destruct HP2 as (P' & HP' & HP'pos).
      destruct (Z.compare_spec b P') as [Eb|Lb|Gb].
      + destruct (Z.compare_spec (2 * (4 * b + c)) (P * 4));
          destruct (Z.compare_spec (2 * (b * d + r)) (d * P));
          try reflexivity; nia.
      + assert (b <= P' - 1) by lia.
        assert (E1 : (2 * (4 * b + c) ?= P * 4) = Lt)
          by (apply Z.compare_lt_iff; lia).
        assert (E2 : (2 * (b * d + r) ?= d * P) = Lt)
          by (apply Z.compare_lt_iff; nia).
        now rewrite E1, E2.
      + assert (P' + 1 <= b) by lia.
        assert (E1 : (2 * (4 * b + c) ?= P * 4) = Gt)
          by (apply Z.compare_gt_iff; lia).
        assert (E2 : (2 * (b * d + r) ?= d * P) = Gt)
          by (apply Z.compare_gt_iff; nia).
        now rewrite E1, E2. }
  now rewrite Hcmp.
Qed.

(** ** Rounding returns canonical numbers *)

Lemma pow2_le_inv (a b : Z) : 0 <= a -> 0 <= b -> 2 ^ a <= 2 ^ b -> a <= b.
Proof. intros Ha Hb H. apply (Z.pow_le_mono_r_iff 2); lia. Qed.

Section Canonical.

Variables prec emax : Z.
Hypothesis Hprec : 2 <= prec.
Hypothesis Hemax : 2 <= emax.

(** An exact mantissa whose exponent is not above the exponent of its
    magnitude rounds to a canonical number, to zero or to infinity. *)
Lemma binary_round_aux_valid (s : bool) (m : positive) (e : Z) :
  e <= fexp prec emax (bit_length m + e) ->
  SpecFloat.valid_binary prec emax
    (binary_round_aux prec emax s (Zpos m) e loc_Exact) = true.
Proof.
  intros Hal.
  destruct (shr_fexp_exact prec emax m e) as (mrs & Hs & HJ).
  set (F := fexp prec emax (bit_length m + e)) in *.
  replace (Z.max e F) with F in * by lia.
  assert (HF : F = Z.max (bit_length m + e - prec) (3 - emax - prec))
    by (unfold F; apply fexp_eq).
  pose proof (round_of_shifted (Zpos m) (F - e) mrs ltac:(lia) HJ) as HmR.
  pose proof (bit_length_bounds m) as (B0 & B1 & B2).
  pose proof (pow2_pos (F - e) ltac:(lia)) as Hp.
  pose proof (round_half_even_bounds (Zpos m) (2 ^ (F - e))) as Hb.
  set (mR := F64.round_half_even (Zpos m) (2 ^ (F - e))) in *.
  set (L := bit_length m + e - F).
  assert (HL : L <= prec) by (unfold L; lia).
  assert (Hq0 : 0 <= Zpos m / 2 ^ (F - e)) by (apply Z.div_pos; lia).
  assert (Hhi : mR <= 2 ^ Z.max L 0).
  { assert (Zpos m / 2 ^ (F - e) < 2 ^ Z.max L 0); [|lia].
    apply Z.div_lt_upper_bound; [lia|].
    rewrite <- pow2_add by lia.
    pose proof (pow2_le (bit_length m) (F - e + Z.max L 0)
                  ltac:(unfold L; lia)).
    lia. }
  assert (Hlo : 1 <= L -> 2 ^ (L - 1) <= mR).
  { intros HL1. apply Z.le_trans with (Zpos m / 2 ^ (F - e)); [|lia].
    apply Z.div_le_lower_bound; [lia|].
    rewrite <- pow2_add by lia.
    replace (F - e + (L - 1)) with (bit_length m - 1) by (unfold L; lia).
    lia. }
  unfold binary_round_aux. rewrite Hs, HmR.
  destruct mR as [|p|p] eqn:EmR.
  - unfold shr_fexp, shr. cbn [Zdigits2 shr_record_of_loc].
    rewrite fexp_eq.
    destruct (Z.max (0 + F - prec) (3 - emax - prec) - F) eqn:En; try lia;
      reflexivity.
  - destruct (shr_fexp_exact prec emax p F) as (mrs2 & Hs2 & (J2m & _)).
    rewrite Hs2.
    pose proof (bit_length_bounds p) as (P0 & P1 & P2).
    set (E2 := Z.max F (fexp prec emax (bit_length p + F))) in *.
    assert (HE2 : E2 = Z.max F (bit_length p + F - prec))
      by (unfold E2; rewrite fexp_eq; lia).
    (* the digits of the rounded mantissa *)
    assert (Hbl : bit_length p <= Z.max L 0 + 1).
    { assert (A : 2 ^ (bit_length p - 1) <= 2 ^ Z.max L 0) by lia.
      apply pow2_le_inv in A; lia. }
    assert (Hbl' : 1 <= L -> L <= bit_length p).
    { intros HL1. specialize (Hlo HL1).
      assert (A : 2 ^ (L - 1) < 2 ^ bit_length p) by lia.
      apply pow2_lt_inv in A; lia. }
    destruct (Z.le_gt_cases (bit_length p) prec) as [Hsmall|Hbig].
    + (* no second shift *)
      assert (E2 = F) by lia.
      replace (E2 - F) with 0 in J2m by lia.
      change (2 ^ 0) with 1 in J2m. rewrite Z.div_1_r in J2m.
      rewrite J2m.
      destruct (Z.leb_spec E2 (emax - prec)) as [Hno|Hov]; [|reflexivity].
      cbn [SpecFloat.valid_binary]. unfold bounded, canonical_mantissa.
      fold (bit_length p). rewrite fexp_eq.
      apply andb_true_intro. split; [|apply Z.leb_le; lia].
      apply Z.eqb_eq.
      destruct (Z.eq_dec F (3 - emax - prec)) as [Emin|Nmin]; [lia|].
      assert (L = prec) by (unfold L; lia).
      specialize (Hbl' ltac:(lia)). lia.
    + (* a carry: the mantissa is [2^prec] *)
      assert (HLp : L = prec) by lia.
      assert (Hbp : bit_length p = prec + 1) by lia.
      assert (Hp2 : Zpos p = 2 ^ prec).
      { rewrite Hbp in P1. replace (prec + 1 - 1) with prec in P1 by lia.
        rewrite HLp in Hhi. rewrite Z.max_l in Hhi by lia. lia. }
      assert (HE2' : E2 = F + 1) by lia.
      replace (E2 - F) with 1 in J2m by lia. change (2 ^ 1) with 2 in J2m.
      assert (Hhalf : Zpos p / 2 = 2 ^ (prec - 1)).
      { rewrite Hp2. replace prec with ((prec - 1) + 1) at 1 by lia.
        rewrite pow2_add by lia. change (2 ^ 1) with 2.
        apply Z.div_mul. lia. }
      rewrite Hhalf in J2m.
      pose proof (pow2_pos (prec - 1) ltac:(lia)) as Hpp.
      destruct (shr_m mrs2) as [|mC|mC] eqn:EmC; try lia.
      destruct (Z.leb_spec E2 (emax - prec)) as [Hno|Hov]; [|reflexivity].
      cbn [SpecFloat.valid_binary]. unfold bounded, canonical_mantissa.
      fold (bit_length mC). rewrite fexp_eq.
      apply andb_true_intro. split; [|apply Z.leb_le; lia].
      apply Z.eqb_eq.
      assert (bit_length mC = prec).
      { apply bit_length_unique. rewrite J2m.
        split; [lia|]. apply Z.pow_lt_mono_r; lia. }
      lia.
  - lia.
Qed.

End Canonical.

(** ** What [SFdiv] returns on two positive numbers *)

Lemma shr_1_sticky0 (l : location) :
  l <> loc_Exact ->
  shr_1 (shr_1 {| shr_m := sticky 0 l; shr_r := false; shr_s := false |})
  = shr_record_of_loc 0 l.
Proof. destruct l as [|[| |]]; [congruence|reflexivity..]. Qed.

Lemma sticky_pos (q : Z) (l : location) :
  0 <= q -> (q = 0 -> l <> loc_Exact) ->
  exists M, sticky q l = Zpos M
            /\ (0 < q -> bit_length M = Zdigits2 q + 2)
            /\ (q = 0 -> 1 <= bit_length M <= 2).
Proof.
  intros Hq Hl. destruct q as [|q|q]; [| |lia].
  - destruct l as [|[| |]]; [now contradiction Hl|..];
      eexists; (split; [reflexivity|]); (split; [lia|]); intros _;
      cbv; split; congruence.
  - pose proof (Zdigits2_sticky q l) as Hd.
    destruct l as [|[| |]]; eexists; (split; [reflexivity|]);
      (split; [|lia]); intros _; exact Hd.
Qed.

Section Quotient.

Variables prec emax : Z.
Hypothesis Hprec : 2 <= prec.
Hypothesis Hemax : 2 <= emax.

Lemma shr_fexp_sticky0 (e : Z) (l : location) :
  l <> loc_Exact -> e <= 3 - emax - prec ->
  shr_fexp prec emax 0 e l
  = shr_fexp prec emax (sticky 0 l) (e - 2) loc_Exact.
Proof.
  intros Hl He. unfold shr_fexp.
  assert (Hd : 1 <= Zdigits2 (sticky 0 l) <= 2)
    by (destruct l as [|[| |]]; [congruence|cbv; split; congruence..]).
  cbn [Zdigits2]. rewrite !fexp_eq.
  replace (Z.max (0 + e - prec) (3 - emax - prec)) with (3 - emax - prec)
    by lia.
  replace (Z.max (Zdigits2 (sticky 0 l) + (e - 2) - prec) (3 - emax - prec))
    with (3 - emax - prec) by lia.
  unfold shr. cbn [shr_record_of_loc].
  destruct (3 - emax - prec - e) as [|p|p] eqn:En; try lia.
  - replace (3 - emax - prec - (e - 2)) with 2 by lia. cbn [iter_pos].
    rewrite shr_1_sticky0 by assumption. f_equal. lia.
  - replace (3 - emax - prec - (e - 2)) with (Zpos (p + 2)) by lia.
    rewrite !iter_pos_nat, Pos2Nat.inj_add, Nat.iter_add.
    change (Nat.iter (Pos.to_nat 2) shr_1
              {| shr_m := sticky 0 l; shr_r := false; shr_s := false |})
      with (shr_1 (shr_1 {| shr_m := sticky 0 l; shr_r := false;
                            shr_s := false |})).
    rewrite shr_1_sticky0 by assumption. f_equal. lia.
Qed.

(** The quotient [SFdiv] hands to the rounding: the numerator is shifted
    left by [s] digits, so that the quotient has the digits the format
    keeps, or sits at the least exponent. *)
Lemma SFdiv_core_spec (mx : positive) (ex : Z) (my : positive) (ey : Z)
    (q e' : Z) (l : location) :
  SFdiv_core_binary prec emax (Zpos mx) ex (Zpos my) ey = (q, e', l) ->
  exists s,
    0 <= s /\ e' = ex - ey - s
    /\ q = (Zpos mx * 2 ^ s) / Zpos my
    /\ l = location_of ((Zpos mx * 2 ^ s) mod Zpos my) (Zpos my)
    /\ 0 <= q
    /\ e' <= fexp prec emax (Zdigits2 q + e')
    /\ (q = 0 -> l <> loc_Exact /\ e' <= 3 - emax - prec).
Proof.
  unfold SFdiv_core_binary. cbn [Zdigits2].
  fold (bit_length mx) (bit_length my).
  set (D := bit_length mx + ex - (bit_length my + ey)).
  set (e0 := Z.min (fexp prec emax D) (ex - ey)).
  set (s := ex - ey - e0).
  assert (Hs : 0 <= s) by (unfold s, e0; lia).
  set (m' := match s with
             | 0 => Zpos mx
             | Zpos _ => Z.shiftl (Zpos mx) s
             | Zneg _ => 0
             end).
  assert (Hm' : m' = Zpos mx * 2 ^ s).
  { unfold m'. destruct s as [|p|p] eqn:Es; try lia.
    rewrite Z.shiftl_mul_pow2 by lia. reflexivity. }
  destruct (Z.div_eucl m' (Zpos my)) as [q0 r0] eqn:Eq.
  assert (Hq : q0 = m' / Zpos my) by (unfold Z.div; now rewrite Eq).
  assert (Hr : r0 = m' mod Zpos my) by (unfold Z.modulo; now rewrite Eq).
  intros [= <- <- <-].
  pose proof (pow2_pos s Hs) as Hp.
  pose proof (bit_length_bounds mx) as (X0 & X1 & X2).
  pose proof (bit_length_bounds my) as (Y0 & Y1 & Y2).
  assert (Hrb : 0 <= r0 < Zpos my)
    by (rewrite Hr; apply Z.mod_pos_bound; lia).
  assert (Hdm : m' = Zpos my * q0 + r0)
    by (rewrite Hq, Hr; apply Z.div_mod; lia).
  assert (Hq0 : 0 <= q0) by (rewrite Hq; apply Z.div_pos; lia).
  assert (HD : fexp prec emax D
               = Z.max (D - prec) (3 - emax - prec)) by apply fexp_eq.
  exists s. split; [assumption|]. split; [unfold s; lia|].
  split; [now rewrite <- Hm'|]. split.
  { rewrite <- Hm', <- Hr. apply new_location_of; lia. }
  split; [assumption|].
  assert (Hzero : q0 = 0 -> e0 <= 3 - emax - prec /\ 0 < r0).
  { intros ->.
    assert (Hlt : m' < Zpos my) by lia.
    assert (A : 2 ^ (bit_length mx - 1 + s) < 2 ^ bit_length my).
    { rewrite pow2_add by lia. rewrite Hm' in Hlt. nia. }
    apply pow2_lt_inv in A; [|lia|lia].
    split; [unfold s, e0, D in *; lia|].
    rewrite Hm' in Hdm. nia. }
  split.
  - destruct (Z.eq_dec q0 0) as [Ez|Nz].
    + destruct (Hzero Ez) as [Hmin _]. subst q0. cbn [Zdigits2].
      rewrite fexp_eq. lia.
    + assert (Hq1 : 1 <= q0) by lia.
      pose proof (Zdigits2_bounds q0 Hq0) as [Hd0 Hd1].
      assert (Hmag : D - e0 <= Zdigits2 q0).
      { destruct (Z.le_gt_cases (D - e0) (Zdigits2 q0)) as [|Hgt];
          [assumption|exfalso].
        (* q0 < 2^(D - e0 - 1), yet m' >= my * 2^(D - e0 - 1) *)
        assert (Hk : 0 <= D - e0 - 1) by lia.
        assert (B : q0 < 2 ^ (D - e0 - 1)).
        { pose proof (pow2_le (Zdigits2 q0) (D - e0 - 1) ltac:(lia)). lia. }
        assert (C : Zpos my * 2 ^ (D - e0 - 1) <= m').
        { rewrite Hm'.
          assert (Es : bit_length mx - 1 + s
                       = bit_length my + (D - e0 - 1))
            by (unfold s, D; lia).
          assert (P1 : 2 ^ (bit_length mx - 1) * 2 ^ s
                       = 2 ^ bit_length my * 2 ^ (D - e0 - 1)).
          { rewrite <- !pow2_add by lia. now rewrite Es. }
          pose proof (pow2_pos (D - e0 - 1) Hk). nia. }
        pose proof (pow2_pos (D - e0 - 1) Hk). nia. }
      rewrite fexp_eq. unfold e0 in *. lia.
  - intros Ez. destruct (Hzero Ez) as [Hmin Hr0]. split; [|assumption].
    rewrite (new_location_of (Zpos my) r0) by lia.
    unfold location_of.
    destruct (Z.eqb_spec r0 0) as [E0|_]; [lia|discriminate].
Qed.

(** [SFdiv] on two positive numbers: a canonical number, zero or
    infinity, whose value is the exact quotient [N / my], in units of
    [2^e'], rounded to a multiple of [2^(E - e')], ties to even; [mu] is
    the magnitude of the quotient, which fixes [E]. *)
Lemma SFdiv_finite_cases (mx : positive) (ex : Z) (my : positive) (ey : Z) :
  let out := SFdiv prec emax (S754_finite false mx ex)
               (S754_finite false my ey) in
  exists s mu E,
    let N := Zpos mx * 2 ^ s in
    let e' := ex - ey - s in
    let mR := F64.round_half_even N (Zpos my * 2 ^ (E - e')) in
    0 <= s /\ e' <= E /\ e' <= mu
    /\ E = Z.max (mu - prec) (3 - emax - prec)
    /\ N < Zpos my * 2 ^ (mu - e')
    /\ (3 - emax - prec < E ->
        e' < mu /\ Zpos my * 2 ^ (mu - 1 - e') <= N)
    /\ SpecFloat.valid_binary prec emax out = true
    /\ ((out = S754_zero false /\ mR = 0)
        \/ (exists mC eC,
              out = S754_finite false mC eC /\ E <= eC
              /\ Zpos mC * 2 ^ (eC - E) = mR)
        \/ (out = S754_infinity false
            /\ exists mC eC,
                 E <= eC /\ Zpos mC * 2 ^ (eC - E) = mR
                 /\ emax - prec < eC /\ 2 ^ (prec - 1) <= Zpos mC)).
Proof.
  intros out. unfold out. cbn [SFdiv xorb].
  destruct (SFdiv_core_binary prec emax (Zpos mx) ex (Zpos my) ey)
    as [[q e'] l] eqn:Ec.
  apply SFdiv_core_spec in Ec
    as (s & Hs & He' & Hq & Hl & Hq0 & Hal & Hz).
  set (N := Zpos mx * 2 ^ s) in *.
  set (r := N mod Zpos my) in *.
  assert (Hr : 0 <= r < Zpos my) by (apply Z.mod_pos_bound; lia).
  assert (HN : N = q * Zpos my + r).
  { rewrite Hq. unfold r. rewrite Z.mul_comm. apply Z.div_mod. lia. }
  set (F := fexp prec emax (Zdigits2 q + e')) in *.
  assert (HF : F = Z.max (Zdigits2 q + e' - prec) (3 - emax - prec))
    by apply fexp_eq.
  destruct (sticky_pos q l Hq0 ltac:(intros E0; apply (Hz E0)))
    as (M & HM & HMpos & HMzero).
  (* the rounding, on the sticky number *)
  assert (Hround : binary_round_aux prec emax false q e' l
                   = binary_round_aux prec emax false (Zpos M) (e' - 2)
                       loc_Exact).
  { rewrite <- HM. unfold binary_round_aux.
    destruct q as [|q|q]; [|now rewrite (shr_fexp_sticky prec emax)|lia].
    destruct (Hz eq_refl) as [Hl0 Hmin].
    now rewrite shr_fexp_sticky0. }
  assert (HFM : fexp prec emax (bit_length M + (e' - 2)) = F).
  { rewrite HF, fexp_eq.
    destruct (Z.eq_dec q 0) as [Ez|Nz].
    - destruct (Hz Ez) as [_ Hmin]. specialize (HMzero Ez).
      rewrite Ez. cbn [Zdigits2]. lia.
    - rewrite HMpos by lia. f_equal. lia. }
  pose proof (binary_round_aux_cases prec emax Hprec Hemax M (e' - 2))
    as Hcases.
  cbv zeta in Hcases. rewrite HFM in Hcases.
  replace (Z.max (e' - 2) F) with F in Hcases by lia.
  replace (F - (e' - 2)) with ((F - e') + 2) in Hcases by lia.
  assert (HmR : F64.round_half_even (Zpos M) (2 ^ (F - e' + 2))
                = F64.round_half_even N (Zpos my * 2 ^ (F - e'))).
  { rewrite <- HM, Hl.
    rewrite (round_half_even_sticky q r (Zpos my) (F - e')) by lia.
    now rewrite <- HN. }
  rewrite HmR, <- Hround in Hcases.
  exists s, (Zdigits2 q + e'), F. cbv zeta. rewrite <- He'.
  fold N.
  pose proof (Zdigits2_bounds q Hq0) as [Hd0 Hd1].
  split; [assumption|]. split; [assumption|]. split; [lia|].
  split; [assumption|]. split.
  { replace (Zdigits2 q + e' - e') with (Zdigits2 q) by lia. nia. }
  split.
  { intros Hbig.
    assert (Hq1 : q <> 0).
    { intros Ez. destruct (Hz Ez) as [_ Hmin]. rewrite Ez in HF.
      cbn [Zdigits2] in HF. lia. }
    destruct q as [|q|q]; try lia.
    pose proof (bit_length_bounds q) as (Q0 & Q1 & Q2).
    change (Zdigits2 (Zpos q)) with (bit_length q) in *.
    split; [lia|].
    replace (bit_length q + e' - 1 - e') with (bit_length q - 1) by lia.
    nia. }
  split.
  { rewrite Hround.
    apply (binary_round_aux_valid prec emax Hprec). lia. }
  destruct Hcases as [H0|[H1|(Ho & mC & eC & HE & Hv & Hov & Hbig)]];
    [left; exact H0|right; left; exact H1|].
  right. right. split; [assumption|]. exists mC, eC.
  repeat (split; [assumption|]).
  destruct Hbig as [Hbig|[Heq _]]; [assumption|lia].
Qed.

End Quotient.

(** ** Division keeps the order of the numerators *)

(** Two values [A1 <= A2], counted in units of [2^c0 / D], of magnitudes
    [mu1] and [mu2], each rounded to a multiple of the unit of its own
    magnitude, stay in order. *)
Lemma round_grid_mono (prec emin D A1 A2 mu1 mu2 c0 : Z) :
  0 < prec -> 0 < D -> c0 <= emin ->
  let F1 := Z.max (mu1 - prec) emin in
  let F2 := Z.max (mu2 - prec) emin in
  A1 <= A2 ->
  A1 < D * 2 ^ (mu1 - c0) -> A2 < D * 2 ^ (mu2 - c0) ->
  (emin < F1 -> D * 2 ^ (mu1 - 1 - c0) <= A1) ->
  (emin < F2 -> D * 2 ^ (mu2 - 1 - c0) <= A2) ->
  round_to_multiple A1 (D * 2 ^ (F1 - c0))
  <= round_to_multiple A2 (D * 2 ^ (F2 - c0)).
Proof.
  intros Hprec HD Hc F1 F2 Hle U1 U2 L1 L2.
  assert (HF1 : c0 <= F1) by (unfold F1; lia).
  assert (HF2 : c0 <= F2) by (unfold F2; lia).
  pose proof (pow2_pos (F1 - c0) ltac:(lia)) as P1.
  pose proof (pow2_pos (F2 - c0) ltac:(lia)) as P2.
  destruct (Z.lt_trichotomy F1 F2) as [Hlt|[Heq|Hgt]].
  - (* a power of two lies between the two values *)
    assert (Hbig : emin < F2) by lia.
    specialize (L2 Hbig).
    assert (Hmu : mu1 < mu2) by (unfold F1, F2 in *; lia).
    assert (HF2' : F2 = mu2 - prec) by (unfold F2 in *; lia).
    set (B := D * 2 ^ (mu2 - 1 - c0)) in *.
    assert (HB1 : A1 <= B).
    { destruct (Z.le_gt_cases c0 mu1) as [Hc1|Hc1].
      - pose proof (pow2_le (mu1 - c0) (mu2 - 1 - c0) ltac:(lia)).
        unfold B. nia.
      - assert (E0 : 2 ^ (mu1 - c0) = 0)
          by (apply Z.pow_neg_r; lia).
        rewrite E0 in U1.
        pose proof (pow2_pos (mu2 - 1 - c0) ltac:(lia)). unfold B. nia. }
    assert (R1 : round_to_multiple B (D * 2 ^ (F1 - c0)) = B).
    { assert (HB : B = 2 ^ (mu2 - 1 - F1) * (D * 2 ^ (F1 - c0))).
      { unfold B.
        replace (mu2 - 1 - c0) with ((mu2 - 1 - F1) + (F1 - c0)) by lia.
        rewrite pow2_add by lia. ring. }
      rewrite HB. apply round_to_multiple_mult. nia. }
    assert (R2 : round_to_multiple B (D * 2 ^ (F2 - c0)) = B).
    { assert (HB : B = 2 ^ (mu2 - 1 - F2) * (D * 2 ^ (F2 - c0))).
      { unfold B.
        replace (mu2 - 1 - c0) with ((mu2 - 1 - F2) + (F2 - c0)) by lia.
        rewrite pow2_add by lia. ring. }
      rewrite HB. apply round_to_multiple_mult. nia. }
    apply Z.le_trans with B.
    + rewrite <- R1. apply round_to_multiple_mono; [nia|assumption].
    + rewrite <- R2 at 1. apply round_to_multiple_mono; [nia|assumption].
  - rewrite <- Heq. apply round_to_multiple_mono; [nia|assumption].
  - exfalso.
    assert (Hbig : emin < F1) by lia.
    specialize (L1 Hbig).
    assert (HF1' : F1 = mu1 - prec) by (unfold F1 in *; lia).
    assert (Hmu : mu2 < mu1) by (unfold F1, F2 in *; lia).
    assert (A : 2 ^ (mu1 - 1 - c0) < 2 ^ (mu2 - c0)) by nia.
    destruct (Z.le_gt_cases c0 mu2) as [Hc2|Hc2].
    + apply pow2_lt_inv in A; lia.
    + assert (E0 : 2 ^ (mu2 - c0) = 0) by (apply Z.pow_neg_r; lia).
      pose proof (pow2_pos (mu1 - 1 - c0) ltac:(lia)). lia.
Qed.

Section DivisionOrder.

Variables prec emax : Z.
Hypothesis Hprec : 2 <= prec.
Hypothesis Hemax : 2 <= emax.

(** Two positive numerators in order, one positive divisor: the
    quotients are in order.  The numerators need not be canonical. *)
Lemma SFdiv_finite_mono (mx1 : positive) (ex1 : Z) (mx2 : positive)
    (ex2 : Z) (my : positive) (ey c : Z) :
  c <= ex1 -> c <= ex2 ->
  Zpos mx1 * 2 ^ (ex1 - c) <= Zpos mx2 * 2 ^ (ex2 - c) ->
  SFltb (SFdiv prec emax (S754_finite false mx2 ex2)
           (S754_finite false my ey))
        (SFdiv prec emax (S754_finite false mx1 ex1)
           (S754_finite false my ey)) = false.
Proof.
  intros Hc1 Hc2 Hle.
  destruct (SFdiv_finite_cases prec emax Hprec Hemax mx1 ex1 my ey)
    as (s1 & mu1 & E1 & Hs1 & HeE1 & Hemu1 & HE1 & U1 & L1 & V1 & C1).
  destruct (SFdiv_finite_cases prec emax Hprec Hemax mx2 ex2 my ey)
    as (s2 & mu2 & E2 & Hs2 & HeE2 & Hemu2 & HE2 & U2 & L2 & V2 & C2).
  set (out1 := SFdiv prec emax (S754_finite false mx1 ex1)
                 (S754_finite false my ey)) in *.
  set (out2 := SFdiv prec emax (S754_finite false mx2 ex2)
                 (S754_finite false my ey)) in *.
  set (e1 := ex1 - ey - s1) in *. set (e2 := ex2 - ey - s2) in *.
  set (N1 := Zpos mx1 * 2 ^ s1) in *. set (N2 := Zpos mx2 * 2 ^ s2) in *.
  set (mR1 := F64.round_half_even N1 (Zpos my * 2 ^ (E1 - e1))) in *.
  set (mR2 := F64.round_half_even N2 (Zpos my * 2 ^ (E2 - e2))) in *.
  set (emin := 3 - emax - prec) in *.
  set (c0 := Z.min (Z.min e1 e2) (Z.min emin (c - ey))).
  assert (Hc01 : c0 <= e1) by (unfold c0; lia).
  assert (Hc02 : c0 <= e2) by (unfold c0; lia).
  assert (Hc0m : c0 <= emin) by (unfold c0; lia).
  assert (Hc0c : c0 + ey <= c) by (unfold c0; lia).
  assert (HEm1 : emin <= E1) by lia.
  assert (HEm2 : emin <= E2) by lia.
  set (A1 := N1 * 2 ^ (e1 - c0)). set (A2 := N2 * 2 ^ (e2 - c0)).
  pose proof (pow2_pos (e1 - c0) ltac:(lia)) as Pe1.
  pose proof (pow2_pos (e2 - c0) ltac:(lia)) as Pe2.
  (* the numerators, at the common scale *)
  assert (HA1 : A1 = Zpos mx1 * 2 ^ (ex1 - c) * 2 ^ (c - ey - c0)).
  { unfold A1, N1. rewrite <- !Z.mul_assoc, <- !pow2_add by lia.
    do 2 f_equal. unfold e1. lia. }
  assert (HA2 : A2 = Zpos mx2 * 2 ^ (ex2 - c) * 2 ^ (c - ey - c0)).
  { unfold A2, N2. rewrite <- !Z.mul_assoc, <- !pow2_add by lia.
    do 2 f_equal. unfold e2. lia. }
  assert (HA : A1 <= A2).
  { rewrite HA1, HA2.
    apply Z.mul_le_mono_nonneg_r; [|assumption].
    pose proof (pow2_pos (c - ey - c0) ltac:(lia)). lia. }
  (* the rounded values, in units of [2^c0 / my] *)
  assert (HR : forall N e E,
             c0 <= e -> e <= E ->
             round_to_multiple (N * 2 ^ (e - c0)) (Zpos my * 2 ^ (E - c0))
             = F64.round_half_even N (Zpos my * 2 ^ (E - e))
               * 2 ^ (E - c0) * Zpos my).
  { intros N e E H1 H2. unfold round_to_multiple.
    assert (Hpw : 2 ^ (E - c0) = 2 ^ (E - e) * 2 ^ (e - c0)).
    { rewrite <- pow2_add by lia. f_equal. lia. }
    rewrite Hpw, (Z.mul_assoc (Zpos my) (2 ^ (E - e)) (2 ^ (e - c0))).
    rewrite round_half_even_scale.
    - ring.
    - pose proof (pow2_pos (E - e) ltac:(lia)). lia.
    - apply pow2_pos. lia. }
  assert (HO : mR1 * 2 ^ (E1 - c0) <= mR2 * 2 ^ (E2 - c0)).
  { assert (Hg : round_to_multiple A1 (Zpos my * 2 ^ (E1 - c0))
                 <= round_to_multiple A2 (Zpos my * 2 ^ (E2 - c0))).
    { rewrite HE1, HE2.
      apply (round_grid_mono prec emin (Zpos my) A1 A2 mu1 mu2 c0);
        try lia.
      - unfold A1. replace (mu1 - c0) with ((mu1 - e1) + (e1 - c0)) by lia.
        rewrite pow2_add, Z.mul_assoc by lia.
        apply Z.mul_lt_mono_pos_r; assumption.
      - unfold A2. replace (mu2 - c0) with ((mu2 - e2) + (e2 - c0)) by lia.
        rewrite pow2_add, Z.mul_assoc by lia.
        apply Z.mul_lt_mono_pos_r; assumption.
      - intros Hb. rewrite <- HE1 in Hb.
        destruct (L1 Hb) as [Hk Hl]. unfold A1.
        replace (mu1 - 1 - c0) with ((mu1 - 1 - e1) + (e1 - c0)) by lia.
        rewrite pow2_add, Z.mul_assoc by lia.
        apply Z.mul_le_mono_nonneg_r; [lia|assumption].
      - intros Hb. rewrite <- HE2 in Hb.
        destruct (L2 Hb) as [Hk Hl]. unfold A2.
        replace (mu2 - 1 - c0) with ((mu2 - 1 - e2) + (e2 - c0)) by lia.
        rewrite pow2_add, Z.mul_assoc by lia.
        apply Z.mul_le_mono_nonneg_r; [lia|assumption]. }
    unfold A1, A2 in Hg. rewrite !HR in Hg by lia. fold mR1 mR2 in Hg.
    apply (Z.mul_le_mono_pos_r _ _ (Zpos my)); [lia|assumption]. }
  (* the outcomes *)
  clear - Hprec HO V1 V2 C1 C2 HeE1 HeE2 Hc01 Hc02 HEm1 HEm2 Hc0m.
  clearbody out1 out2 mR1 mR2 e1 e2 c0 emin.
  destruct C1 as [[Ho1 Hz1] | [(mC1 & eC1 & Ho1 & HEC1 & Hv1)
                              | (Ho1 & mC1 & eC1 & HEC1 & Hv1 & Hov1 & Hb1)]];
    destruct C2 as [[Ho2 Hz2] | [(mC2 & eC2 & Ho2 & HEC2 & Hv2)
                                | (Ho2 & mC2 & eC2 & HEC2 & Hv2 & Hov2 & Hb2)]];
    rewrite Ho1, Ho2 in *; try reflexivity.
  - (* finite, zero *)
    exfalso. rewrite <- Hv1, Hz2 in HO.
    pose proof (pow2_pos (eC1 - E1) ltac:(lia)) as Q1.
    pose proof (pow2_pos (E1 - c0) ltac:(lia)) as Q2.
    clear - HO Q1 Q2. nia.
  - (* finite, finite *)
    destruct (SFltb (S754_finite false mC2 eC2) (S754_finite false mC1 eC1))
      eqn:Hlt; [|reflexivity].
    exfalso.
    pose proof (SFltb_value prec emax Hprec mC2 eC2 mC1 eC1 c0 V2 V1
                  ltac:(lia) ltac:(lia) Hlt) as Hval.
    rewrite <- Hv1, <- Hv2 in HO.
    rewrite <- !Z.mul_assoc, <- !pow2_add in HO by lia.
    replace (eC1 - E1 + (E1 - c0)) with (eC1 - c0) in HO by lia.
    replace (eC2 - E2 + (E2 - c0)) with (eC2 - c0) in HO by lia.
    lia.
  - (* infinity, zero *)
    exfalso. rewrite <- Hv1, Hz2 in HO.
    pose proof (pow2_pos (eC1 - E1) ltac:(lia)) as Q1.
    pose proof (pow2_pos (E1 - c0) ltac:(lia)) as Q2.
    clear - HO Q1 Q2. nia.
  - (* infinity, finite *)
    exfalso.
    rewrite <- Hv1, <- Hv2 in HO.
    rewrite <- !Z.mul_assoc, <- !pow2_add in HO by lia.
    replace (eC1 - E1 + (E1 - c0)) with (eC1 - c0) in HO by lia.
    replace (eC2 - E2 + (E2 - c0)) with (eC2 - c0) in HO by lia.
    apply (valid_finite prec emax) in V2 as (Hd2 & He2 & _).
    pose proof (bit_length_bounds mC2) as (D0 & _ & D2).
    pose proof (pow2_le (bit_length mC2) prec ltac:(lia)).
    pose proof (pow2_pos (eC2 - c0) ltac:(lia)).
    pose proof (pow2_pos (eC1 - c0) ltac:(lia)).
    assert (Zpos mC2 * 2 ^ (eC2 - c0) < 2 ^ prec * 2 ^ (eC2 - c0))
      by (apply Z.mul_lt_mono_pos_r; lia).
    assert (2 ^ (prec - 1) * 2 ^ (eC1 - c0) <= Zpos mC1 * 2 ^ (eC1 - c0))
      by (apply Z.mul_le_mono_nonneg_r; lia).
    assert (2 ^ prec * 2 ^ (eC2 - c0) <= 2 ^ (prec - 1) * 2 ^ (eC1 - c0)).
    { rewrite <- !pow2_add by lia. apply pow2_le. lia. }
    lia.
Qed.

End DivisionOrder.

Section DivisionOrderAll.

Variables prec emax : Z.
Hypothesis Hprec : 2 <= prec.
Hypothesis Hemax : 2 <= emax.

(** Division by a number whose sign bit is clear keeps the order of two
    such numbers. *)
Lemma SFdiv_mono (x1 x2 y : spec_float) :
  SpecFloat.valid_binary prec emax x1 = true ->
  SpecFloat.valid_binary prec emax x2 = true ->
  nonnegSF x1 = true -> nonnegSF x2 = true -> nonnegSF y = true ->
  SFltb x2 x1 = false ->
  SFltb (SFdiv prec emax x2 y) (SFdiv prec emax x1 y) = false.
Proof.
  intros V1 V2 N1 N2 Ny Hlt.
  destruct y as [[|]|[|]| |[|] my ey]; try discriminate.
  - destruct x1 as [[|]|[|]| |[|] m1 e1]; try discriminate;
      destruct x2 as [[|]|[|]| |[|] m2 e2]; try discriminate; reflexivity.
  - destruct x1 as [[|]|[|]| |[|] m1 e1]; try discriminate;
      destruct x2 as [[|]|[|]| |[|] m2 e2]; try discriminate; reflexivity.
  - destruct x1 as [[|]|[|]| |[|] m1 e1]; try discriminate;
      destruct x2 as [[|]|[|]| |[|] m2 e2]; try discriminate; reflexivity.
  - destruct x1 as [[|]|[|]| |[|] m1 e1]; try discriminate.
    + (* zero *)
      change (SFdiv prec emax (S754_zero false) (S754_finite false my ey))
        with (S754_zero false).
      apply SFltb_nonneg_zero. now apply SFdiv_nonneg.
    + (* infinity *)
      destruct x2 as [[|]|[|]| |[|] m2 e2]; try discriminate; reflexivity.
    + (* NaN *)
      apply SFltb_nan_r.
    + (* a positive number *)
      destruct x2 as [[|]|[|]| |[|] m2 e2]; try discriminate.
      * apply SFltb_inf_l.
      * apply SFltb_nan_l.
      * apply SFltb_false_leb in Hlt; [|discriminate|discriminate].
        apply (SFdiv_finite_mono prec emax Hprec Hemax m1 e1 m2 e2 my ey
                 (Z.min e1 e2)); [lia|lia|].
        apply (SFleb_value prec emax Hprec); try assumption; lia.
Qed.

End DivisionOrderAll.

(** Dividing by a non-negative number keeps the order: if [b] is not
    below [a], then [b / c] is not below [a / c]. *)
Lemma div_mono (a b c : float) :
  nonneg a = true -> nonneg b = true -> nonneg c = true ->
  PrimFloat.ltb b a = false ->
  PrimFloat.ltb (PrimFloat.div b c) (PrimFloat.div a c) = false.
Proof.
  unfold nonneg. intros Na Nb Nc. rewrite !ltb_spec, !div_spec.
  unfold SF64div.
  apply (SFdiv_mono prec emax binary64_prec binary64_emax);
    try assumption; apply Prim2SF_valid.
Qed.

(** ** Shares *)

(** A positive integer divided by itself is one. *)
Lemma SFdiv_self (b : positive) :
  SFdiv prec emax (S754_finite false b 0) (S754_finite false b 0)
  = S754_finite false 4503599627370496 (-52).
Proof.
  destruct (SFdiv_finite_cases prec emax binary64_prec binary64_emax
              b 0 b 0)
    as (s & mu & E & Hs & HeE & Hemu & HE & U & L & V & C).
  set (out := SFdiv prec emax (S754_finite false b 0)
                (S754_finite false b 0)) in *.
  replace (0 - 0 - s) with (- s) in * by lia.
  unfold prec, emax in HE, L, C. 
  pose proof (pow2_pos s Hs) as Ps.
  assert (Hmu1 : 1 <= mu).
  { destruct (Z.le_gt_cases 1 mu) as [|Hlt]; [assumption|exfalso].
    assert (mu - - s <= s) by lia.
    destruct (Z.le_gt_cases 0 (mu - - s)) as [Hk|Hk].
    - pose proof (pow2_le (mu - - s) s ltac:(lia)). nia.
    - assert (E0 : 2 ^ (mu - - s) = 0) by (apply Z.pow_neg_r; lia).
      rewrite E0 in U. nia. }
  assert (Hbig : 3 - 1024 - 53 < E) by lia.
  destruct (L Hbig) as [_ Hl].
  assert (Hmu : mu = 1).
  { destruct (Z.le_gt_cases mu 1) as [|Hgt]; [lia|exfalso].
    assert (A : 2 ^ (mu - 1 - - s) <= 2 ^ s) by nia.
    apply pow2_le_inv in A; lia. }
  assert (HE' : E = -52) by lia.
  clear HE Hbig L. subst mu E.
  assert (Hs52 : 52 <= s) by lia.
  assert (HmR : F64.round_half_even (Zpos b * 2 ^ s)
                  (Zpos b * 2 ^ (-52 - - s)) = 2 ^ 52).
  { replace (Zpos b * 2 ^ s)
      with (2 ^ 52 * (Zpos b * 2 ^ (-52 - - s))).
    - apply round_half_even_mult.
      pose proof (pow2_pos (-52 - - s) ltac:(lia)). nia.
    - replace s with (52 + (-52 - - s)) at 2 by lia.
      rewrite pow2_add by lia. ring. }
  rewrite HmR in C.
  destruct C as [[_ H0]|[(mC & eC & -> & HEC & Hv)
                        |(_ & mC & eC & HEC & Hv & Hov & _)]].
  - discriminate H0.
  - apply (valid_finite prec emax) in V as (Hd & He & Hc).
    unfold prec, emax in Hd, He, Hc.
    pose proof (bit_length_bounds mC) as (D0 & D1 & D2).
    pose proof (pow2_pos (eC - -52) ltac:(lia)) as Pe.
    destruct Hc as [Hc|Hc]; [|lia].
    rewrite Hc in D1. change (2 ^ (53 - 1)) with (2 ^ 52) in D1.
    assert (He1 : 2 ^ (eC - -52) = 1) by nia.
    assert (eC = -52).
    { destruct (Z.eq_dec eC (-52)) as [|Hne]; [assumption|exfalso].
      pose proof (pow2_le 1 (eC - -52) ltac:(lia)) as Hp.
      change (2 ^ 1) with 2 in Hp. lia. }
    subst eC. f_equal. rewrite He1 in Hv.
    change (2 ^ 52) with 4503599627370496 in Hv. lia.
  - exfalso. unfold prec, emax in Hov.
    pose proof (pow2_le 53 (eC - -52) ltac:(lia)) as Hp.
    assert (H53 : 2 ^ 52 < 2 ^ 53) by reflexivity.
    assert (1 * 2 ^ (eC - -52) <= Zpos mC * 2 ^ (eC - -52))
      by (apply Z.mul_le_mono_nonneg_r; lia).
    lia.
Qed.

Lemma int_truediv_self (b : Z) :
  0 < b -> F64.int_truediv b b = Ok 1%float.
Proof.
  intros Hb. unfold F64.int_truediv.
  destruct (Z.eqb_spec b 0) as [|_]; [lia|].
  destruct b as [|b|b]; try lia.
  cbn [F64.Z2SF]. rewrite SFdiv_self. reflexivity.
Qed.

(** A part divided by the whole is one at most. *)
Lemma int_truediv_le_1 (a b : Z) (q : float) :
  0 <= a <= b -> 0 < b -> F64.int_truediv a b = Ok q ->
  PrimFloat.ltb 1 q = false.
Proof.
  intros Ha Hb. unfold F64.int_truediv.
  destruct (Z.eqb_spec b 0) as [|_]; [lia|].
  destruct b as [|b|b]; try lia.
  destruct a as [|a|a]; try lia.
  - cbn. now intros [= <-].
  - cbn [F64.Z2SF].
    set (X := SFdiv prec emax (S754_finite false a 0)
                (S754_finite false b 0)).
    intros Hq.
    assert (Eq : q = SF2Prim X)
      by (destruct X; try discriminate; now injection Hq).
    assert (VX : valid_binary X = true).
    { destruct (SFdiv_finite_cases prec emax binary64_prec binary64_emax
                  a 0 b 0) as (s & mu & E & _ & _ & _ & _ & _ & _ & V & _).
      exact V. }
    rewrite Eq, ltb_spec, (Prim2SF_SF2Prim X VX).
    change (Prim2SF 1) with (S754_finite false 4503599627370496 (-52)).
    rewrite <- (SFdiv_self b).
    apply (SFdiv_finite_mono prec emax binary64_prec binary64_emax
             a 0 b 0 b 0 0); [lia|lia|].
    change (2 ^ (0 - 0)) with 1. lia.
Qed.

(** ** Dividing by one *)

(** Two canonical numbers of the same value are the same number. *)
Lemma canonical_unique (m1 : positive) (e1 : Z) (m2 : positive) (e2 : Z) :
  SpecFloat.valid_binary prec emax (S754_finite false m1 e1) = true ->
  SpecFloat.valid_binary prec emax (S754_finite false m2 e2) = true ->
  e1 <= e2 -> Zpos m2 * 2 ^ (e2 - e1) = Zpos m1 ->
  m2 = m1 /\ e2 = e1.
Proof.
  intros V1 V2 Hle Hv.
  destruct (Z.eq_dec e1 e2) as [<-|Hne].
  - rewrite Z.sub_diag in Hv. change (2 ^ 0) with 1 in Hv.
    split; [lia|reflexivity].
  - exfalso.
    pose proof (canon_lt prec emax binary64_prec m1 e1 m2 e2 e1 V1 V2
                  ltac:(lia) ltac:(lia)) as Hlt.
    rewrite Z.sub_diag in Hlt. change (2 ^ 0) with 1 in Hlt. lia.
Qed.

Lemma SFdiv_1_r (m : positive) (e : Z) :
  SpecFloat.valid_binary prec emax (S754_finite false m e) = true ->
  SFdiv prec emax (S754_finite false m e)
    (S754_finite false 4503599627370496 (-52))
  = S754_finite false m e.
Proof.
  intros Vx.
  destruct (SFdiv_finite_cases prec emax binary64_prec binary64_emax
              m e 4503599627370496 (-52))
    as (s & mu & E & Hs & HeE & Hemu & HE & U & L & V & C).
  set (out := SFdiv prec emax (S754_finite false m e)
                (S754_finite false 4503599627370496 (-52))) in *.
  pose proof (valid_finite prec emax _ _ _ Vx) as (Hd & He & Hc).
  pose proof (bit_length_bounds m) as (B0 & B1 & B2).
  pose proof (pow2_pos s Hs) as Ps.
  change (Zpos 4503599627370496) with (2 ^ 52) in *.
  set (e' := e - -52 - s) in *.
  assert (HK : 2 ^ 52 * 2 ^ (mu - e') = 2 ^ (mu - e + s)).
  { rewrite <- pow2_add by lia. f_equal. unfold e'. lia. }
  rewrite HK in U.
  (* the magnitude of the quotient is the magnitude of the numerator *)
  assert (Hmue : e < mu).
  { destruct (Z.le_gt_cases mu e) as [Hk|Hk]; [exfalso|assumption].
    pose proof (pow2_le (mu - e + s) s ltac:(unfold e' in *; lia)) as Hp.
    assert (1 * 2 ^ s <= Zpos m * 2 ^ s)
      by (apply Z.mul_le_mono_nonneg_r; lia).
    lia. }
  assert (HU : Zpos m < 2 ^ (mu - e)).
  { rewrite pow2_add in U by lia.
    apply Z.mul_lt_mono_pos_r in U; assumption. }
  assert (Hmu : bit_length m + e <= mu).
  { assert (A : 2 ^ (bit_length m - 1) < 2 ^ (mu - e)) by lia.
    apply pow2_lt_inv in A; lia. }
  assert (HEe : E = e).
  { destruct (Z.le_gt_cases E (3 - emax - prec)) as [Hmin|Hbig].
    - unfold prec, emax in *. lia.
    - destruct (L Hbig) as [Hk Hl].
      assert (A : 2 ^ (mu - 1 - e) * 2 ^ s <= Zpos m * 2 ^ s).
      { replace (2 ^ (mu - 1 - e) * 2 ^ s)
          with (2 ^ 52 * 2 ^ (mu - 1 - e')); [assumption|].
        rewrite <- !pow2_add by lia.
        f_equal. unfold e'. lia. }
      apply Z.mul_le_mono_pos_r in A; [|assumption].
      assert (A' : 2 ^ (mu - 1 - e) < 2 ^ bit_length m) by lia.
      apply pow2_lt_inv in A'; [|lia|lia].
      unfold prec, emax in *. lia. }
  assert (Hs52 : 52 <= s) by (unfold e' in *; lia).
  assert (HmR : F64.round_half_even (Zpos m * 2 ^ s)
                  (2 ^ 52 * 2 ^ (E - e')) = Zpos m).
  { replace (2 ^ 52 * 2 ^ (E - e')) with (2 ^ s).
    - apply round_half_even_mult. assumption.
    - rewrite <- pow2_add by lia. f_equal. unfold e'. lia. }
  rewrite HmR in C. clear HmR U L HU.
  destruct C as [[_ H0]|[(mC & eC & Ho & HEC & Hv)
                        |(_ & mC & eC & HEC & Hv & Hov & Hbig)]].
  - discriminate H0.
  - rewrite Ho in V |- *. rewrite HEe in *.
    destruct (canonical_unique m e mC eC Vx V HEC Hv) as [-> ->].
    reflexivity.
  - exfalso. rewrite HEe in *.
    pose proof (pow2_le 1 (eC - e) ltac:(lia)) as Hp.
    change (2 ^ 1) with 2 in Hp.
    assert (2 ^ (prec - 1) * 2 <= Zpos mC * 2 ^ (eC - e)).
    { apply Z.le_trans with (Zpos mC * 2);
        [apply Z.mul_le_mono_nonneg_r; lia
        |apply Z.mul_le_mono_nonneg_l; lia]. }
    assert (Hpw : 2 ^ prec = 2 ^ (prec - 1) * 2) by reflexivity.
    pose proof (pow2_le (bit_length m) prec ltac:(lia)). lia.
Qed.

Lemma div_1_r (x : float) : PrimFloat.div x 1 = x.
Proof.
  apply Prim2SF_inj.
  pose proof (Prim2SF_valid x) as Vx.
  rewrite div_spec. unfold SF64div.
  change (Prim2SF 1) with (S754_finite false 4503599627370496 (-52)).
  destruct (Prim2SF x) as [[|]|[|]| |[|] m e]; try reflexivity.
  - cbn [SFdiv xorb].
    destruct (SFdiv_core_binary prec emax (Zpos m) e
                (Zpos 4503599627370496) (-52)) as [[q e'] l] eqn:Ec.
    rewrite binary_round_aux_opp.
    assert (E : binary_round_aux prec emax false q e' l
                = S754_finite false m e).
    { pose proof (SFdiv_1_r m e Vx) as H. cbn [SFdiv xorb] in H.
      now rewrite Ec in H. }
    now rewrite E.
  - now apply SFdiv_1_r.
Qed.

(** ** The shares of the period *)

(** One side of the split: a time that is part of the total gives a
    percentage of at most 100, a fuel volume of at most the total fuel
    and a cost of at most the total cost. *)
Lemma parte_acotada (a t : Z) (q fuel price : float) :
  0 <= a <= t -> 0 < t ->
  nonneg fuel = true -> nonneg price = true ->
  F64.int_truediv a t = Ok q ->
  PrimFloat.ltb 100 (PrimFloat.mul q 100) = false
  /\ PrimFloat.ltb fuel
       (PrimFloat.mul (PrimFloat.div (PrimFloat.mul q 100) 100) fuel) = false
  /\ PrimFloat.ltb (PrimFloat.mul fuel price)
       (PrimFloat.mul
          (PrimFloat.mul (PrimFloat.div (PrimFloat.mul q 100) 100) fuel)
          price) = false.
Proof.
  intros Ha Ht Nf Np Eq.
  pose proof (int_truediv_le_1 a t q Ha Ht Eq) as Hq.
  pose proof (int_truediv_nonneg a t q ltac:(lia) Ht Eq) as Nq.
  assert (N100 : nonneg 100 = true) by reflexivity.
  assert (N1 : nonneg 1 = true) by reflexivity.
  assert (P : PrimFloat.ltb 100 (PrimFloat.mul q 100) = false).
  { pose proof (mul_mono q 1 100 Nq N1 N100 Hq) as P.
    now rewrite mul_1_l in P. }
  assert (F : PrimFloat.ltb 1 (PrimFloat.div (PrimFloat.mul q 100) 100)
              = false).
  { apply (div_mono (PrimFloat.mul q 100) 100 100);
      auto using mul_nonneg. }
  assert (C : PrimFloat.ltb fuel
                (PrimFloat.mul (PrimFloat.div (PrimFloat.mul q 100) 100)
                   fuel) = false).
  { pose proof (mul_mono (PrimFloat.div (PrimFloat.mul q 100) 100) 1 fuel
                  ltac:(auto using mul_nonneg, div_nonneg) N1 Nf F) as C.
    now rewrite mul_1_l in C. }
  repeat split; try assumption.
  apply mul_mono; auto using mul_nonneg, div_nonneg.
Qed.

(** X17. In a stored calculation neither percentage is above 100,
    neither fuel part is above the total fuel and neither cost is above
    the total cost, with binary64 rounding at every step. *)
Theorem partes_acotadas (inp : Entradas) (ss : SessionState) :
  calcular inp = Calculado ss ->
  let m := mermas ss in
  PrimFloat.ltb 100 (idle_percentage m) = false
  /\ PrimFloat.ltb 100 (moving_percentage m) = false
  /\ PrimFloat.ltb (combustible_total inp) (combustible_ralenti m) = false
  /\ PrimFloat.ltb (combustible_total inp) (combustible_movimiento m) = false
  /\ PrimFloat.ltb (costo_total m) (costo_ralenti m) = false
  /\ PrimFloat.ltb (costo_total m) (costo_movimiento m) = false.
Proof.
  intros Hc m.
  apply calcular_Calculado in Hc as (i & mv & Pi & Pm & Hf & Hp & Ht & Hc).
  apply parse_time_string_nonneg in Pi, Pm.
  apply calculos_Ok in Hc as (Hm & _).
  fold m in Hm.
  apply calcular_mermas_Ok in Hm
    as (q_idle & q_moving & f_idle & f_moving & r_red & r_real
        & E1 & E2 & E3 & E4 & E5 & E6 & E7 & E8 & E9 & E10 & E11 & _).
  apply F64_truediv_Ok in E5 as [_ E5].
  apply F64_truediv_Ok in E7 as [_ E7].
  cbn [mul of_int int_truediv PyNum_float] in *.
  change (F64.of_int 100) with 100%float in *.
  apply leb_0_false_nonneg in Hf, Hp.
  destruct (parte_acotada i (i + mv) q_idle _ _
              ltac:(lia) ltac:(lia) Hf Hp E1) as (A1 & A2 & A3).
  destruct (parte_acotada mv (i + mv) q_moving _ _
              ltac:(lia) ltac:(lia) Hf Hp E3) as (B1 & B2 & B3).
  rewrite E9, E10, E11, E6, E8, E5, E7, E2, E4.
  repeat split; assumption.
Qed.

Lemma partes_acotadas_witness :
  exists ss,
    calcular entradas_ejemplo = Calculado ss
    /\ PrimFloat.ltb 100 (idle_percentage (mermas ss)) = false.
Proof.
  destruct (calcular entradas_ejemplo) as [| | | | |ss|] eqn:H;
    try (vm_compute in H; discriminate).
  exists ss. split; [reflexivity|].
  apply (partes_acotadas entradas_ejemplo ss H).
Defined.

(** ** The real idle figures against the plain ones *)

(** X18. With the real idle slider within 0 and 100, each real idle
    loss (per day, week, month and year, for one unit and for the
    fleet) is not above the loss it is a share of. *)
Theorem ralenti_real_acotado (inp : Entradas) (ss : SessionState) :
  0 <= num_unidades inp -> 1 <= duration_days inp ->
  0 <= porcentaje_ralenti_real inp <= 100 ->
  calcular inp = Calculado ss ->
  let m := mermas ss in
  let rr := ralenti_real ss in
  PrimFloat.ltb (merma_diaria_unit m) (merma_diaria_real_unit rr) = false
  /\ PrimFloat.ltb (merma_semanal_unit m) (merma_semanal_real_unit rr) = false
  /\ PrimFloat.ltb (merma_mensual_unit m) (merma_mensual_real_unit rr) = false
  /\ PrimFloat.ltb (merma_anual_unit m) (merma_anual_real_unit rr) = false
  /\ PrimFloat.ltb (merma_diaria m) (merma_diaria_real_fleet rr) = false
  /\ PrimFloat.ltb (merma_semanal m) (merma_semanal_real_fleet rr) = false
  /\ PrimFloat.ltb (merma_mensual m) (merma_mensual_real_fleet rr) = false
  /\ PrimFloat.ltb (merma_anual m) (merma_anual_real_fleet rr) = false.
Proof.
  intros Hn Hd Hrr Hc m rr.
  apply calcular_Calculado in Hc as (i & mv & Pi & Pm & Hf & Hp & Ht & Hc).
  apply parse_time_string_nonneg in Pi, Pm.
  apply calculos_Ok in Hc as (Hm & _ & Hreal & _).
  fold m in Hm, Hreal. fold rr in Hreal.
  apply calcular_mermas_Ok in Hm
    as (q_idle & q_moving & f_idle & f_moving & r_red & r_real
        & E1 & E2 & _ & _ & E5 & E6 & _ & _ & E9 & _ & _ & E12
        & E13 & E14 & E15 & E16 & E17 & E18 & E19 & E20 & E21 & _).
  apply calcular_ralenti_real_Ok in Hreal
    as (r & _ & R1 & R2 & R3 & R4 & R5 & R6 & R7 & R8 & R9 & R10 & R11).
  apply F64_truediv_Ok in E5 as [_ E5].
  apply F64_truediv_Ok in E13 as [_ E13].
  apply F64_truediv_Ok in E18 as [_ E18].
  apply F64_truediv_Ok in R3 as [_ R3].
  apply F64_truediv_Ok in R8 as [_ R8].
  cbn [mul of_int int_truediv PyNum_float] in *.
  destruct (slider_share _ _ Hrr R1) as [Nr Lr].
  set (d := F64.of_int (duration_days inp)) in *.
  assert (Nd : nonneg d = true) by (apply of_int_nonneg; lia).
  assert (Nn : nonneg (F64.of_int (num_unidades inp)) = true)
    by (apply of_int_nonneg; lia).
  assert (NC : nonneg (costo_ralenti m) = true).
  { apply int_truediv_nonneg in E1; [|lia|lia].
    rewrite E9, E6, E5, E2. auto 8 with nonneg. }
  assert (NU : nonneg (costo_ralenti_real_unit rr) = true)
    by (rewrite R2; auto with nonneg).
  assert (U0 : PrimFloat.ltb (costo_ralenti m) (costo_ralenti_real_unit rr)
               = false) by (rewrite R2; now apply mul_share_le).
  assert (U1 : PrimFloat.ltb (merma_diaria_unit m)
                 (merma_diaria_real_unit rr) = false).
  { rewrite E18, R3, E17. now apply div_mono. }
  assert (F0 : PrimFloat.ltb (merma_total m) (costo_ralenti_real_fleet rr)
               = false) by (rewrite E12, R7; now apply mul_mono).
  assert (F1 : PrimFloat.ltb (merma_diaria m)
                 (merma_diaria_real_fleet rr) = false).
  { rewrite E13, R8. apply div_mono; try assumption.
    - rewrite R7. auto with nonneg.
    - rewrite E12. auto with nonneg. }
  assert (NU1 : nonneg (merma_diaria_unit m) = true)
    by (rewrite E18, E17; auto with nonneg).
  assert (NR1 : nonneg (merma_diaria_real_unit rr) = true)
    by (rewrite R3; auto with nonneg).
  assert (NF1 : nonneg (merma_diaria m) = true)
    by (rewrite E13, E12; auto with nonneg).
  assert (NG1 : nonneg (merma_diaria_real_fleet rr) = true)
    by (rewrite R8, R7; auto with nonneg).
  rewrite E19, E20, E21, E14, E15, E16, R4, R5, R6, R9, R10, R11.
  repeat split; try assumption; apply mul_mono; auto with nonneg.
Qed.

Lemma ralenti_real_acotado_witness :
  exists ss,
    calcular entradas_ejemplo = Calculado ss
    /\ PrimFloat.ltb (merma_anual (mermas ss))
         (merma_anual_real_fleet (ralenti_real ss)) = false.
Proof.
  destruct (calcular entradas_ejemplo) as [| | | | |ss|] eqn:H;
    try (vm_compute in H; discriminate).
  exists ss. split; [reflexivity|].
  apply (ralenti_real_acotado entradas_ejemplo ss);
    [cbn; lia|cbn; lia|cbn; lia|exact H].
Defined.

(** ** One of the two times is zero *)

(** The side that takes the whole period: 100 percent, the whole fuel. *)
Lemma parte_entera (t : Z) (q fuel : float) :
  0 < t -> F64.int_truediv t t = Ok q ->
  PrimFloat.mul q 100 = 100%float
  /\ PrimFloat.mul (PrimFloat.div (PrimFloat.mul q 100) 100) fuel = fuel.
Proof.
  intros Ht Eq. rewrite (int_truediv_self t Ht) in Eq.
  injection Eq as <-.
  change (PrimFloat.mul 1 100) with 100%float.
  change (PrimFloat.div 100 100) with 1%float.
  split; [reflexivity|apply mul_1_l].
Qed.

(** The side that takes nothing: 0 percent, no fuel unless the total is
    infinite. *)
Lemma parte_nula (t : Z) (q fuel price : float) :
  0 < t -> F64.int_truediv 0 t = Ok q ->
  PrimFloat.mul q 100 = 0%float
  /\ zero_or_nan
       (PrimFloat.mul (PrimFloat.div (PrimFloat.mul q 100) 100) fuel) = true
  /\ zero_or_nan
       (PrimFloat.mul
          (PrimFloat.mul (PrimFloat.div (PrimFloat.mul q 100) 100) fuel)
          price) = true.
Proof.
  intros Ht Eq. apply int_truediv_0 in Eq; [|assumption]. subst q.
  change (PrimFloat.mul 0 100) with 0%float.
  split; [reflexivity|].
  assert (Z : zero_or_nan (PrimFloat.mul (PrimFloat.div 0 100) fuel) = true)
    by now apply mul_zero_or_nan_l, div_zero_or_nan.
  split; [assumption|now apply mul_zero_or_nan_l].
Qed.

(** X14. When the idle time is zero minutes, the idle share is 0.0 and
    the moving share 100.0, the moving fuel is the total fuel and the
    moving cost the total cost; every figure that follows the idle share
    (idle fuel and cost, the losses, the savings, the real idle figures)
    is a zero, or a NaN if an input is infinite; with a rent that is not
    negative the investment is stored as not recoverable. *)
Theorem sin_ralenti (inp : Entradas) (ss : SessionState) :
  parse_time_string (idle_time inp) = Ok (Some 0) ->
  calcular inp = Calculado ss ->
  idle_percentage (mermas ss) = 0%float
  /\ moving_percentage (mermas ss) = 100%float
  /\ combustible_movimiento (mermas ss) = combustible_total inp
  /\ costo_movimiento (mermas ss) = costo_total (mermas ss)
  /\ Forall (fun x => zero_or_nan x = true) (cifras_de_ralenti ss)
  /\ (PrimFloat.leb 0 (renta_mensual inp) = true ->
      0 <= num_unidades inp ->
      meses_para_recuperar (retorno ss) = F64.inf
      /\ roi_days (retorno ss) = F64.inf).
Proof.
  intros P0 Hc.
  apply calcular_Calculado in Hc as (i & mv & Pi & Pm & _ & _ & Ht & Hc).
  rewrite P0 in Pi. injection Pi as <-.
  apply parse_time_string_nonneg in Pm.
  apply calculos_Ok in Hc as (Hm & Hret & Hreal & _).
  apply calcular_mermas_Ok in Hm
    as (q_idle & q_moving & f_idle & f_moving & r_red & r_real
        & E1 & E2 & E3 & E4 & E5 & E6 & E7 & E8 & E9 & E10 & E11 & E12
        & E13 & E14 & E15 & E16 & E17 & E18 & E19 & E20 & E21 & E22 & E23
        & E24 & E25 & E26 & E27).
  apply calcular_ralenti_real_Ok in Hreal
    as (r_real' & _ & R1 & R2 & R3 & R4 & R5 & R6 & R7 & R8 & R9 & R10
        & R11).
  apply int_truediv_0 in E1; [|lia]. subst q_idle.
  change (0 + mv) with mv in E3.
  apply F64_truediv_Ok in E5 as [_ E5].
  apply F64_truediv_Ok in E7 as [_ E7].
  apply F64_truediv_Ok in E13 as [_ E13].
  apply F64_truediv_Ok in E18 as [_ E18].
  apply F64_truediv_Ok in E26 as [_ E26].
  apply F64_truediv_Ok in R3 as [_ R3].
  apply F64_truediv_Ok in R8 as [_ R8].
  cbn [mul sub of_int PyNum_float] in *.
  set (m := mermas ss) in *. set (rr := ralenti_real ss) in *.
  assert (I0 : idle_percentage m = 0%float) by (rewrite E2; reflexivity).
  assert (Z0 : zero_or_nan (idle_percentage m) = true)
    by (rewrite I0; reflexivity).
  assert (Z1 : zero_or_nan (combustible_ralenti m) = true).
  { rewrite E6. subst f_idle.
    now apply mul_zero_or_nan_l, div_zero_or_nan. }
  assert (Z2 : zero_or_nan (costo_ralenti m) = true)
    by (rewrite E9; now apply mul_zero_or_nan_l).
  assert (Z3 : zero_or_nan (merma_total m) = true)
    by (rewrite E12; now apply mul_zero_or_nan_l).
  assert (Z4 : zero_or_nan (merma_diaria m) = true)
    by (rewrite E13; now apply div_zero_or_nan).
  assert (Z5 : zero_or_nan (merma_anual m) = true)
    by (rewrite E16; now apply mul_zero_or_nan_l).
  assert (Z6 : zero_or_nan (merma_total_unit m) = true) by now rewrite E17.
  assert (Z7 : zero_or_nan (merma_diaria_unit m) = true)
    by (rewrite E18; now apply div_zero_or_nan).
  assert (Z8 : zero_or_nan (ahorro_anual m) = true)
    by (rewrite E24; now apply mul_zero_or_nan_l, mul_zero_or_nan_l).
  assert (Z9 : zero_or_nan (ahorro_mensual m) = true)
    by (rewrite E26; now apply div_zero_or_nan).
  assert (Z10 : zero_or_nan (costo_ralenti_real_unit rr) = true)
    by (rewrite R2; now apply mul_zero_or_nan_l).
  assert (Z11 : zero_or_nan (merma_diaria_real_unit rr) = true)
    by (rewrite R3; now apply div_zero_or_nan).
  assert (Z12 : zero_or_nan (costo_ralenti_real_fleet rr) = true)
    by (rewrite R7; now apply mul_zero_or_nan_l).
  assert (Z13 : zero_or_nan (merma_diaria_real_fleet rr) = true)
    by (rewrite R8; now apply div_zero_or_nan).
  assert (M : moving_percentage m = 100%float
              /\ combustible_movimiento m = combustible_total inp).
  { change (F64.of_int 100) with 100%float in *.
    destruct (parte_entera mv q_moving (combustible_total inp)
                ltac:(lia) E3) as [M1 M2].
    rewrite E8, E7, E4. split; assumption. }
  destruct M as [M1 M2].
  split; [assumption|]. split; [assumption|]. split; [assumption|].
  split; [rewrite E10, E11, M2; reflexivity|]. split.
  - unfold cifras_de_ralenti. fold m rr.
    repeat (apply Forall_cons; [|]); try apply Forall_nil;
      try assumption;
      rewrite ?E14, ?E15, ?E19, ?E20, ?E21, ?R4, ?R5, ?R6, ?R9, ?R10, ?R11;
      now apply mul_zero_or_nan_l.
  - intros Hrenta Hn.
    assert (N : PrimFloat.ltb 0 (neto_mensual m) = false).
    { rewrite E27. apply sub_zero_not_positive; [assumption|].
      apply mul_not_negative; auto with nonneg. }
    fold m in Hret.
    apply calcular_retorno_Ok in Hret as [(Hpos & _)|(_ & Hme & Hdi)].
    + rewrite N in Hpos. discriminate.
    + split; assumption.
Qed.

Lemma sin_ralenti_witness :
  exists ss,
    calcular
      {| idle_time := "(0D,0H,0M)"; moving_time := "(1D,15H,32M)";
         combustible_total := 1419; precio_litro := 25; num_unidades := 30;
         costo_por_pieza := 5000; renta_mensual := 999;
         porcentaje_reduccion := 20; porcentaje_ralenti_real := 100;
         duration_days := 1 |} = Calculado ss
    /\ idle_percentage (mermas ss) = 0%float.
Proof.
  match goal with
  | |- exists ss, calcular ?i = _ /\ _ =>
      destruct (calcular i) as [| | | | |ss|] eqn:H;
        try (vm_compute in H; discriminate);
        exists ss; split; [reflexivity|];
        apply (sin_ralenti i ss eq_refl H)
  end.
Defined.

(** X19. When the moving time is zero minutes, the idle share is 100.0
    and the moving share 0.0, the idle fuel is the total fuel and the
    idle cost the total cost; the moving fuel and cost are zeros, or
    NaNs if an input is infinite. *)
Theorem sin_movimiento (inp : Entradas) (ss : SessionState) :
  parse_time_string (moving_time inp) = Ok (Some 0) ->
  calcular inp = Calculado ss ->
  let m := mermas ss in
  idle_percentage m = 100%float
  /\ moving_percentage m = 0%float
  /\ combustible_ralenti m = combustible_total inp
  /\ costo_ralenti m = costo_total m
  /\ merma_total_unit m = costo_total m
  /\ zero_or_nan (combustible_movimiento m) = true
  /\ zero_or_nan (costo_movimiento m) = true.
Proof.
  intros P0 Hc m.
  apply calcular_Calculado in Hc as (i & mv & Pi & Pm & _ & _ & Ht & Hc).
  rewrite P0 in Pm. injection Pm as <-.
  apply parse_time_string_nonneg in Pi.
  apply calculos_Ok in Hc as (Hm & _).
  fold m in Hm.
  apply calcular_mermas_Ok in Hm
    as (q_idle & q_moving & f_idle & f_moving & r_red & r_real
        & E1 & E2 & E3 & E4 & E5 & E6 & E7 & E8 & E9 & E10 & E11 & _
        & _ & _ & _ & _ & E17 & _).
  apply F64_truediv_Ok in E5 as [_ E5].
  apply F64_truediv_Ok in E7 as [_ E7].
  cbn [mul of_int int_truediv PyNum_float] in *.
  change (F64.of_int 100) with 100%float in *.
  rewrite Z.add_0_r in E1, E3.
  destruct (parte_entera i q_idle (combustible_total inp)
              ltac:(lia) E1) as [I1 I2].
  destruct (parte_nula i q_moving (combustible_total inp) (precio_litro inp)
              ltac:(lia) E3) as (M1 & M2 & M3).
  assert (C : combustible_ralenti m = combustible_total inp)
    by (rewrite E6, E5, E2; assumption).
  assert (K : costo_ralenti m = costo_total m)
    by (rewrite E9, E11, C; reflexivity).
  repeat split.
  - rewrite E2. assumption.
  - rewrite E4. assumption.
  - assumption.
  - assumption.
  - rewrite E17. assumption.
  - rewrite E8, E7, E4. assumption.
  - rewrite E10, E8, E7, E4. assumption.
Qed.

Lemma sin_movimiento_witness :
  exists ss,
    calcular
      {| idle_time := "(1D,15H,32M)"; moving_time := "(0D,0H,0M)";
         combustible_total := 1419; precio_litro := 25; num_unidades := 30;
         costo_por_pieza := 5000; renta_mensual := 999;
         porcentaje_reduccion := 20; porcentaje_ralenti_real := 100;
         duration_days := 1 |} = Calculado ss
    /\ idle_percentage (mermas ss) = 100%float.
Proof.
  match goal with
  | |- exists ss, calcular ?i = _ /\ _ =>
      destruct (calcular i) as [| | | | |ss|] eqn:H;
        try (vm_compute in H; discriminate);
        exists ss; split; [reflexivity|];
        apply (sin_movimiento i ss eq_refl H)
  end.
Defined.

(** ** A period of one day *)

(** X20. When the period is one day (both dates the same, as the date
    widgets start), each daily loss is the loss of the period: for the
    fleet, for one unit, and for the real idle share of both. *)
Theorem periodo_de_un_dia (inp : Entradas) (ss : SessionState) :
  duration_days inp = 1 ->
  calcular inp = Calculado ss ->
  let m := mermas ss in
  let rr := ralenti_real ss in
  merma_diaria m = merma_total m
  /\ merma_diaria_unit m = costo_ralenti m
  /\ merma_diaria_real_unit rr = costo_ralenti_real_unit rr
  /\ merma_diaria_real_fleet rr = costo_ralenti_real_fleet rr.
Proof.
  intros Hd Hc m rr.
  apply calcular_Calculado in Hc as (i & mv & _ & _ & _ & _ & _ & Hc).
  apply calculos_Ok in Hc as (Hm & _ & Hreal & _).
  fold m in Hm, Hreal. fold rr in Hreal.
  apply calcular_mermas_Ok in Hm
    as (q_idle & q_moving & f_idle & f_moving & r_red & r_real
        & _ & _ & _ & _ & _ & _ & _ & _ & _ & _ & _ & _
        & E13 & _ & _ & _ & E17 & E18 & _).
  apply calcular_ralenti_real_Ok in Hreal
    as (r & _ & _ & _ & R3 & _ & _ & _ & _ & R8 & _).
  apply F64_truediv_Ok in E13 as [_ E13].
  apply F64_truediv_Ok in E18 as [_ E18].
  apply F64_truediv_Ok in R3 as [_ R3].
  apply F64_truediv_Ok in R8 as [_ R8].
  cbn [mul of_int PyNum_float] in *.
  rewrite Hd in *. change (F64.of_int 1) with 1%float in *.
  rewrite div_1_r in E13, E18, R3, R8.
  rewrite E17 in E18.
  repeat split; assumption.
Qed.

Lemma periodo_de_un_dia_witness :
  exists ss,
    calcular
      {| idle_time := "(0D,9H,12M)"; moving_time := "(1D,15H,32M)";
         combustible_total := 1419; precio_litro := 25; num_unidades := 30;
         costo_por_pieza := 5000; renta_mensual := 999;
         porcentaje_reduccion := 20; porcentaje_ralenti_real := 100;
         duration_days := 1 |} = Calculado ss
    /\ merma_diaria (mermas ss) = merma_total (mermas ss).
Proof.
  match goal with
  | |- exists ss, calcular ?i = _ /\ _ =>
      destruct (calcular i) as [| | | | |ss|] eqn:H;
        try (vm_compute in H; discriminate);
        exists ss; split; [reflexivity|];
        apply (periodo_de_un_dia i ss eq_refl H)
  end.
Defined.
